(** * Hybrid retrieval engine: chunker, vector store, knowledge graph, matcher

    A shallow embedding of [src/vector_store.py], [src/graph_builder.py] and
    [src/query_engine.py], and the properties of the retrieval core proved on it.

    Conventions of the embedding:
    - a Python [str] is the list of its code points ([len] and slices count code
      points, as Python does);
    - a Python [int] is a [Z]; slices follow Python's rules for negative bounds;
    - a similarity score (a float in the code) is an exact rational [Q]: the
      ranking only depends on the order of the scores;
    - a call that may raise returns a [result]. *)

From Stdlib Require Import String Ascii.
From Stdlib Require Import List ZArith NArith QArith Qround Lia Bool.
From Stdlib Require Import DecimalString.
From Stdlib Require Import Sorted Permutation.
Import ListNotations.

Local Open Scope Z_scope.

(** ** Python built-ins used by the sources *)

Module Py.

Definition str := list N.

Definition len {A} (l : list A) : Z := Z.of_nat (length l).

(** [l[:k]] *)
Definition slice_to {A} (k : Z) (l : list A) : list A :=
  if 0 <=? k then firstn (Z.to_nat k) l
  else firstn (length l - Z.to_nat (- k)) l.

(** [l[i:]] *)
Definition slice_from {A} (i : Z) (l : list A) : list A :=
  if 0 <=? i then skipn (Z.to_nat i) l
  else skipn (length l - Z.to_nat (- i)) l.

Definition str_eqb (a b : str) : bool :=
  if list_eq_dec N.eq_dec a b then true else false.

Fixpoint starts_with (p s : str) : bool :=
  match p, s with
  | [], _ => true
  | _ :: _, [] => false
  | a :: p', b :: s' => N.eqb a b && starts_with p' s'
  end.

(** [needle in hay] on strings *)
Fixpoint contains (needle hay : str) : bool :=
  starts_with needle hay ||
  match hay with
  | [] => false
  | _ :: hay' => contains needle hay'
  end.

(** [c in s] for one character *)
Definition char_in (c : N) (s : str) : bool := existsb (N.eqb c) s.

(** The characters [str.strip()] removes: Unicode white space. *)
Definition is_space (c : N) : bool :=
  ((9 <=? c) && (c <=? 13))%N || ((28 <=? c) && (c <=? 32))%N ||
  (c =? 133)%N || (c =? 160)%N || (c =? 5760)%N ||
  ((8192 <=? c) && (c <=? 8202))%N || (c =? 8232)%N || (c =? 8233)%N ||
  (c =? 8239)%N || (c =? 8287)%N || (c =? 12288)%N.

Fixpoint lstrip (s : str) : str :=
  match s with
  | [] => []
  | c :: s' => if is_space c then lstrip s' else s
  end.

Definition rstrip (s : str) : str := rev (lstrip (rev s)).

Definition strip (s : str) : str := rstrip (lstrip s).

(** ["\n\n"] *)
Definition nn : str := [10%N; 10%N].

(** [s.split("\n\n")]: the pieces between the occurrences of the separator,
    found from the left and not overlapping. *)
Fixpoint split_nn_go (s : str) (cur : str) (skip : bool) : list str :=
  match s with
  | [] => [rev cur]
  | c :: s' =>
      if skip then split_nn_go s' cur false
      else match s' with
           | d :: _ =>
               if ((c =? 10) && (d =? 10))%N
               then rev cur :: split_nn_go s' [] true
               else split_nn_go s' (c :: cur) false
           | [] => split_nn_go s' (c :: cur) false
           end
  end.

Definition split_nn (s : str) : list str := split_nn_go s [] false.

(** [sep.join(parts)] *)
Fixpoint join (sep : str) (parts : list str) : str :=
  match parts with
  | [] => []
  | [p] => p
  | p :: ps => p ++ sep ++ join sep ps
  end.

(** Code points of a literal written in UTF-8. *)
Fixpoint utf8 (bs : list N) (pending : nat) (acc : N) : str :=
  match bs with
  | [] => []
  | b :: bs' =>
      match pending with
      | O =>
          if (b <? 128)%N then b :: utf8 bs' 0 0%N
          else if (b <? 224)%N then utf8 bs' 1 (b - 192)%N
          else if (b <? 240)%N then utf8 bs' 2 (b - 224)%N
          else utf8 bs' 3 (b - 240)%N
      | S O => (acc * 64 + (b - 128))%N :: utf8 bs' 0 0%N
      | S p => utf8 bs' p (acc * 64 + (b - 128))%N
      end
  end.

Definition u (s : string) : str :=
  utf8 (map N_of_ascii (list_ascii_of_string s)) 0 0%N.
Arguments u s%_string.

(** What a call produces: a value or a raised exception (an instance of
    [Exception], named by its class and message). *)
Record exn := Exn { exn_class : str; exn_message : str }.

Inductive result (A : Type) : Type :=
| Ok (a : A)
| Raise (e : exn).
Arguments Ok {A} a.
Arguments Raise {A} e.

Definition bind {A B} (r : result A) (k : A -> result B) : result B :=
  match r with
  | Ok a => k a
  | Raise e => Raise e
  end.

Fixpoint mapM {A B} (f : A -> result B) (l : list A) : result (list B) :=
  match l with
  | [] => Ok []
  | a :: l' => bind (f a) (fun b => bind (mapM f l') (fun bs => Ok (b :: bs)))
  end.

End Py.

Import Py.


(** ** Chunker: [VectorStore._split_text] *)

Module Chunker.

Record TextChunk := mkChunk { text : str; chapter : str; index : Z }.

(** Truth value of a string: non-empty. *)
Definition truthy (s : str) : bool :=
  match s with [] => false | _ => true end.

(** Body of the loop [for para in paragraphs], on the state
    [(chunks, current_chunk)]. *)
Definition add_paragraph (chunk_size chunk_overlap : Z) (current_chapter : str)
    (st : list TextChunk * str) (para : str) : list TextChunk * str :=
  let '(chunks, current_chunk) := st in
  let para := strip para in
  if negb (truthy para) then (chunks, current_chunk)
  else if len current_chunk + len para <? chunk_size
  then (chunks, current_chunk ++ para ++ nn)
  else
    let chunks :=
      if truthy current_chunk
      then chunks ++ [mkChunk (strip current_chunk) current_chapter (len chunks)]
      else chunks in
    if (0 <? chunk_overlap) && (chunk_overlap <? len current_chunk)
    then (chunks, slice_from (- chunk_overlap) current_chunk ++ para ++ nn)
    else (chunks, para ++ nn).

(** One text section (an even position of the split): its paragraphs are
    accumulated from an empty buffer and the last buffer is flushed. *)
Definition split_section (chunk_size chunk_overlap : Z) (current_chapter : str)
    (chunks : list TextChunk) (section : str) : list TextChunk :=
  let section := strip section in
  if len section <? 50 then chunks
  else
    let paragraphs := split_nn section in
    let '(chunks, current_chunk) :=
      fold_left (add_paragraph chunk_size chunk_overlap current_chapter)
                paragraphs (chunks, []) in
    if truthy (strip current_chunk)
    then chunks ++ [mkChunk (strip current_chunk) current_chapter (len chunks)]
    else chunks.

(** The loop [for i, section in enumerate(sections)]: odd positions are the
    chapter titles captured by the separator pattern. *)
Fixpoint split_sections (chunk_size chunk_overlap : Z) (sections : list str)
    (i : nat) (current_chapter : str) (chunks : list TextChunk)
    : list TextChunk :=
  match sections with
  | [] => chunks
  | section :: rest =>
      if Nat.odd i
      then split_sections chunk_size chunk_overlap rest (S i) section chunks
      else split_sections chunk_size chunk_overlap rest (S i) current_chapter
             (split_section chunk_size chunk_overlap current_chapter chunks section)
  end.

(** [_split_text], from the list [re.split(r'\n===\s*(.*?)\s*===\n', text)]
    on: the regular-expression library produces [sections], the alternation
    of text sections and captured titles. *)
Definition _split_text (sections : list str) (chunk_size chunk_overlap : Z)
    : list TextChunk :=
  split_sections chunk_size chunk_overlap sections 0 (u "未知章节") [].

(** A chunk whose index is moved by [k] positions. *)
Definition shift (k : Z) (c : TextChunk) : TextChunk :=
  mkChunk (text c) (chapter c) (index c + k).

End Chunker.

(** ** Vector store: [VectorStore.search], [save] and [load] *)

Module Store.
Import Chunker.

Definition vec := list Q.

(** The state of a [VectorStore]: [embeddings] is [None] until an index is
    built or loaded, then a matrix given by its rows. *)
Record VectorStore := mkStore {
  chunks : list TextChunk;
  embeddings : option (list vec)
}.

Definition IndexError : exn := Exn (u "IndexError") (u "index out of range").
Definition ValueError : exn := Exn (u "ValueError") (u "shapes not aligned").

Definition Qltb (a b : Q) : bool := negb (Qle_bool b a).

(** [1e-9] *)
Definition eps : Q := 1 # 1000000000.

Definition dot (a b : vec) : Q :=
  fold_right Qplus 0%Q (map (fun p => (fst p * snd p)%Q) (combine a b)).

(** [np.dot(matrix, v)]: one product per row; the shapes must agree. *)
Definition np_dot (m : list vec) (v : vec) : result (list Q) :=
  if forallb (fun row => Nat.eqb (length row) (length v)) m
  then Ok (map (fun row => dot row v) m)
  else Raise ValueError.

(** One insertion of an insertion sort on the indices: index [i] goes
    before the first index whose score is strictly greater. *)
Fixpoint insert_index (sims : list Q) (i : nat) (sorted : list nat) : list nat :=
  match sorted with
  | [] => [i]
  | j :: rest =>
      if Qltb (nth i sims 0%Q) (nth j sims 0%Q)
      then i :: sorted
      else j :: insert_index sims i rest
  end.

(** A sort to run the examples with. [np.argsort] is a parameter of
    [search]: it returns the indices in ascending order of score and, with
    its default kind, promises no order among the indices of equal scores.
    This insertion sort is one function that meets that contract; it leaves
    the indices of equal scores in increasing order. *)
Definition insertion_argsort (sims : list Q) : list nat :=
  fold_left (fun acc i => insert_index sims i acc) (seq 0 (length sims)) [].

Section Search.

(** The embedding backend, [self._embed_texts], and the two numpy functions
    [np.linalg.norm] and [np.argsort]. *)
Variable _embed_texts : list str -> result (list vec).
Variable norm : vec -> Q.
Variable argsort : list Q -> list nat.

(** [v / (np.linalg.norm(v) + 1e-9)] *)
Definition normalize (v : vec) : vec :=
  map (fun x => (x / (norm v + eps))%Q) v.

Definition similarities_of (m : list vec) (query_embedding : vec)
    : result (list Q) :=
  let query_norm := normalize query_embedding in
  let embeddings_norm := map normalize m in
  np_dot embeddings_norm query_norm.

(** [np.argsort(similarities)[::-1][:top_k]] *)
Definition top_indices_of (similarities : list Q) (top_k : Z) : list nat :=
  slice_to top_k (rev (argsort similarities)).

Definition search (vs : VectorStore) (query : str) (top_k : Z)
    : result (list (TextChunk * Q)) :=
  match embeddings vs with
  | None => Ok []
  | Some m =>
      if len (chunks vs) =? 0 then Ok []
      else
        bind (_embed_texts [query]) (fun embedded =>
        bind (match embedded with
              | query_embedding :: _ => Ok query_embedding
              | [] => Raise IndexError
              end) (fun query_embedding =>
        bind (similarities_of m query_embedding) (fun similarities =>
        let top_indices := top_indices_of similarities top_k in
        mapM (fun idx =>
                match nth_error (chunks vs) idx with
                | Some c => Ok (c, nth idx similarities 0%Q)
                | None => Raise IndexError
                end) top_indices)))
  end.

End Search.

(** A file of the index directory: absent, present but not readable as the
    expected data (the read raises), or present with its contents. *)
Inductive file (A : Type) : Type :=
| Missing
| Unreadable (e : exn)
| Contents (a : A).
Arguments Missing {A}.
Arguments Unreadable {A} e.
Arguments Contents {A} a.

Record directory := mkDir {
  chunks_json : file (list TextChunk);
  embeddings_npy : file (list vec)
}.

Definition exists_ {A} (f : file A) : bool :=
  match f with Missing => false | _ => true end.

(** [save]: the chunk list is always written, the matrix only when there is
    one (an older matrix file stays in place otherwise). *)
Definition save (vs : VectorStore) (d : directory) : directory :=
  mkDir (Contents (chunks vs))
        (match embeddings vs with
         | Some m => Contents m
         | None => embeddings_npy d
         end).

(** [load]: the outcome and the state of the store afterwards. *)
Definition load (vs : VectorStore) (d : directory) : result bool * VectorStore :=
  if negb (exists_ (chunks_json d)) || negb (exists_ (embeddings_npy d))
  then (Ok false, vs)
  else
    match chunks_json d with
    | Contents chunks_data =>
        let vs1 := mkStore chunks_data (embeddings vs) in
        match embeddings_npy d with
        | Contents m => (Ok true, mkStore chunks_data (Some m))
        | Unreadable e => (Raise e, vs1)
        | Missing => (Ok false, vs)
        end
    | Unreadable e => (Raise e, vs)
    | Missing => (Ok false, vs)
    end.

End Store.

(** ** Python dictionaries with string keys, in insertion order *)

Module Dict.

Definition dict (V : Type) := list (str * V).

Fixpoint get {V} (k : str) (d : dict V) : option V :=
  match d with
  | [] => None
  | (k', v) :: d' => if str_eqb k k' then Some v else get k d'
  end.

Definition mem {V} (k : str) (d : dict V) : bool :=
  match get k d with Some _ => true | None => false end.

(** [d[k] = v]: an existing key keeps its place. *)
Fixpoint set {V} (k : str) (v : V) (d : dict V) : dict V :=
  match d with
  | [] => [(k, v)]
  | (k', v') :: d' =>
      if str_eqb k k' then (k', v) :: d' else (k', v') :: set k v d'
  end.

Definition keys {V} (d : dict V) : list str := map fst d.

(** [k in l] for a list of strings *)
Definition str_in (k : str) (l : list str) : bool := existsb (str_eqb k) l.

End Dict.

(** ** Knowledge graph: [KnowledgeGraph] over [networkx.DiGraph] *)

Module Graph.
Import Dict.

Inductive EntityType :=
| CONCEPT | MENTAL_MODEL | PRINCIPLE | PERSON | COMPANY | CASE_STUDY | BOOK
| DISCIPLINE | COGNITIVE_BIAS.

Inductive RelationType :=
| EXPLAINS | APPLIES_TO | DERIVED_FROM | RELATED_TO | INFLUENCED_BY
| COLLABORATED_WITH | MENTIONED | SUPPORTS | OPPOSES | WARNS_AGAINST
| IS_A | PART_OF | LEADS_TO.

(** The [.value] of the two enumerations. *)
Definition entity_type_value (t : EntityType) : str :=
  match t with
  | CONCEPT => u "概念" | MENTAL_MODEL => u "思维模型" | PRINCIPLE => u "原则"
  | PERSON => u "人物" | COMPANY => u "公司" | CASE_STUDY => u "案例"
  | BOOK => u "书籍" | DISCIPLINE => u "学科" | COGNITIVE_BIAS => u "认知偏误"
  end.

Definition relation_type_value (t : RelationType) : str :=
  match t with
  | EXPLAINS => u "解释" | APPLIES_TO => u "应用于" | DERIVED_FROM => u "源自"
  | RELATED_TO => u "相关" | INFLUENCED_BY => u "受影响于"
  | COLLABORATED_WITH => u "合作" | MENTIONED => u "提及" | SUPPORTS => u "支持"
  | OPPOSES => u "反对" | WARNS_AGAINST => u "警告" | IS_A => u "是一种"
  | PART_OF => u "属于" | LEADS_TO => u "导致"
  end.

Record Entity := mkEntity {
  name : str;
  entity_type : EntityType;
  description : str;
  source_chapter : str;
  attributes : dict Q
}.

Record Relationship := mkRel {
  source : str;
  target : str;
  relation_type : RelationType;
  rel_description : str;
  weight : Q;
  source_text : str
}.

(** Attribute dictionaries of a node and of an edge; a key that was never
    set is [None]. *)
Record NodeData := mkNodeData {
  n_entity_type : option str;
  n_description : option str;
  n_chapter : option str
}.

Record EdgeData := mkEdgeData {
  e_relation_type : option str;
  e_description : option str;
  e_weight : option Q
}.

Definition no_node_data : NodeData := mkNodeData None None None.

(** [networkx.DiGraph]: the node dictionary and the two adjacency
    dictionaries (successors and predecessors). *)
Record DiGraph := mkDiGraph {
  _node : dict NodeData;
  _succ : dict (dict EdgeData);
  _pred : dict (dict EdgeData)
}.

Definition empty_digraph : DiGraph := mkDiGraph [] [] [].

(** [n in G] *)
Definition has_node (G : DiGraph) (n : str) : bool := mem n (_node G).

Definition adj (a : dict (dict EdgeData)) (n : str) : dict EdgeData :=
  match get n a with Some d => d | None => [] end.

(** A node that is new gets empty adjacency and attribute dictionaries. *)
Definition touch_node (G : DiGraph) (n : str) : DiGraph :=
  if mem n (_succ G) then G
  else mkDiGraph (set n no_node_data (_node G))
                 (set n [] (_succ G)) (set n [] (_pred G)).

(** [G.add_node(n, entity_type=.., description=.., chapter=..)] *)
Definition add_node (G : DiGraph) (n : str) (d : NodeData) : DiGraph :=
  let G := touch_node G n in
  mkDiGraph (set n d (_node G)) (_succ G) (_pred G).

(** [G.add_edge(u, v, relation_type=.., description=.., weight=..)]: both
    end points become nodes when they are not yet. *)
Definition add_edge (G : DiGraph) (a b : str) (d : EdgeData) : DiGraph :=
  let G := touch_node G a in
  let G := touch_node G b in
  mkDiGraph (_node G)
            (set a (set b d (adj (_succ G) a)) (_succ G))
            (set b (set a d (adj (_pred G) b)) (_pred G)).

Definition successors (G : DiGraph) (n : str) : list str := keys (adj (_succ G) n).
Definition predecessors (G : DiGraph) (n : str) : list str := keys (adj (_pred G) n).

(** [G.get_edge_data(u, v)] *)
Definition get_edge_data (G : DiGraph) (a b : str) : option EdgeData :=
  get b (adj (_succ G) a).

Record KnowledgeGraph := mkKG {
  graph : DiGraph;
  entities : dict Entity;
  relationships : list Relationship
}.

Definition empty_kg : KnowledgeGraph := mkKG empty_digraph [] [].

Definition add_entity (kg : KnowledgeGraph) (entity : Entity) : KnowledgeGraph :=
  mkKG (add_node (graph kg) (name entity)
          (mkNodeData (Some (entity_type_value (entity_type entity)))
                      (Some (description entity))
                      (Some (source_chapter entity))))
       (set (name entity) entity (entities kg))
       (relationships kg).

Definition add_relationship (kg : KnowledgeGraph) (rel : Relationship)
    : KnowledgeGraph :=
  mkKG (add_edge (graph kg) (source rel) (target rel)
          (mkEdgeData (Some (relation_type_value (relation_type rel)))
                      (Some (rel_description rel))
                      (Some (weight rel))))
       (entities kg)
       (relationships kg ++ [rel]).

(** The two ways the graph is populated. *)
Inductive op :=
| AddEntity (e : Entity)
| AddRelationship (r : Relationship).

Definition apply_op (kg : KnowledgeGraph) (o : op) : KnowledgeGraph :=
  match o with
  | AddEntity e => add_entity kg e
  | AddRelationship r => add_relationship kg r
  end.

Definition run (ops : list op) : KnowledgeGraph := fold_left apply_op ops empty_kg.

(** *** [get_neighbors] *)

Record Neighbor := mkNeighbor { entity : str; relation : str }.

Definition AttributeError : exn :=
  Exn (u "AttributeError") (u "'NoneType' object has no attribute 'get'").

(** [G.get_edge_data(a, b).get("relation_type", "")] *)
Definition edge_relation (G : DiGraph) (a b : str) : result str :=
  match get_edge_data G a b with
  | Some d => Ok (match e_relation_type d with Some r => r | None => [] end)
  | None => Raise AttributeError
  end.

(** The result is a dictionary: empty for a name that is not a node, with
    the keys ["in"] and ["out"] otherwise. *)
Definition get_neighbors (kg : KnowledgeGraph) (entity_name : str)
    : result (dict (list Neighbor)) :=
  let G := graph kg in
  if negb (has_node G entity_name) then Ok []
  else
    bind (mapM (fun pred =>
                  bind (edge_relation G pred entity_name)
                       (fun r => Ok (mkNeighbor pred r)))
               (predecessors G entity_name)) (fun ins =>
    bind (mapM (fun succ =>
                  bind (edge_relation G entity_name succ)
                       (fun r => Ok (mkNeighbor succ r)))
               (successors G entity_name)) (fun outs =>
    Ok [(u "in", ins); (u "out", outs)])).

(** *** [find_paths], over [networkx.all_simple_paths]

    networkx (3.2 and later, [algorithms/simple_paths.py]) starts with
    [if source not in G: raise NodeNotFound], then
    [if target in G: targets = {target}] and otherwise
    [targets = set(target)], raising [NodeNotFound] only when [target] cannot
    be iterated; a string can, and gives the set of its characters. The
    search runs when [cutoff >= 0 and targets]. *)

Definition NodeNotFound (which : str) : exn := Exn (u "NodeNotFound") which.

Definition targets_of (G : DiGraph) (target : str) : list str :=
  if has_node G target then [target]
  else map (fun c => [c]) target.

(** The depth-first search: [node] is reached by the path whose earlier
    nodes are [path_rev] (last first), and [r] more edges may be used. A path
    is produced when [node] is a target; the search goes on through [node]
    while the bound allows and a target is still off the path. *)
Fixpoint dfs (G : DiGraph) (targets : list str) (r : nat)
    (path_rev : list str) (node : str) : list (list str) :=
  (if str_in node targets then [rev (node :: path_rev)] else []) ++
  match r with
  | O => []
  | S r' =>
      if existsb (fun t => negb (str_in t (node :: path_rev))) targets
      then flat_map (fun s =>
                       if str_in s (node :: path_rev) then []
                       else dfs G targets r' (node :: path_rev) s)
                    (successors G node)
      else []
  end.

Definition all_simple_paths (G : DiGraph) (source target : str) (cutoff : Z)
    : result (list (list str)) :=
  if negb (has_node G source) then Raise (NodeNotFound source)
  else
    let targets := targets_of G target in
    if (0 <=? cutoff) && negb (Nat.eqb (length targets) 0)
    then Ok (dfs G targets (Z.to_nat cutoff) [] source)
    else Ok [].

(** [find_paths]: [NetworkXNoPath] and [NodeNotFound] are turned into the
    empty list, anything else propagates. *)
Definition find_paths (kg : KnowledgeGraph) (source target : str)
    (max_length : Z) : result (list (list str)) :=
  match all_simple_paths (graph kg) source target max_length with
  | Ok paths => Ok paths
  | Raise e =>
      if str_eqb (exn_class e) (u "NetworkXNoPath")
         || str_eqb (exn_class e) (u "NodeNotFound")
      then Ok []
      else Raise e
  end.

End Graph.

(** ** Entity matcher: [GraphQueryEngine._fuzzy_match_entity] *)

Module Matcher.
Import Dict Graph.

Section Match.

(** [str.lower] *)
Variable lower : str -> str.

(** The test of the partial match, for one entity name. *)
Definition partial_match (query_lower name : str) : bool :=
  contains query_lower (lower name) || contains (lower name) query_lower.

Definition _fuzzy_match_entity (kg : KnowledgeGraph) (query : str) : option str :=
  let query_lower := lower query in
  if mem query (entities kg) then Some query
  else find (partial_match query_lower) (keys (entities kg)).

End Match.

(** Lower case of the letters A to Z; the other characters of the corpus
    (CJK) have no case. *)
Definition ascii_lower (s : str) : str :=
  map (fun c => if ((65 <=? c) && (c <=? 90))%N then (c + 32)%N else c) s.

End Matcher.

(** ** Hybrid query engine: [HybridQueryEngine] *)

Module Hybrid.
Import Dict Chunker Store Graph.

(** A message of the conversation history, a dictionary read with
    [msg.get("role")] and [msg.get("content", "")]. *)
Record Message := mkMsg { role : option str; content : option str }.

Definition content_of (m : Message) : str :=
  match content m with Some c => c | None => [] end.

Definition is_user (m : Message) : bool :=
  match role m with Some r => str_eqb r (u "user") | None => false end.

(** [history] is [None] or a list; [not history] holds for both [None] and
    the empty list. *)
Definition _build_search_query (question : str) (history : option (list Message))
    : str :=
  match history with
  | None | Some [] => question
  | Some h =>
      let recent_context :=
        map (fun msg => slice_to 100 (content_of msg))
            (filter is_user (slice_from (-4) h)) in
      match recent_context with
      | [] => question
      | _ => join (u " ") recent_context ++ u " " ++ question
      end
  end.

Definition stop_chars : str := u "？?的是什么怎么如何为".

(** [any(char in name for char in question if char not in "...")] *)
Definition mentions (question name : str) : bool :=
  existsb (fun char => char_in char name)
          (filter (fun char => negb (char_in char stop_chars)) question).

Record MatchedEntity := mkMatched {
  m_name : str; m_type : str; m_description : str
}.

Definition _get_matched_entities (g : option KnowledgeGraph) (question : str)
    : list MatchedEntity :=
  match g with
  | None => []
  | Some kg =>
      slice_to 5
        (map (fun ne => mkMatched (fst ne)
                          (entity_type_value (entity_type (snd ne)))
                          (description (snd ne)))
             (filter (fun ne => mentions question (fst ne)) (entities kg)))
  end.

(** [round(score, 3)] on an exact score: to the nearest thousandth, a tie
    to the even one. *)
Definition round_half_even (q : Q) : Z :=
  let f := Qfloor q in
  match Qcompare (q - inject_Z f) (1 # 2) with
  | Lt => f
  | Gt => f + 1
  | Eq => if Z.even f then f else f + 1
  end.

Definition round3 (q : Q) : Q := (inject_Z (round_half_even (q * 1000)) / 1000)%Q.

(** [score > 0.3] *)
Definition relevant (score : Q) : bool := Qltb (3 # 10) score.

Record Citation := mkCitation {
  c_id : Z; c_chapter : str; c_text : str; c_score : Q
}.

Fixpoint enumerate_from {A} (i : Z) (l : list A) : list (Z * A) :=
  match l with
  | [] => []
  | a :: l' => (i, a) :: enumerate_from (i + 1) l'
  end.

Definition _extract_citations (vector_results : list (TextChunk * Q))
    : list Citation :=
  map (fun ir =>
         let '(i, (chunk, score)) := ir in
         mkCitation (i + 1) (chapter chunk)
           (if 300 <? len (text chunk)
            then slice_to 300 (text chunk) ++ u "..."
            else text chunk)
           (round3 score))
      (filter (fun ir => relevant (snd (snd ir)))
              (enumerate_from 0 vector_results)).

(** [str(n)] for an index. *)
Definition str_of_Z (n : Z) : str :=
  u (NilZero.string_of_int (Z.to_int n)).

Definition entity_lines (kg : KnowledgeGraph) (ne : str * Entity)
    : result (list str) :=
  bind (get_neighbors kg (fst ne)) (fun neighbors =>
  Ok ((u "- **" ++ fst ne ++ u "**（"
         ++ entity_type_value (entity_type (snd ne)) ++ u "）："
         ++ description (snd ne))
      :: match get (u "out") neighbors with
         | Some ((_ :: _) as outs) =>
             map (fun rel => u "  → " ++ relation rel ++ u " → " ++ entity rel)
                 (slice_to 3 outs)
         | _ => []
         end)).

Definition _get_graph_context (g : option KnowledgeGraph) (question : str)
    : result str :=
  match g with
  | None => Ok []
  | Some kg =>
      bind (mapM (entity_lines kg)
                 (filter (fun ne => mentions question (fst ne)) (entities kg)))
           (fun groups =>
      Ok (join (u "
") (slice_to 10 (concat groups))))
  end.

Definition _build_context (vector_results : list (TextChunk * Q))
    (graph_context : str) : str :=
  let passages :=
    match vector_results with
    | [] => []
    | _ =>
        u "## 📖 书中相关原文
" ::
        flat_map (fun ir =>
                    let '(i, (chunk, score)) := ir in
                    if relevant score
                    then [u "**[" ++ str_of_Z (i + 1) ++ u "] 来源："
                            ++ chapter chunk ++ u "**";
                          u "> " ++ slice_to 500 (text chunk) ++ u "...";
                          []]
                    else [])
                 (enumerate_from 0 vector_results)
    end in
  let graph_part :=
    match graph_context with
    | [] => []
    | _ => [u "
## 🔗 知识图谱中的相关概念
"; graph_context]
    end in
  join (u "
") (passages ++ graph_part).

(** [re.sub(r'<[^>]+>', '', content)]: a tag is a [<], at least one
    character, and the first [>] after it. *)
Fixpoint index_gt (s : str) : option nat :=
  match s with
  | [] => None
  | c :: s' =>
      if (c =? 62)%N then Some O
      else match index_gt s' with Some n => Some (S n) | None => None end
  end.

Fixpoint remove_tags (s : str) (skip : nat) : str :=
  match s with
  | [] => []
  | c :: s' =>
      match skip with
      | S k => remove_tags s' k
      | O =>
          if (c =? 60)%N
          then match s' with
               | d :: s'' =>
                   if (d =? 62)%N then c :: remove_tags s' 0
                   else match index_gt s'' with
                        | Some n => remove_tags s' (n + 2)
                        | None => c :: remove_tags s' 0
                        end
               | [] => c :: remove_tags s' 0
               end
          else c :: remove_tags s' 0
      end
  end.

Definition history_line (msg : Message) : str :=
  let role := if is_user msg then u "用户" else u "助手" in
  let content := remove_tags (slice_to 300 (content_of msg)) 0 in
  u "**" ++ role ++ u "**: " ++ content ++ nn.

Definition history_text_of (history : option (list Message)) : str :=
  match history with
  | None | Some [] => []
  | Some h =>
      u "
## 📜 对话历史
" ++ concat (map history_line (slice_from (-6) h))
  end.

Definition prompt_of (history_text context question : str) : str :=
  u "你是一位精通查理·芒格思想的专家。请根据以下信息回答用户的问题。
" ++ history_text ++ u "
## 参考信息
" ++ context ++ u "

## 当前问题
" ++ question ++ u "

## 回答要求
1. **注意对话上下文**：如果用户的问题涉及到之前的对话内容，请结合上下文理解用户意图
2. **必须引用书中原文**：在引用时使用 [1]、[2] 等标记对应上面的来源编号
3. 使用 Markdown 格式组织回答，包括：
   - 使用 `>` 引用书中的重要原话
   - 使用 `**粗体**` 强调关键概念
   - 使用列表组织要点
4. 结合知识图谱中的关系进行深度分析
5. 回答要准确、有深度、有条理
6. 如果用户在追问或要求展开，请基于之前的回答进行深入
7. 如果信息不足，请诚实说明

请用中文回答：".

(** The generation backend. It has a [complete] method or not, and a
    [chat] method or not; what [complete] returns has a [text] attribute or
    is turned into a string by [str]. *)
Inductive Response :=
| WithText (text : str)
| Plain (as_str : str).

Record LLM := mkLLM {
  complete : option (str -> result Response);
  chat : option (list Message -> result str)
}.

Definition no_chat : exn :=
  Exn (u "AttributeError") (u "object has no attribute 'chat'").

(** The body of the [try] block. *)
Definition call_llm (llm : LLM) (prompt : str) : result str :=
  match complete llm with
  | Some f =>
      bind (f prompt) (fun response =>
      match response with
      | WithText t => Ok t
      | Plain s => Ok s
      end)
  | None =>
      match chat llm with
      | Some g => g [mkMsg (Some (u "user")) (Some prompt)]
      | None => Raise no_chat
      end
  end.

Definition error_answer (e : exn) : str := u "生成回答时出错: " ++ exn_message e.

Definition _generate_answer (llm : LLM) (question context : str)
    (vector_results : list (TextChunk * Q)) (history : option (list Message))
    : str :=
  let prompt := prompt_of (history_text_of history) context question in
  match call_llm llm prompt with
  | Ok answer => answer
  | Raise e => error_answer e
  end.

(** The progress messages of [query], as the markup strings handed to
    [console.print]: the question is put into the first one as it is. *)
Definition question_markup (question : str) : str :=
  u "
[bold cyan]问题:[/bold cyan] " ++ question.

Definition history_markup (history : list Message) : str :=
  u "[dim]📜 对话历史: " ++ str_of_Z (len history) ++ u " 轮[/dim]".

Definition searching_markup : str := u "[dim]🔍 从书中检索相关段落...[/dim]".

Definition graph_markup : str := u "[dim]🔗 从知识图谱检索...[/dim]".

Record QueryResult := mkResult {
  answer : str;
  citations : list Citation;
  graph_entities : list MatchedEntity
}.

Section Query.

Variable _embed_texts : list str -> result (list vec).
Variable norm : vec -> Q.
Variable argsort : list Q -> list nat.

(** [console.print] of the [rich] library. Its argument is console markup:
    the call raises ([MarkupError]) on markup it cannot render, such as a
    closing tag that matches no open tag. *)
Variable console_print : str -> result unit.

Definition query (vector_store : VectorStore) (g : option KnowledgeGraph)
    (llm : LLM) (question : str) (top_k : Z) (history : option (list Message))
    : result QueryResult :=
  bind (console_print (question_markup question)) (fun _ =>
  bind (match history with
        | None | Some [] => Ok tt
        | Some h => console_print (history_markup h)
        end) (fun _ =>
  bind (console_print searching_markup) (fun _ =>
  let search_query := _build_search_query question history in
  bind (search _embed_texts norm argsort vector_store search_query top_k)
       (fun vector_results =>
  bind (console_print graph_markup) (fun _ =>
  bind (_get_graph_context g question) (fun graph_context =>
  let context := _build_context vector_results graph_context in
  let answer := _generate_answer llm question context vector_results history in
  let citations := _extract_citations vector_results in
  Ok (mkResult answer citations (_get_matched_entities g question)))))))).

End Query.

End Hybrid.

(** * Properties *)

(** ** The built-ins on small inputs *)

Module PyFacts.

Example split_nn_ex :
  split_nn (u "a

b") = [u "a"; u "b"] /\ split_nn [] = [[]]
  /\ split_nn [10%N; 10%N; 10%N] = [[]; [10%N]].
Proof. repeat split. Qed.

Example utf8_ex : u "能力圈" = [33021%N; 21147%N; 22280%N].
Proof. reflexivity. Qed.

Example strip_ex : strip (u "  a b
") = u "a b".
Proof. reflexivity. Qed.

Example slices_ex :
  slice_to 2 (u "abcd") = u "ab" /\ slice_to (-1) (u "abcd") = u "abc"
  /\ slice_from (-3) (u "abcd") = u "bcd" /\ slice_from (-9) (u "abcd") = u "abcd".
Proof. repeat split. Qed.

End PyFacts.

(** ** Strings and dictionaries *)

Module DictFacts.
Import Dict.

Lemma str_eqb_eq (a b : str) : str_eqb a b = true <-> a = b.
Proof.
  unfold str_eqb. destruct (list_eq_dec N.eq_dec a b); split; congruence.
Qed.

Lemma str_eqb_refl (a : str) : str_eqb a a = true.
Proof. now apply str_eqb_eq. Qed.

Lemma str_eqb_neq (a b : str) : str_eqb a b = false <-> a <> b.
Proof.
  unfold str_eqb. destruct (list_eq_dec N.eq_dec a b); split; congruence.
Qed.

Lemma str_in_In (k : str) (l : list str) : str_in k l = true <-> In k l.
Proof.
  unfold str_in. rewrite existsb_exists. split.
  - intros [x [Hx He]]. apply str_eqb_eq in He. now subst.
  - intros H. exists k. split; [assumption | apply str_eqb_refl].
Qed.

Lemma get_set {V} (k k' : str) (v : V) (d : dict V) :
  get k (set k' v d) = if str_eqb k k' then Some v else get k d.
Proof.
  induction d as [| [k0 v0] d IH]; simpl.
  - reflexivity.
  - destruct (str_eqb k' k0) eqn:E0; simpl.
    + apply str_eqb_eq in E0. subst k0.
      destruct (str_eqb k k'); reflexivity.
    + destruct (str_eqb k k0) eqn:E1.
      * apply str_eqb_eq in E1. subst k0.
        destruct (str_eqb k k') eqn:E2; [| reflexivity].
        apply str_eqb_eq in E2. subst k'. rewrite str_eqb_refl in E0.
        discriminate.
      * exact IH.
Qed.

Lemma mem_set {V} (k k' : str) (v : V) (d : dict V) :
  mem k (set k' v d) = str_eqb k k' || mem k d.
Proof.
  unfold mem. rewrite get_set. destruct (str_eqb k k'); reflexivity.
Qed.

Lemma mem_keys {V} (k : str) (d : dict V) : mem k d = true <-> In k (keys d).
Proof.
  unfold mem, keys. induction d as [| [k0 v0] d IH]; simpl.
  - split; [discriminate | tauto].
  - destruct (str_eqb k k0) eqn:E.
    + apply str_eqb_eq in E. split; auto.
    + apply str_eqb_neq in E. rewrite IH. split; [tauto |].
      intros [H | H]; [congruence | assumption].
Qed.

Lemma keys_set {V} (k : str) (v : V) (d : dict V) :
  keys (set k v d) = if mem k d then keys d else keys d ++ [k].
Proof.
  unfold mem, keys. induction d as [| [k0 v0] d IH]; simpl.
  - reflexivity.
  - destruct (str_eqb k k0) eqn:E; simpl.
    + reflexivity.
    + rewrite IH. destruct (get k d); reflexivity.
Qed.

End DictFacts.

(** ** Persistence of the vector store *)

Module LoadFacts.
Import Chunker Store.

(** The two artifacts agree: one row of the matrix per chunk. *)
Definition consistent (d : directory) : Prop :=
  match chunks_json d, embeddings_npy d with
  | Contents cs, Contents m => length m = length cs
  | _, _ => False
  end.

Definition one_chunk : list TextChunk := [mkChunk (u "alpha") (u "ch") 0].
Definition two_rows : list vec := [[1%Q; 0%Q]; [0%Q; 1%Q]].

(** A directory the code itself produces: a built index with two rows is
    saved, then a store holding one chunk and no matrix is saved over it. *)
Definition stale_dir : directory :=
  save (mkStore one_chunk None)
       (save (mkStore (one_chunk ++ one_chunk) (Some two_rows))
             (mkDir Missing Missing)).

Lemma load_stale_dir :
  load (mkStore [] None) stale_dir = (Ok true, mkStore one_chunk (Some two_rows)).
Proof. reflexivity. Qed.

(** C3, as stated, fails: [load] answers true on a directory whose matrix
    has two rows for one chunk. *)
Lemma load_ignores_row_count :
  ~ (forall vs d, fst (load vs d) = Ok true -> consistent d).
Proof.
  intros H. specialize (H (mkStore [] None) stale_dir).
  rewrite load_stale_dir in H. specialize (H eq_refl).
  unfold consistent in H. simpl in H. discriminate.
Qed.

(** C3, amended: [load] answers true exactly when both artifacts are present
    and readable, and then takes both as they are; when one of them is
    missing it answers false, raises nothing and leaves the store as it was.
    No comparison of the row count with the number of chunks is made. *)
Theorem load_true_iff_both_present (vs : VectorStore) (d : directory) :
  (fst (load vs d) = Ok true <->
     exists cs m, chunks_json d = Contents cs /\ embeddings_npy d = Contents m)
  /\ (forall cs m,
        chunks_json d = Contents cs -> embeddings_npy d = Contents m ->
        load vs d = (Ok true, mkStore cs (Some m)))
  /\ (chunks_json d = Missing \/ embeddings_npy d = Missing ->
        load vs d = (Ok false, vs)).
Proof.
  destruct d as [cj en]. unfold load. simpl.
  repeat split.
  - destruct cj, en; simpl; intros H; try discriminate; eauto.
  - intros (cs & m & -> & ->). reflexivity.
  - intros cs m -> ->. reflexivity.
  - intros [-> | ->]; [reflexivity |]. destruct cj; reflexivity.
Qed.

End LoadFacts.

(** ** The knowledge graph under [add_entity] and [add_relationship] *)

Module GraphFacts.
Import Dict Graph DictFacts.

(** The entity dictionary is closed under the stored relationships. *)
Definition entities_closed (kg : KnowledgeGraph) : Prop :=
  forall r, In r (relationships kg) ->
    mem (source r) (entities kg) = true /\ mem (target r) (entities kg) = true.

(** The node set of the digraph holds every end point and every entity. *)
Definition nodes_closed (kg : KnowledgeGraph) : Prop :=
  (forall r, In r (relationships kg) ->
     has_node (graph kg) (source r) = true /\
     has_node (graph kg) (target r) = true)
  /\ (forall n, mem n (entities kg) = true -> has_node (graph kg) n = true).

(** Nodes and adjacency dictionaries have the same keys. *)
Definition aligned (G : DiGraph) : Prop :=
  forall n, mem n (_succ G) = mem n (_node G).

Lemma touch_node_aligned G n : aligned G -> aligned (touch_node G n).
Proof.
  intros HA k. unfold touch_node. destruct (mem n (_succ G)) eqn:E.
  - apply HA.
  - simpl. rewrite !mem_set. now rewrite HA.
Qed.

Lemma touch_node_has G n : aligned G -> has_node (touch_node G n) n = true.
Proof.
  intros HA. unfold touch_node, has_node. destruct (mem n (_succ G)) eqn:E.
  - now rewrite <- HA.
  - simpl. rewrite mem_set, str_eqb_refl. reflexivity.
Qed.

Lemma touch_node_keeps G n k :
  has_node G k = true -> has_node (touch_node G n) k = true.
Proof.
  unfold touch_node, has_node. intros H. destruct (mem n (_succ G)); simpl.
  - assumption.
  - rewrite mem_set, H. apply orb_true_r.
Qed.

Lemma add_node_aligned G n d : aligned G -> aligned (add_node G n d).
Proof.
  intros HA k. unfold add_node. simpl. rewrite mem_set.
  pose proof (touch_node_aligned G n HA k) as H1.
  pose proof (touch_node_has G n HA) as H2. unfold has_node in H2.
  destruct (str_eqb k n) eqn:E.
  - apply str_eqb_eq in E. subst k. simpl. now rewrite H1.
  - simpl. exact H1.
Qed.

Lemma add_node_has G n d : has_node (add_node G n d) n = true.
Proof.
  unfold add_node, has_node. simpl. rewrite mem_set, str_eqb_refl. reflexivity.
Qed.

Lemma add_node_keeps G n d k :
  has_node G k = true -> has_node (add_node G n d) k = true.
Proof.
  intros H. unfold add_node, has_node. simpl. rewrite mem_set.
  apply (touch_node_keeps G n) in H. unfold has_node in H. rewrite H.
  apply orb_true_r.
Qed.

Lemma add_edge_aligned G a b d : aligned G -> aligned (add_edge G a b d).
Proof.
  intros HA k. unfold add_edge. simpl. rewrite mem_set.
  assert (HA2 : aligned (touch_node (touch_node G a) b))
    by now apply touch_node_aligned, touch_node_aligned.
  assert (Ha : has_node (touch_node (touch_node G a) b) a = true)
    by now apply touch_node_keeps, touch_node_has.
  destruct (str_eqb k a) eqn:E.
  - apply str_eqb_eq in E. subst k. simpl. symmetry. exact Ha.
  - simpl. apply HA2.
Qed.

Lemma add_edge_has G a b d :
  aligned G ->
  has_node (add_edge G a b d) a = true /\ has_node (add_edge G a b d) b = true.
Proof.
  intros HA. unfold add_edge, has_node. simpl. split.
  - apply (touch_node_keeps _ b), touch_node_has, HA.
  - apply touch_node_has, touch_node_aligned, HA.
Qed.

Lemma add_edge_keeps G a b d k :
  has_node G k = true -> has_node (add_edge G a b d) k = true.
Proof.
  intros H. unfold add_edge, has_node. simpl.
  now apply (touch_node_keeps _ b), (touch_node_keeps _ a).
Qed.

Lemma apply_op_invariant kg o :
  aligned (graph kg) /\ nodes_closed kg ->
  aligned (graph (apply_op kg o)) /\ nodes_closed (apply_op kg o).
Proof.
  intros [HA [HR HE]].
  destruct o as [e | r];
    unfold nodes_closed, apply_op, add_entity, add_relationship;
    cbn [graph entities relationships].
  - split; [now apply add_node_aligned |]. split.
    + intros r Hr. destruct (HR r Hr). split; now apply add_node_keeps.
    + intros n. rewrite mem_set. destruct (str_eqb n (name e)) eqn:E.
      * apply str_eqb_eq in E. subst n. intros _. apply add_node_has.
      * simpl. intros H. apply add_node_keeps. now apply HE.
  - split; [now apply add_edge_aligned |]. split.
    + intros r' Hr. apply in_app_or in Hr. destruct Hr as [Hr | [<- | []]].
      * destruct (HR r' Hr). split; now apply add_edge_keeps.
      * now apply add_edge_has.
    + intros n H. apply add_edge_keeps. now apply HE.
Qed.

Lemma run_invariant_from ops kg :
  aligned (graph kg) /\ nodes_closed kg ->
  aligned (graph (fold_left apply_op ops kg))
  /\ nodes_closed (fold_left apply_op ops kg).
Proof.
  revert kg. induction ops as [| o ops IH]; intros kg H; simpl.
  - exact H.
  - apply IH, apply_op_invariant, H.
Qed.

Definition dangling : Relationship :=
  mkRel (u "A") (u "B") RELATED_TO [] 1%Q [].

(** C5, as stated, fails: a relationship added to the empty graph is stored
    although neither end point is an entity. *)
Lemma add_relationship_breaks_closure :
  ~ (forall ops, entities_closed (run ops)).
Proof.
  intros H. specialize (H [AddRelationship dangling] dangling).
  simpl in H. destruct H as [H _]; [now left | discriminate H].
Qed.

(** C5, amended: after every sequence of [add_entity] and
    [add_relationship], every end point of a stored relationship and every
    entity name is a node of the underlying digraph ([add_edge] creates the
    nodes it needs); the entity dictionary itself is not checked. *)
Theorem run_nodes_closed (ops : list op) : nodes_closed (run ops).
Proof.
  apply run_invariant_from. split.
  - intros n. reflexivity.
  - split; [intros r [] | intros n H; discriminate H].
Qed.

(** The claim about a name that is unknown: both lists present and empty. *)
Definition both_lists_empty (r : result (dict (list Neighbor))) : Prop :=
  exists d, r = Ok d /\ get (u "in") d = Some [] /\ get (u "out") d = Some [].

(** C9, as stated, fails: the result for an unknown name is the empty
    dictionary, which has no incoming and no outgoing list. *)
Lemma get_neighbors_unknown_has_no_lists :
  ~ (forall kg n, has_node (graph kg) n = false ->
       both_lists_empty (get_neighbors kg n)).
Proof.
  intros H. destruct (H empty_kg (u "X") eq_refl) as (d & Hd & Hin & _).
  simpl in Hd. injection Hd as <-. discriminate Hin.
Qed.

(** C9, amended: for a name that is not a node, [get_neighbors] raises
    nothing and returns the empty dictionary, so that a lookup of either
    direction finds no entry (and [.get(key, [])] yields the empty list). *)
Theorem get_neighbors_unknown (kg : KnowledgeGraph) (n : str)
    (H : has_node (graph kg) n = false) :
  get_neighbors kg n = Ok []
  /\ forall key, get key (@nil (str * list Neighbor)) = None.
Proof.
  unfold get_neighbors. rewrite H. split; reflexivity.
Qed.

Lemma get_neighbors_unknown_witness :
  has_node (graph (run [AddRelationship dangling])) (u "C") = false
  /\ get_neighbors (run [AddRelationship dangling]) (u "C") = Ok [].
Proof.
  split; [reflexivity |].
  apply (get_neighbors_unknown (run [AddRelationship dangling]) (u "C")).
  reflexivity.
Defined.

End GraphFacts.

(** ** The effective search query and the query pipeline *)

Module QueryFacts.
Import Dict Chunker Store Graph Hybrid.

Definition truncated (m : Message) : str := slice_to 100 (content_of m).

(** The turns, each cut to 100 characters, joined by spaces and followed by
    the question; the question alone when there is no turn. *)
Definition render (turns : list Message) (question : str) : str :=
  match turns with
  | [] => question
  | _ => join (u " ") (map truncated turns) ++ u " " ++ question
  end.

Definition user_turns (history : option (list Message)) : list Message :=
  match history with None => [] | Some h => filter is_user h end.

Definition window4 (history : option (list Message)) : list Message :=
  match history with None => [] | Some h => slice_from (-4) h end.

Definition last_n {A} (k : nat) (l : list A) : list A := skipn (length l - k) l.

(** The query as C8 describes it: built from at most the last two user
    turns of the history. *)
Definition from_last_two (question : str) (history : option (list Message))
    (q : str) : Prop :=
  exists k, (k <= 2)%nat /\ q = render (last_n k (user_turns history)) question.

Fixpoint no_adjacent_users (h : list Message) : bool :=
  match h with
  | m1 :: (m2 :: _) as t => negb (is_user m1 && is_user m2) && no_adjacent_users t
  | _ => true
  end.

Definition user_says (s : string) : Message := mkMsg (Some (u "user")) (Some (u s)).

Definition four_user_turns : list Message :=
  [user_says "a"; user_says "b"; user_says "c"; user_says "d"].

Lemma four_user_turns_query :
  _build_search_query (u "q") (Some four_user_turns) = u "a b c d q".
Proof. reflexivity. Qed.

(** C8, as stated, fails: with four user messages in a row the query holds
    four turns. *)
Lemma search_query_takes_four_turns :
  ~ (forall question history,
       from_last_two question history (_build_search_query question history)).
Proof.
  intros H. destruct (H (u "q") (Some four_user_turns)) as (k & Hk & Heq).
  rewrite four_user_turns_query in Heq.
  destruct k as [| [| [| k]]]; [vm_compute in Heq; discriminate Heq .. | lia].
Qed.

Lemma last_n_app {A} (a b : list A) : last_n (length b) (a ++ b) = b.
Proof.
  unfold last_n. rewrite length_app.
  replace (length a + length b - length b)%nat with (length a + 0)%nat by lia.
  rewrite skipn_app, Nat.add_0_r, skipn_all.
  replace (length a - length a)%nat with 0%nat by lia. reflexivity.
Qed.

Lemma filter_skipn_last_n {A} (f : A -> bool) (n : nat) (l : list A) :
  filter f (skipn n l)
  = last_n (length (filter f (skipn n l))) (filter f l).
Proof.
  rewrite <- (firstn_skipn n l) at 3. rewrite filter_app.
  symmetry. apply last_n_app.
Qed.

Lemma slice_from_m4 {A} (l : list A) : slice_from (-4) l = skipn (length l - 4) l.
Proof. reflexivity. Qed.

Lemma no_adjacent_users_skipn (n : nat) (h : list Message) :
  no_adjacent_users h = true -> no_adjacent_users (skipn n h) = true.
Proof.
  revert h. induction n as [| n IH]; intros h H; [exact H |].
  destruct h as [| m1 t]; [reflexivity |]. simpl. apply IH.
  destruct t as [| m2 t']; [reflexivity |].
  simpl in H. apply andb_prop in H. tauto.
Qed.

Lemma few_users_in_short_list (l : list Message) :
  (length l <= 4)%nat -> no_adjacent_users l = true ->
  (length (filter is_user l) <= 2)%nat.
Proof.
  destruct l as [| a [| b [| c [| d [| e l]]]]]; simpl; intros HL H;
    try lia;
    destruct (is_user a); try destruct (is_user b); try destruct (is_user c);
    try destruct (is_user d); simpl in *; try lia; discriminate H.
Qed.

(** C8, amended: the query is built from the user turns found among the
    last four messages of the history, in chronological order, each cut to
    its first 100 characters, joined by single spaces and followed by a space
    and the question. These are the last [k] user turns of the history, with
    [k] at most 4, and at most 2 when no two user messages are adjacent (the
    turns alternate); with no history, an empty one, or no user message in
    the window, the query is the question unchanged. *)
Theorem search_query_from_window (question : str) (history : option (list Message)) :
  let k := length (filter is_user (window4 history)) in
  _build_search_query question history
    = render (last_n k (user_turns history)) question
  /\ (k <= 4)%nat
  /\ (forall h, history = Some h -> no_adjacent_users h = true -> (k <= 2)%nat)
  /\ (history = None \/ history = Some [] \/ k = 0%nat ->
      _build_search_query question history = question).
Proof.
  assert (Hw : forall h : list Message,
             (length (skipn (length h - 4) h) <= 4)%nat)
    by (intros h; rewrite length_skipn; lia).
  destruct history as [h |]; cbn zeta.
  - unfold window4, user_turns. rewrite slice_from_m4.
    rewrite <- filter_skipn_last_n.
    assert (Hq : _build_search_query question (Some h)
                 = render (filter is_user (skipn (length h - 4) h)) question).
    { destruct h as [| m h']; [reflexivity |].
      unfold _build_search_query. rewrite slice_from_m4. unfold render.
      destruct (filter is_user (skipn (length (m :: h') - 4) (m :: h')));
        reflexivity. }
    repeat split.
    + exact Hq.
    + etransitivity; [apply filter_length_le | apply Hw].
    + intros h0 [= <-] Hna. apply few_users_in_short_list.
      * apply Hw.
      * now apply no_adjacent_users_skipn.
    + intros [H | [H | H]]; [discriminate H | injection H as -> |].
      * reflexivity.
      * rewrite Hq. apply length_zero_iff_nil in H. now rewrite H.
  - repeat split; simpl; try lia; discriminate.
Qed.

End QueryFacts.

(** ** A failing generation backend *)

Module PipelineFacts.
Import Dict Chunker Store Graph Hybrid.

(** The messages [query] prints on its way to the answer, in order; the one
    about the history only when there is a history. *)
Definition progress_markup (question : str) (history : option (list Message))
    : list str :=
  question_markup question
  :: match history with
     | None | Some [] => []
     | Some h => [history_markup h]
     end
  ++ [searching_markup; graph_markup].

Definition printed (console_print : str -> result unit) (question : str)
    (history : option (list Message)) : Prop :=
  Forall (fun markup => console_print markup = Ok tt)
         (progress_markup question history).

(** [query] once its messages are printed: the search, the graph context,
    then the answer. *)
Lemma query_printed
    (_embed_texts : list str -> result (list vec)) (norm : vec -> Q)
    (argsort : list Q -> list nat) (console_print : str -> result unit)
    (vector_store : VectorStore) (g : option KnowledgeGraph) (llm : LLM)
    (question : str) (top_k : Z) (history : option (list Message)) :
  printed console_print question history ->
  query _embed_texts norm argsort console_print vector_store g llm question
        top_k history
  = bind (search _embed_texts norm argsort vector_store
                 (_build_search_query question history) top_k)
         (fun vector_results =>
    bind (_get_graph_context g question) (fun graph_context =>
    Ok (mkResult
          (_generate_answer llm question
             (_build_context vector_results graph_context) vector_results
             history)
          (_extract_citations vector_results)
          (_get_matched_entities g question)))).
Proof.
  unfold printed, progress_markup, query. intros H.
  inversion H as [| ? ? Hq H']; subst. rewrite Hq. cbn [bind].
  destruct history as [[| m h] |]; cbn [app] in H'.
  - inversion H' as [| ? ? Hs H'']; subst. inversion H'' as [| ? ? Hg _]; subst.
    rewrite Hs. cbn [bind].
    destruct (search _ _ _ _ _ _); cbn [bind]; [| reflexivity].
    rewrite Hg. reflexivity.
  - inversion H' as [| ? ? Hh H'']; subst.
    inversion H'' as [| ? ? Hs H3]; subst. inversion H3 as [| ? ? Hg _]; subst.
    rewrite Hh. cbn [bind]. rewrite Hs. cbn [bind].
    destruct (search _ _ _ _ _ _); cbn [bind]; [| reflexivity].
    rewrite Hg. reflexivity.
  - inversion H' as [| ? ? Hs H'']; subst. inversion H'' as [| ? ? Hg _]; subst.
    rewrite Hs. cbn [bind].
    destruct (search _ _ _ _ _ _); cbn [bind]; [| reflexivity].
    rewrite Hg. reflexivity.
Qed.

(** C10: when [query] reaches the call of the generation backend (its
    progress messages are printed, the search and the graph lookup return)
    and that call raises, [query] raises nothing: it returns a result whose
    answer is the error message built from the exception, and whose
    citations and graph entities are the ones computed from the retrieval
    results and the question, as in a run whose backend answers. *)
Theorem query_survives_llm_failure
    (_embed_texts : list str -> result (list vec)) (norm : vec -> Q)
    (argsort : list Q -> list nat) (console_print : str -> result unit)
    (vector_store : VectorStore) (g : option KnowledgeGraph) (llm : LLM)
    (question : str) (top_k : Z) (history : option (list Message))
    (vector_results : list (TextChunk * Q)) (graph_context : str) (e : exn)
    (Hconsole : printed console_print question history)
    (Hsearch : search _embed_texts norm argsort vector_store
                 (_build_search_query question history) top_k
               = Ok vector_results)
    (Hgraph : _get_graph_context g question = Ok graph_context)
    (Hllm : call_llm llm
              (prompt_of (history_text_of history)
                         (_build_context vector_results graph_context) question)
            = Raise e) :
  query _embed_texts norm argsort console_print vector_store g llm question
        top_k history
  = Ok (mkResult (error_answer e)
                 (_extract_citations vector_results)
                 (_get_matched_entities g question)).
Proof.
  rewrite query_printed by exact Hconsole.
  rewrite Hsearch. cbn [bind]. rewrite Hgraph. cbn [bind].
  unfold _generate_answer. rewrite Hllm. reflexivity.
Qed.

(** A store of two chunks, a small graph and a backend whose [complete]
    raises. *)
Definition demo_store : VectorStore :=
  mkStore [mkChunk (u "margin of safety") (u "ch1") 0;
           mkChunk (u "circle of competence") (u "ch2") 1]
          (Some [[1%Q; 0%Q]; [0%Q; 1%Q]]).

(** The backend embeds every text as [1, 0]; the norm is the sum of the
    entries. *)
Definition demo_embed (texts : list str) : result (list vec) :=
  Ok (map (fun _ => [1%Q; 0%Q]) texts).

Definition demo_norm (v : vec) : Q := fold_right Qplus 0%Q v.

Definition demo_graph : KnowledgeGraph :=
  run [AddEntity (mkEntity (u "能力圈") CONCEPT (u "desc") (u "ch") []);
       AddRelationship (mkRel (u "能力圈") (u "安全边际") RELATED_TO [] 1%Q [])].

Definition timeout_exn : exn := Exn (u "TimeoutError") (u "timed out").

Definition failing_llm : LLM := mkLLM (Some (fun _ => Raise timeout_exn)) None.

(** A console that prints every string it is given, as [rich] does with
    the messages of the examples, whose only tags are the matched ones
    [query] writes itself. *)
Definition plain_console (markup : str) : result unit := Ok tt.

Lemma query_survives_llm_failure_witness :
  exists vr,
    query demo_embed demo_norm insertion_argsort plain_console demo_store
          (Some demo_graph) failing_llm
          (u "能力圈?") 5 None
    = Ok (mkResult (u "生成回答时出错: timed out")
                   (_extract_citations vr)
                   (_get_matched_entities (Some demo_graph) (u "能力圈?")))
    /\ length vr = 2%nat.
Proof.
  eexists. split.
  - eapply (query_survives_llm_failure demo_embed demo_norm insertion_argsort
              plain_console demo_store (Some demo_graph) failing_llm
              (u "能力圈?") 5 None _ _ timeout_exn).
    + repeat constructor.
    + reflexivity.
    + reflexivity.
    + reflexivity.
  - reflexivity.
Defined.

(** The graph part of the prompt in that run: the entity and its outgoing
    relation. *)
Example demo_graph_context :
  _get_graph_context (Some demo_graph) (u "能力圈?")
  = Ok (u "- **能力圈**（概念）：desc
  → 相关 → 安全边际").
Proof. reflexivity. Qed.


End PipelineFacts.

(** ** The entity matcher *)

Module MatcherFacts.
Import Dict Graph Matcher DictFacts.

(** [needle] occurs in [hay]. *)
Definition occurs_in (needle hay : str) : Prop :=
  exists before after, hay = before ++ needle ++ after.

Lemma starts_with_prefix (p s : str) :
  starts_with p s = true <-> exists after, s = p ++ after.
Proof.
  revert s. induction p as [| a p IH]; intros s; simpl.
  - split; [intros _; now exists s | reflexivity].
  - destruct s as [| b s].
    + split; [discriminate | intros [after H]; discriminate H].
    + rewrite andb_true_iff, N.eqb_eq, IH. split.
      * intros [-> [after ->]]. now exists after.
      * intros [after H]. injection H as -> ->. split; [reflexivity |].
        now exists after.
Qed.

Lemma contains_occurs_in (needle hay : str) :
  contains needle hay = true <-> occurs_in needle hay.
Proof.
  induction hay as [| c hay IH].
  - simpl. rewrite orb_false_r, starts_with_prefix. split.
    + intros [after H]. now exists [], after.
    + intros (before & after & H). destruct before as [| b before].
      * now exists after.
      * discriminate H.
  - change (contains needle (c :: hay))
      with (starts_with needle (c :: hay) || contains needle hay).
    rewrite orb_true_iff, starts_with_prefix, IH. split.
    + intros [[after H] | (before & after & H)].
      * now exists [], after.
      * exists (c :: before), after. simpl. now rewrite H.
    + intros (before & after & H). destruct before as [| b before].
      * left. now exists after.
      * right. injection H as -> H. now exists before, after.
Qed.

Lemma find_first {A} (f : A -> bool) (l : list A) (x : A) :
  find f l = Some x <->
  exists before after, l = before ++ x :: after /\ f x = true
                       /\ forall y, In y before -> f y = false.
Proof.
  induction l as [| a l IH]; simpl.
  - split; [discriminate |]. intros (before & after & H & _).
    destruct before; discriminate H.
  - destruct (f a) eqn:E.
    + split.
      * intros [= <-]. exists [], l. repeat split; [assumption | intros y []].
      * intros (before & after & H & Hx & Hb). destruct before as [| b before].
        -- injection H as -> _. reflexivity.
        -- injection H as <- _. rewrite (Hb a) in E by now left. discriminate E.
    + rewrite IH. split.
      * intros (before & after & -> & Hx & Hb). exists (a :: before), after.
        repeat split; [assumption |]. intros y [<- | Hy]; auto.
      * intros (before & after & H & Hx & Hb). destruct before as [| b before].
        -- injection H as -> _. congruence.
        -- injection H as _ ->. exists before, after.
           repeat split; [assumption |]. intros y Hy. apply Hb. now right.
Qed.

Lemma find_nothing {A} (f : A -> bool) (l : list A) :
  find f l = None <-> forall y, In y l -> f y = false.
Proof.
  induction l as [| a l IH]; simpl.
  - split; [intros _ y [] | reflexivity].
  - destruct (f a) eqn:E.
    + split; [discriminate |]. intros H. rewrite (H a) in E by now left.
      discriminate E.
    + rewrite IH. split.
      * intros H y [<- | Hy]; auto.
      * intros H y Hy. apply H. now right.
Qed.

Section Spec.

Variable lower : str -> str.

(** Case-insensitive containment, in one direction or the other. *)
Definition similar (candidate name : str) : Prop :=
  occurs_in (lower candidate) (lower name)
  \/ occurs_in (lower name) (lower candidate).

Lemma partial_match_similar (candidate name : str) :
  partial_match lower (lower candidate) name = true <-> similar candidate name.
Proof.
  unfold partial_match, similar.
  now rewrite orb_true_iff, !contains_occurs_in.
Qed.

Lemma partial_match_not_similar (candidate name : str) :
  partial_match lower (lower candidate) name = false <-> ~ similar candidate name.
Proof.
  rewrite <- partial_match_similar.
  destruct (partial_match lower (lower candidate) name); split; congruence.
Qed.

(** C7: the matcher returns the candidate itself when it is a known entity
    name; otherwise the first name, in the order of registration, that
    contains the candidate or is contained in it, letter case ignored; and
    nothing when no name is so. *)
Theorem fuzzy_match_entity_spec (kg : KnowledgeGraph) (candidate : str) :
  let names := keys (entities kg) in
  let answer := _fuzzy_match_entity lower kg candidate in
  (In candidate names -> answer = Some candidate)
  /\ (~ In candidate names ->
      (forall name,
          answer = Some name <->
          exists before after,
            names = before ++ name :: after /\ similar candidate name
            /\ forall other, In other before -> ~ similar candidate other)
      /\ (answer = None <->
          forall name, In name names -> ~ similar candidate name)).
Proof.
  cbn zeta. unfold _fuzzy_match_entity. split.
  - intros H. apply mem_keys in H. now rewrite H.
  - intros H. destruct (mem candidate (entities kg)) eqn:E.
    + apply mem_keys in E. contradiction.
    + split.
      * intros name. rewrite find_first. split.
        -- intros (before & after & Hk & Hm & Hb). exists before, after.
           repeat split; [assumption | now apply partial_match_similar |].
           intros other Ho. apply partial_match_not_similar. now apply Hb.
        -- intros (before & after & Hk & Hm & Hb). exists before, after.
           repeat split; [assumption | now apply partial_match_similar |].
           intros other Ho. apply partial_match_not_similar. now apply Hb.
      * rewrite find_nothing. split.
        -- intros Hn name Hin. apply partial_match_not_similar. now apply Hn.
        -- intros Hn name Hin. apply partial_match_not_similar. now apply Hn.
Qed.

End Spec.

(** The registry of the specification's scenario. *)
Definition two_entities : KnowledgeGraph :=
  run [AddEntity (mkEntity (u "安全边际") PRINCIPLE [] [] []);
       AddEntity (mkEntity (u "能力圈") CONCEPT [] [] [])].

Example fuzzy_match_scenario :
  _fuzzy_match_entity ascii_lower two_entities (u "能力") = Some (u "能力圈")
  /\ _fuzzy_match_entity ascii_lower two_entities (u "不存在") = None
  /\ _fuzzy_match_entity ascii_lower two_entities (u "能力圈") = Some (u "能力圈").
Proof. repeat split. Qed.

End MatcherFacts.

(** ** Ranking of the search results *)

Module SearchFacts.
Import Chunker Store.

Local Open Scope Q_scope.

Definition key (sims : list Q) (i : nat) : Q := nth i sims 0.

(** Ascending order of the scores, and the same with ties in index order. *)
Definition ascending (sims : list Q) (i j : nat) : Prop :=
  key sims i <= key sims j.

Definition ascending_stable (sims : list Q) (i j : nat) : Prop :=
  key sims i < key sims j \/ (key sims i == key sims j /\ (i < j)%nat).

(** What [np.argsort] promises: the indices of the array, in ascending order
    of the values; a stable sort moreover keeps equal values in index
    order. *)
Definition sorts (argsort : list Q -> list nat) : Prop :=
  forall sims,
    Permutation (argsort sims) (seq 0 (length sims))
    /\ StronglySorted (ascending sims) (argsort sims).

Definition sorts_stably (argsort : list Q -> list nat) : Prop :=
  forall sims,
    Permutation (argsort sims) (seq 0 (length sims))
    /\ StronglySorted (ascending_stable sims) (argsort sims).

Lemma Qltb_lt (a b : Q) : Qltb a b = true <-> a < b.
Proof.
  unfold Qltb. rewrite negb_true_iff. split.
  - intros H. apply Qnot_le_lt. intros Hle. apply Qle_bool_iff in Hle. congruence.
  - intros H. destruct (Qle_bool b a) eqn:E; [| reflexivity].
    apply Qle_bool_iff in E. exfalso. exact (Qlt_not_le _ _ H E).
Qed.

Lemma Qltb_ge (a b : Q) : Qltb a b = false <-> b <= a.
Proof.
  unfold Qltb. rewrite negb_false_iff. apply Qle_bool_iff.
Qed.

Lemma ascending_stable_le sims i j : ascending_stable sims i j -> ascending sims i j.
Proof.
  unfold ascending. intros [H | [H _]]; [now apply Qlt_le_weak |].
  rewrite H. apply Qle_refl.
Qed.

Lemma StronglySorted_weaken {A} (R R' : A -> A -> Prop) (l : list A) :
  (forall a b, R a b -> R' a b) -> StronglySorted R l -> StronglySorted R' l.
Proof.
  intros HR. induction 1 as [| a l Hs IH Hf]; constructor; [assumption |].
  eapply Forall_impl; [| exact Hf]. intros b. apply HR.
Qed.

Lemma sorts_stably_sorts argsort : sorts_stably argsort -> sorts argsort.
Proof.
  intros H sims. destruct (H sims) as [Hp Hs]. split; [assumption |].
  eapply StronglySorted_weaken; [| exact Hs]. apply ascending_stable_le.
Qed.

Lemma insert_index_perm sims i l : Permutation (insert_index sims i l) (i :: l).
Proof.
  induction l as [| j l IH]; simpl.
  - reflexivity.
  - destruct (Qltb (nth i sims 0) (nth j sims 0)).
    + reflexivity.
    + rewrite IH. apply perm_swap.
Qed.

Lemma insert_index_sorted sims i l :
  StronglySorted (ascending_stable sims) l ->
  Forall (fun j => (j < i)%nat) l ->
  StronglySorted (ascending_stable sims) (insert_index sims i l).
Proof.
  induction 1 as [| j l Hs IH Hf]; intros Hlt; simpl.
  - repeat constructor.
  - inversion Hlt as [| ? ? Hji Hlt']; subst.
    destruct (Qltb (nth i sims 0) (nth j sims 0)) eqn:E.
    + apply Qltb_lt in E. constructor; [now constructor |].
      constructor; [now left |].
      eapply Forall_impl; [| exact Hf]. intros k Hjk. left.
      eapply Qlt_le_trans; [exact E |]. now apply ascending_stable_le.
    + apply Qltb_ge in E. constructor; [now apply IH |].
      eapply Permutation_Forall; [symmetry; apply insert_index_perm |].
      constructor; [| assumption].
      apply Qle_lteq in E. destruct E as [E | E]; [now left | right].
      split; assumption.
Qed.

Lemma insertion_fold sims len : forall start acc,
  StronglySorted (ascending_stable sims) acc ->
  Forall (fun j => (j < start)%nat) acc ->
  let out := fold_left (fun acc i => insert_index sims i acc) (seq start len) acc in
  Permutation out (acc ++ seq start len)
  /\ StronglySorted (ascending_stable sims) out.
Proof.
  induction len as [| len IH]; intros start acc Hs Hlt; simpl.
  - rewrite app_nil_r. split; [reflexivity | assumption].
  - destruct (IH (S start) (insert_index sims start acc)) as [Hp Hs'].
    + now apply insert_index_sorted.
    + eapply Permutation_Forall; [symmetry; apply insert_index_perm |].
      constructor; [lia |]. eapply Forall_impl; [| exact Hlt].
      intros j Hj. simpl in Hj. lia.
    + split; [| exact Hs'].
      rewrite Hp, insert_index_perm. simpl. apply Permutation_middle.
Qed.

Lemma insertion_argsort_stable : sorts_stably insertion_argsort.
Proof.
  intros sims. unfold insertion_argsort.
  destruct (insertion_fold sims (length sims) 0%nat []) as [Hp Hs];
    [constructor | constructor |]. split; assumption.
Qed.

Lemma StronglySorted_app_iff {A} (R : A -> A -> Prop) (l1 l2 : list A) :
  StronglySorted R (l1 ++ l2) <->
  StronglySorted R l1 /\ StronglySorted R l2
  /\ forall a b, In a l1 -> In b l2 -> R a b.
Proof.
  induction l1 as [| x l1 IH]; simpl.
  - split.
    + intros H. repeat split; [constructor | assumption | intros a b []].
    + tauto.
  - split.
    + intros H. inversion H as [| ? ? Hs Hf]; subst.
      apply IH in Hs. destruct Hs as (H1 & H2 & H12).
      rewrite Forall_app in Hf. destruct Hf as [Hf1 Hf2].
      repeat split; [now constructor | assumption |].
      intros a b [<- | Ha] Hb; [| now apply H12].
      rewrite Forall_forall in Hf2. now apply Hf2.
    + intros (H1 & H2 & H12). inversion H1 as [| ? ? Hs Hf]; subst.
      constructor.
      * apply IH. repeat split; [assumption .. |]. intros a b Ha Hb.
        apply H12; [now right | assumption].
      * rewrite Forall_app. split; [assumption |].
        rewrite Forall_forall. intros b Hb. apply H12; [now left | assumption].
Qed.

Lemma StronglySorted_rev {A} (R : A -> A -> Prop) (l : list A) :
  StronglySorted R l -> StronglySorted (fun a b => R b a) (rev l).
Proof.
  induction 1 as [| x l Hs IH Hf]; simpl; [constructor |].
  apply StronglySorted_app_iff. repeat split; [assumption | repeat constructor |].
  intros a b Ha [<- | []]. apply in_rev in Ha.
  rewrite Forall_forall in Hf. now apply Hf.
Qed.

Lemma StronglySorted_firstn {A} (R : A -> A -> Prop) (n : nat) (l : list A) :
  StronglySorted R l -> StronglySorted R (firstn n l).
Proof.
  intros H. rewrite <- (firstn_skipn n l) in H.
  now apply StronglySorted_app_iff in H.
Qed.

Lemma slice_to_firstn {A} (k : Z) (l : list A) :
  exists n, slice_to k l = firstn n l /\ (0 <= k -> n = Z.to_nat k)%Z.
Proof.
  unfold slice_to. destruct (0 <=? k)%Z eqn:E.
  - exists (Z.to_nat k). split; reflexivity.
  - exists (length l - Z.to_nat (- k))%nat. split; [reflexivity |].
    apply Z.leb_gt in E. lia.
Qed.

Lemma mapM_Forall2 {A B} (f : A -> result B) (l : list A) (bs : list B) :
  mapM f l = Ok bs <-> Forall2 (fun a b => f a = Ok b) l bs.
Proof.
  revert bs. induction l as [| a l IH]; intros bs; simpl.
  - split.
    + intros [= <-]. constructor.
    + intros H. inversion H. reflexivity.
  - split.
    + destruct (f a) as [b | e] eqn:Ef; simpl; [| discriminate].
      destruct (mapM f l) as [bs' | e] eqn:Em; simpl; [| discriminate].
      intros [= <-]. constructor; [assumption | now apply IH].
    + intros H. inversion H as [| ? b ? bs' Hf Hr]; subst.
      rewrite Hf. simpl. apply IH in Hr. rewrite Hr. reflexivity.
Qed.

Lemma Forall2_sorted {A B} (P : A -> B -> Prop) (R : A -> A -> Prop)
    (R' : B -> B -> Prop) (l : list A) (bs : list B) :
  (forall a a' b b', P a b -> P a' b' -> R a a' -> R' b b') ->
  Forall2 P l bs -> StronglySorted R l -> StronglySorted R' bs.
Proof.
  intros HR. induction 1 as [| a b l bs Hab Hf IH]; intros Hs.
  - constructor.
  - inversion Hs as [| ? ? Hs' Hall]; subst. constructor; [now apply IH |].
    clear IH Hs Hs'. induction Hf as [| a' b' l bs Hab' Hf IH].
    + constructor.
    + inversion Hall; subst. constructor; [| now apply IH].
      eapply HR; eassumption.
Qed.

Section Ranking.

Variable _embed_texts : list str -> result (list vec).
Variable norm : vec -> Q.
Variable argsort : list Q -> list nat.

(** What a successful [search] returns: nothing, or the chunks at the top
    indices of some score vector, each with its score. *)
Lemma search_results (vs : VectorStore) (query : str) (top_k : Z)
    (results : list (TextChunk * Q)) :
  search _embed_texts norm argsort vs query top_k = Ok results ->
  results = []
  \/ exists sims,
       Forall2 (fun idx r =>
                  exists c, nth_error (chunks vs) idx = Some c
                            /\ r = (c, key sims idx))
               (top_indices_of argsort sims top_k) results.
Proof.
  unfold search. destruct (embeddings vs) as [m |]; [| intros [= <-]; now left].
  destruct (len (chunks vs) =? 0)%Z; [intros [= <-]; now left |].
  destruct (_embed_texts [query]) as [[| qe rest] | e]; simpl; try discriminate.
  destruct (similarities_of norm m qe) as [sims | e]; simpl; [| discriminate].
  intros H. right. exists sims. apply mapM_Forall2 in H.
  eapply Forall2_impl; [| exact H]. intros idx r Hr. simpl in Hr.
  destruct (nth_error (chunks vs) idx) as [c |]; [| discriminate].
  injection Hr as <-. now exists c.
Qed.

Lemma top_indices_sorted (R : nat -> nat -> Prop) (sims : list Q) (top_k : Z) :
  StronglySorted R (argsort sims) ->
  StronglySorted (fun a b => R b a) (top_indices_of argsort sims top_k).
Proof.
  intros H. unfold top_indices_of.
  destruct (slice_to_firstn top_k (rev (argsort sims))) as (n & -> & _).
  now apply StronglySorted_firstn, StronglySorted_rev.
Qed.

Lemma top_indices_length (sims : list Q) (top_k : Z) :
  (0 <= top_k)%Z -> (len (top_indices_of argsort sims top_k) <= top_k)%Z.
Proof.
  intros Hk. unfold top_indices_of, len.
  destruct (slice_to_firstn top_k (rev (argsort sims))) as (n & -> & Hn).
  rewrite (Hn Hk), length_firstn. lia.
Qed.

End Ranking.

Lemma mapM_total {A B} (f : A -> result B) (l : list A) :
  (forall a, In a l -> exists b, f a = Ok b) -> exists bs, mapM f l = Ok bs.
Proof.
  induction l as [| a l IH]; intros H; simpl.
  - now exists [].
  - destruct (H a) as [b Hb]; [now left |].
    destruct IH as [bs Hbs]; [intros a' Ha'; apply H; now right |].
    exists (b :: bs). now rewrite Hb, Hbs.
Qed.

Lemma In_slice_to {A} (k : Z) (l : list A) (a : A) : In a (slice_to k l) -> In a l.
Proof.
  destruct (slice_to_firstn k l) as (n & -> & _). intros H.
  rewrite <- (firstn_skipn n l). apply in_or_app. now left.
Qed.

Lemma np_dot_ok (m : list vec) (v : vec) :
  Forall (fun row => length row = length v) m ->
  exists sims, np_dot m v = Ok sims /\ length sims = length m.
Proof.
  intros H. unfold np_dot.
  replace (forallb (fun row => Nat.eqb (length row) (length v)) m) with true.
  - eexists. split; [reflexivity | apply length_map].
  - symmetry. apply forallb_forall. rewrite Forall_forall in H.
    intros row Hrow. apply Nat.eqb_eq. now apply H.
Qed.

(** The order of the results: by score, the greater first. *)
Definition by_score_desc (a b : TextChunk * Q) : Prop := snd b <= snd a.

(** The same, with equal scores in the order of decreasing chunk index. *)
Definition by_score_then_index_desc (a b : TextChunk * Q) : Prop :=
  snd b < snd a \/ (snd b == snd a /\ (index (fst b) < index (fst a))%Z).

(** Equal scores come out with the lowest chunk index first. *)
Definition lowest_index_first (results : list (TextChunk * Q)) : Prop :=
  forall i j a b,
    (i < j)%nat -> nth_error results i = Some a -> nth_error results j = Some b ->
    snd a == snd b -> (index (fst a) < index (fst b))%Z.

Lemma firstn_rev_order {A} (l : list A) (n i j : nat) (a b : A) :
  (i < j)%nat ->
  nth_error (firstn n (rev l)) i = Some a ->
  nth_error (firstn n (rev l)) j = Some b ->
  exists p q, (q < p)%nat /\ nth_error l p = Some a /\ nth_error l q = Some b.
Proof.
  intros Hij Ha Hb. rewrite nth_error_firstn in Ha, Hb.
  destruct (Nat.ltb i n); [| discriminate].
  destruct (Nat.ltb j n); [| discriminate].
  rewrite nth_error_rev in Ha, Hb.
  destruct (Nat.ltb i (length l)) eqn:Ei; [| discriminate].
  destruct (Nat.ltb j (length l)) eqn:Ej; [| discriminate].
  apply Nat.ltb_lt in Ei, Ej.
  exists (length l - S i)%nat, (length l - S j)%nat.
  split; [lia | split; assumption].
Qed.

Section Claims.

Variable _embed_texts : list str -> result (list vec).
Variable norm : vec -> Q.
Variable argsort : list Q -> list nat.

(** C1: for every store, every query and every [top_k >= 0], what [search]
    returns is a list of at most [top_k] pairs, in non-increasing order of
    score; this holds for every [argsort] that returns the indices in
    ascending order of score. And [search] does return (it raises nothing)
    on an index with one matrix row per chunk, when the backend returns an
    embedding of the dimension of the rows. *)
Theorem search_at_most_top_k_sorted
    (Hsort : sorts argsort)
    (vs : VectorStore) (query : str) (top_k : Z)
    (Hk : (0 <= top_k)%Z) :
  (forall results,
     search _embed_texts norm argsort vs query top_k = Ok results ->
     (len results <= top_k)%Z /\ StronglySorted by_score_desc results)
  /\ (forall m query_embedding others,
        embeddings vs = Some m ->
        length m = length (chunks vs) ->
        _embed_texts [query] = Ok (query_embedding :: others) ->
        Forall (fun row => length row = length query_embedding) m ->
        exists results,
          search _embed_texts norm argsort vs query top_k = Ok results).
Proof.
  split.
  - intros results Hres.
    destruct (search_results _ _ _ _ _ _ _ Hres) as [-> | [sims HF]].
    + split; [unfold len; simpl; lia | constructor].
    + split.
      * unfold len. rewrite <- (Forall2_length HF).
        now apply top_indices_length.
      * eapply Forall2_sorted;
          [| exact HF
           | apply (top_indices_sorted argsort (ascending sims)), Hsort].
        intros a a' b b' (c & _ & ->) (c' & _ & ->) H. exact H.
  - intros m query_embedding others Hm Hrows Hq Hdim.
    unfold search. rewrite Hm.
    destruct (len (chunks vs) =? 0)%Z; [eauto |].
    rewrite Hq. cbn [bind]. unfold similarities_of.
    destruct (np_dot_ok (map (normalize norm) m)
                        (normalize norm query_embedding)) as (sims & Hs & Hl).
    + rewrite Forall_map. eapply Forall_impl; [| exact Hdim].
      intros row Hrow. unfold normalize. rewrite !length_map. exact Hrow.
    + rewrite Hs. cbn [bind]. apply mapM_total. intros idx Hidx.
      apply In_slice_to, in_rev in Hidx.
      destruct (Hsort sims) as [Hp _].
      apply (Permutation_in _ Hp), in_seq in Hidx.
      rewrite length_map in Hl.
      destruct (nth_error (chunks vs) idx) as [c |] eqn:En; [eauto |].
      apply nth_error_None in En. lia.
Qed.

(** C4, amended: [search] breaks no tie itself. On a built index, what it
    returns is the chunks at the positions
    [np.argsort(similarities)[::-1][:top_k]], in that order, each with its
    score; when chunks carry their position as index, these positions are
    the indices of the returned chunks. So of two returned chunks the one
    that comes first is the one [argsort] placed later: the order of
    equal-scoring chunks is the one [argsort] left them in, reversed. This
    holds for every [argsort]. *)
Theorem search_ranking_is_reversed_argsort
    (vs : VectorStore) (query : str) (top_k : Z) (m : list vec)
    (results : list (TextChunk * Q))
    (Hm : embeddings vs = Some m)
    (Hne : chunks vs <> [])
    (Hres : search _embed_texts norm argsort vs query top_k = Ok results) :
  exists query_embedding others similarities,
    _embed_texts [query] = Ok (query_embedding :: others)
    /\ similarities_of norm m query_embedding = Ok similarities
    /\ let ranking := slice_to top_k (rev (argsort similarities)) in
       Forall2 (fun position r =>
                  nth_error (chunks vs) position = Some (fst r)
                  /\ snd r = key similarities position)
               ranking results
       /\ ((forall i c, nth_error (chunks vs) i = Some c ->
                        index c = Z.of_nat i) ->
           map (fun r => index (fst r)) results = map Z.of_nat ranking)
       /\ (forall i j a b,
             (i < j)%nat ->
             nth_error ranking i = Some a -> nth_error ranking j = Some b ->
             exists p q,
               (q < p)%nat
               /\ nth_error (argsort similarities) p = Some a
               /\ nth_error (argsort similarities) q = Some b).
Proof.
  unfold search in Hres. rewrite Hm in Hres.
  destruct (len (chunks vs) =? 0)%Z eqn:E.
  { apply Z.eqb_eq in E. unfold len in E.
    destruct (chunks vs); [contradiction | simpl in E; lia]. }
  destruct (_embed_texts [query]) as [[| qe rest] | e] eqn:Eq; simpl in Hres;
    try discriminate.
  destruct (similarities_of norm m qe) as [sims | e] eqn:Es; simpl in Hres;
    [| discriminate].
  exists qe, rest, sims. split; [reflexivity |]. split; [exact Es |].
  cbv zeta. apply mapM_Forall2 in Hres. unfold top_indices_of in Hres.
  assert (HF : Forall2 (fun position r =>
                          nth_error (chunks vs) position = Some (fst r)
                          /\ snd r = key sims position)
                       (slice_to top_k (rev (argsort sims))) results).
  { eapply Forall2_impl; [| exact Hres]. intros idx r Hr. simpl in Hr.
    destruct (nth_error (chunks vs) idx) as [c |]; [| discriminate].
    injection Hr as <-. split; reflexivity. }
  split; [exact HF |]. split.
  - intros Hpos. clear Hres. induction HF as [| idx r l rs [Hc _] _ IH].
    + reflexivity.
    + simpl. now rewrite IH, (Hpos _ _ Hc).
  - intros i j a b Hij Ha Hb.
    destruct (slice_to_firstn top_k (rev (argsort sims))) as (n & Hn & _).
    rewrite Hn in Ha, Hb. exact (firstn_rev_order _ _ _ _ _ _ Hij Ha Hb).
Qed.

(** With a sort that keeps equal scores in index order (the [stable] kind
    of [np.argsort]), and chunks that carry their position as index, the
    reversal puts the highest index first among equal scores. *)
Lemma ties_under_a_stable_sort
    (Hstable : sorts_stably argsort)
    (vs : VectorStore) (query : str) (top_k : Z)
    (results : list (TextChunk * Q))
    (Hpos : forall i c, nth_error (chunks vs) i = Some c -> index c = Z.of_nat i)
    (Hres : search _embed_texts norm argsort vs query top_k = Ok results) :
  StronglySorted by_score_then_index_desc results.
Proof.
  destruct (search_results _ _ _ _ _ _ _ Hres) as [-> | [sims HF]];
    [constructor |].
  eapply Forall2_sorted;
    [| exact HF
     | apply (top_indices_sorted argsort (ascending_stable sims)), Hstable].
  intros a a' b b' (c & Hc & ->) (c' & Hc' & ->) H.
  unfold by_score_then_index_desc. simpl.
  rewrite (Hpos _ _ Hc), (Hpos _ _ Hc').
  destruct H as [H | [H1 H2]]; [now left | right]. split; [assumption | lia].
Qed.

End Claims.

(** An index of two chunks with the same embedding: every query scores
    them equally. *)
Definition tied_store : VectorStore :=
  mkStore [mkChunk (u "first") (u "ch") 0; mkChunk (u "second") (u "ch") 1]
          (Some [[1; 0]; [1; 0]]).

(** A backend that embeds every text as [1, 0], and a norm that can be
    computed with: the sum of the entries, which is the Euclidean norm of a
    vector with a single non-zero entry. *)
Definition unit_embed (texts : list str) : result (list vec) :=
  Ok (map (fun _ => [1; 0]) texts).

Definition sum_norm (v : vec) : Q := fold_right Qplus 0 v.

Lemma tied_store_search :
  exists s,
    search unit_embed sum_norm insertion_argsort tied_store (u "q") 2
    = Ok [(mkChunk (u "second") (u "ch") 1, s);
          (mkChunk (u "first") (u "ch") 0, s)].
Proof. eexists. reflexivity. Qed.

(** C4, as stated, fails: of two chunks with equal scores the one with
    index 1 is returned before the one with index 0. *)
Lemma search_ties_not_lowest_first :
  ~ (forall embed norm argsort, sorts argsort ->
     forall vs query top_k results,
       search embed norm argsort vs query top_k = Ok results ->
       lowest_index_first results).
Proof.
  intros H. destruct tied_store_search as [s Hs].
  specialize (H unit_embed sum_norm insertion_argsort
                (sorts_stably_sorts _ insertion_argsort_stable)
                tied_store (u "q") 2%Z _ Hs 0%nat 1%nat _ _
                (Nat.lt_0_1) eq_refl eq_refl (Qeq_refl s)).
  simpl in H. lia.
Qed.

Lemma tied_store_positions (i : nat) (c : TextChunk) :
  nth_error (chunks tied_store) i = Some c -> index c = Z.of_nat i.
Proof.
  destruct i as [| [| i]]; simpl; intros H;
    try (injection H as <-; reflexivity).
  destruct i; discriminate H.
Qed.

Lemma search_at_most_top_k_sorted_witness :
  (forall results,
     search unit_embed sum_norm insertion_argsort tied_store (u "q") 1
     = Ok results ->
     (len results <= 1)%Z /\ StronglySorted by_score_desc results)
  /\ exists results,
       search unit_embed sum_norm insertion_argsort tied_store (u "q") 1
       = Ok results.
Proof.
  destruct (search_at_most_top_k_sorted unit_embed sum_norm insertion_argsort
              (sorts_stably_sorts _ insertion_argsort_stable)
              tied_store (u "q") 1%Z) as [Hbound Hreturns].
  - lia.
  - split; [exact Hbound |].
    apply (Hreturns [[1; 0]; [1; 0]] [1; 0] []).
    + reflexivity.
    + reflexivity.
    + reflexivity.
    + repeat constructor.
Defined.

Lemma search_ranking_is_reversed_argsort_witness :
  exists results query_embedding others similarities,
    search unit_embed sum_norm insertion_argsort tied_store (u "q") 2
    = Ok results
    /\ unit_embed [u "q"] = Ok (query_embedding :: others)
    /\ similarities_of sum_norm [[1; 0]; [1; 0]] query_embedding
       = Ok similarities
    /\ map (fun r => index (fst r)) results
       = map Z.of_nat (slice_to 2 (rev (insertion_argsort similarities))).
Proof.
  destruct tied_store_search as [s Hs].
  destruct (search_ranking_is_reversed_argsort unit_embed sum_norm
              insertion_argsort tied_store (u "q") 2%Z [[1; 0]; [1; 0]]
              [(mkChunk (u "second") (u "ch") 1, s);
               (mkChunk (u "first") (u "ch") 0, s)]
              eq_refl) as (qe & others & sims & He & Hsims & _ & Hidx & _).
  - discriminate.
  - exact Hs.
  - exists [(mkChunk (u "second") (u "ch") 1, s);
            (mkChunk (u "first") (u "ch") 0, s)], qe, others, sims.
    split; [exact Hs |].
    split; [exact He |]. split; [exact Hsims |].
    apply Hidx, tied_store_positions.
Defined.

(** Another sort that meets the contract of [np.argsort]: index [i] goes
    before the first index whose score is not smaller, so that the indices
    of equal scores come out in decreasing order. *)
Fixpoint insert_index_first (sims : list Q) (i : nat) (sorted : list nat)
    : list nat :=
  match sorted with
  | [] => [i]
  | j :: rest =>
      if Qle_bool (nth i sims 0) (nth j sims 0)
      then i :: sorted
      else j :: insert_index_first sims i rest
  end.

Definition reversing_argsort (sims : list Q) : list nat :=
  fold_left (fun acc i => insert_index_first sims i acc)
            (seq 0 (length sims)) [].

Lemma insert_index_first_perm sims i l :
  Permutation (insert_index_first sims i l) (i :: l).
Proof.
  induction l as [| j l IH]; simpl.
  - reflexivity.
  - destruct (Qle_bool (nth i sims 0) (nth j sims 0)).
    + reflexivity.
    + rewrite IH. apply perm_swap.
Qed.

Lemma insert_index_first_sorted sims i l :
  StronglySorted (ascending sims) l ->
  StronglySorted (ascending sims) (insert_index_first sims i l).
Proof.
  induction 1 as [| j l Hs IH Hf]; simpl.
  - repeat constructor.
  - destruct (Qle_bool (nth i sims 0) (nth j sims 0)) eqn:E.
    + apply Qle_bool_iff in E. constructor; [now constructor |].
      constructor; [exact E |].
      eapply Forall_impl; [| exact Hf]. intros k Hjk.
      unfold ascending, key in *. eapply Qle_trans; eassumption.
    + constructor; [exact IH |].
      eapply Permutation_Forall; [symmetry; apply insert_index_first_perm |].
      constructor; [| assumption].
      unfold ascending, key. destruct (Qlt_le_dec (nth j sims 0) (nth i sims 0))
        as [Hlt | Hle]; [now apply Qlt_le_weak |].
      apply Qle_bool_iff in Hle. congruence.
Qed.

Lemma reversing_argsort_sorts : sorts reversing_argsort.
Proof.
  intros sims. unfold reversing_argsort.
  assert (H : forall count start acc,
             StronglySorted (ascending sims) acc ->
             let out := fold_left (fun acc i => insert_index_first sims i acc)
                                  (seq start count) acc in
             Permutation out (acc ++ seq start count)
             /\ StronglySorted (ascending sims) out).
  { induction count as [| count IH]; intros start acc Hs; simpl.
    - rewrite app_nil_r. split; [reflexivity | assumption].
    - destruct (IH (S start) (insert_index_first sims start acc)) as [Hp Hs'];
        [now apply insert_index_first_sorted |].
      split; [| exact Hs'].
      rewrite Hp, insert_index_first_perm. simpl. apply Permutation_middle. }
  destruct (H (length sims) 0%nat []) as [Hp Hs]; [constructor |].
  split; assumption.
Qed.

(** The order of two equal-scoring chunks is the sort's, reversed: with the
    second sort the chunk of index 0 comes first. *)
Example search_ties_follow_the_sort :
  exists s,
    search unit_embed sum_norm reversing_argsort tied_store (u "q") 2
    = Ok [(mkChunk (u "first") (u "ch") 0, s);
          (mkChunk (u "second") (u "ch") 1, s)].
Proof. eexists. reflexivity. Qed.

(** The scenario of three units: the query [1, 0] ranks unit 0, then
    unit 2. *)
Definition three_units : VectorStore :=
  mkStore [mkChunk (u "zero") (u "ch") 0; mkChunk (u "one") (u "ch") 1;
           mkChunk (u "two") (u "ch") 2]
          (Some [[1; 0]; [0; 1]; [9 # 10; 1 # 10]]).

Example search_three_units :
  exists s0 s2,
    search unit_embed sum_norm insertion_argsort three_units (u "q") 2
    = Ok [(mkChunk (u "zero") (u "ch") 0, s0); (mkChunk (u "two") (u "ch") 2, s2)].
Proof. do 2 eexists. reflexivity. Qed.

Example search_without_index :
  search unit_embed sum_norm insertion_argsort (mkStore [] None) (u "q") 5 = Ok [].
Proof. reflexivity. Qed.

End SearchFacts.

(** ** The overlap policy of the chunker *)

Module ChunkerFacts.
Import Chunker.

(** The chapter label in force after the sections [sections], the first of
    which has position [i]. *)
Fixpoint chapter_after (sections : list str) (i : nat) (current_chapter : str)
    : str :=
  match sections with
  | [] => current_chapter
  | section :: rest =>
      chapter_after rest (S i) (if Nat.odd i then section else current_chapter)
  end.

Lemma len_app {A} (a b : list A) : len (a ++ b) = len a + len b.
Proof. unfold len. rewrite length_app. lia. Qed.

Lemma len_map {A B} (f : A -> B) (l : list A) : len (map f l) = len l.
Proof. unfold len. now rewrite length_map. Qed.

Lemma shift_shift (a b : Z) (c : TextChunk) : shift a (shift b c) = shift (b + a) c.
Proof. unfold shift. simpl. f_equal. lia. Qed.

(** Chunks placed after [acc]: the state [(cs, cur)] seen from a run that
    had already produced [acc]. *)
Definition after (acc : list TextChunk) (st : list TextChunk * str)
    : list TextChunk * str :=
  (acc ++ map (shift (len acc)) (fst st), snd st).

Lemma emit_after acc cs t ch :
  (acc ++ map (shift (len acc)) cs)
    ++ [mkChunk t ch (len (acc ++ map (shift (len acc)) cs))]
  = acc ++ map (shift (len acc)) (cs ++ [mkChunk t ch (len cs)]).
Proof.
  rewrite map_app, app_assoc. f_equal. simpl. unfold shift. simpl.
  rewrite len_app, len_map. do 2 f_equal. lia.
Qed.

Lemma add_paragraph_after size ov ch acc st para :
  add_paragraph size ov ch (after acc st) para
  = after acc (add_paragraph size ov ch st para).
Proof.
  destruct st as [cs cur]. unfold after, add_paragraph. cbn [fst snd].
  destruct (negb (truthy (strip para))); [reflexivity |].
  destruct (len cur + len (strip para) <? size); [reflexivity |].
  destruct (truthy cur);
    destruct ((0 <? ov) && (ov <? len cur)); cbn [fst snd];
    rewrite ?emit_after; reflexivity.
Qed.

Lemma fold_add_paragraph_after size ov ch acc paras : forall st,
  fold_left (add_paragraph size ov ch) paras (after acc st)
  = after acc (fold_left (add_paragraph size ov ch) paras st).
Proof.
  induction paras as [| p paras IH]; intros st; cbn [fold_left];
    [reflexivity |].
  now rewrite add_paragraph_after, IH.
Qed.

Lemma split_section_after size ov ch acc section :
  split_section size ov ch acc section
  = acc ++ map (shift (len acc)) (split_section size ov ch [] section).
Proof.
  unfold split_section.
  destruct (len (strip section) <? 50); [now rewrite app_nil_r |].
  replace (acc, @nil N) with (after acc ([], []))
    by (unfold after; simpl; now rewrite app_nil_r).
  rewrite fold_add_paragraph_after.
  destruct (fold_left (add_paragraph size ov ch) (split_nn (strip section))
                      ([], [])) as [cs cur].
  unfold after. cbn [fst snd].
  destruct (truthy (strip cur)); [apply emit_after | reflexivity].
Qed.

Lemma split_sections_after size ov sections : forall i ch acc,
  split_sections size ov sections i ch acc
  = acc ++ map (shift (len acc)) (split_sections size ov sections i ch []).
Proof.
  induction sections as [| s rest IH]; intros i ch acc; simpl.
  - now rewrite app_nil_r.
  - destruct (Nat.odd i); [apply IH |].
    rewrite IH. rewrite (IH _ _ (split_section size ov ch [] s)).
    rewrite (split_section_after size ov ch acc s).
    rewrite map_app, map_map, app_assoc. f_equal.
    apply map_ext. intros c. rewrite shift_shift. f_equal.
    rewrite len_app, len_map. lia.
Qed.

Lemma split_sections_app size ov before : forall rest i ch acc,
  split_sections size ov (before ++ rest) i ch acc
  = split_sections size ov rest (length before + i) (chapter_after before i ch)
      (split_sections size ov before i ch acc).
Proof.
  induction before as [| s before IH]; intros rest i ch acc; simpl.
  - reflexivity.
  - rewrite <- Nat.add_succ_r. destruct (Nat.odd i); apply IH.
Qed.

Lemma split_sections_parity size ov sections : forall i j ch acc,
  Nat.odd i = Nat.odd j ->
  split_sections size ov sections i ch acc
  = split_sections size ov sections j ch acc.
Proof.
  induction sections as [| s rest IH]; intros i j ch acc H; simpl.
  - reflexivity.
  - rewrite H. destruct (Nat.odd j) eqn:Ej; apply IH;
      rewrite !Nat.odd_succ, <- !Nat.negb_odd, H, Ej; reflexivity.
Qed.

(** C6: when a paragraph does not fit and the buffer is emitted, the new
    buffer is the last [chunk_overlap] characters of the emitted buffer
    followed by the paragraph (and the paragraph separator) if the overlap
    is positive and the buffer is longer than it, and the paragraph alone
    otherwise. Nothing is carried from one section to the next: the chunks of
    the sections after an even number of leading ones are those computed from
    these sections alone, from an empty buffer, only renumbered. *)
Theorem overlap_within_section_only
    (chunk_size chunk_overlap : Z) (current_chapter : str)
    (chunks : list TextChunk) (current_chunk para : str)
    (Hpara : strip para <> [])
    (Hfull : chunk_size <= len current_chunk + len (strip para))
    (Hbuf : current_chunk <> []) :
  (exists new_chunk,
      add_paragraph chunk_size chunk_overlap current_chapter
                    (chunks, current_chunk) para
      = (chunks ++ [mkChunk (strip current_chunk) current_chapter (len chunks)],
         new_chunk)
      /\ (0 < chunk_overlap < len current_chunk ->
          exists before tail,
            current_chunk = before ++ tail /\ len tail = chunk_overlap
            /\ new_chunk = tail ++ strip para ++ nn)
      /\ (~ 0 < chunk_overlap < len current_chunk ->
          new_chunk = strip para ++ nn))
  /\ (forall before rest,
         Nat.even (length before) = true ->
         let first := _split_text before chunk_size chunk_overlap in
         _split_text (before ++ rest) chunk_size chunk_overlap
         = first
           ++ map (shift (len first))
                  (split_sections chunk_size chunk_overlap rest 0
                     (chapter_after before 0 (u "未知章节")) [])).
Proof.
  split.
  - unfold add_paragraph.
    destruct (strip para) as [| c p] eqn:Ep; [contradiction |].
    cbn [truthy negb].
    destruct (len current_chunk + len (c :: p) <? chunk_size) eqn:E;
      [apply Z.ltb_lt in E; lia |].
    destruct current_chunk as [| b cur] eqn:Ec; [contradiction |].
    cbn [truthy]. rewrite <- Ec.
    destruct ((0 <? chunk_overlap) && (chunk_overlap <? len current_chunk))
      eqn:Eo.
    + eexists. split; [reflexivity |]. split.
      * intros _. apply andb_prop in Eo. destruct Eo as [E1 E2].
        apply Z.ltb_lt in E1, E2.
        exists (firstn (length current_chunk - Z.to_nat chunk_overlap) current_chunk),
               (skipn (length current_chunk - Z.to_nat chunk_overlap) current_chunk).
        split; [now rewrite firstn_skipn |]. split.
        -- unfold len in *. rewrite length_skipn. lia.
        -- unfold slice_from.
           replace (0 <=? - chunk_overlap) with false
             by (symmetry; apply Z.leb_gt; lia).
           now rewrite Z.opp_involutive.
      * intros Hn. apply andb_prop in Eo. destruct Eo as [E1 E2].
        apply Z.ltb_lt in E1, E2. lia.
    + eexists. split; [reflexivity |]. split.
      * intros [H1 H2]. apply Z.ltb_lt in H1, H2. rewrite H1, H2 in Eo.
        discriminate Eo.
      * reflexivity.
  - intros before rest Heven first. unfold _split_text.
    rewrite split_sections_app, split_sections_after.
    fold first. f_equal. f_equal. apply split_sections_parity.
    rewrite Nat.add_0_r, <- Nat.negb_even, Heven. reflexivity.
Qed.

Definition demo_buffer : str := u "AAAA BBBB" ++ nn.

Lemma overlap_within_section_only_witness :
  exists new_chunk,
    add_paragraph 12 4 (u "ch") ([], demo_buffer) (u " CCCC ")
    = ([] ++ [mkChunk (strip demo_buffer) (u "ch") (len (@nil TextChunk))],
       new_chunk)
    /\ (0 < 4 < len demo_buffer ->
        exists before tail,
          demo_buffer = before ++ tail /\ len tail = 4
          /\ new_chunk = tail ++ strip (u " CCCC ") ++ nn)
    /\ (~ 0 < 4 < len demo_buffer -> new_chunk = strip (u " CCCC ") ++ nn).
Proof.
  apply (overlap_within_section_only 12 4 (u "ch") [] demo_buffer (u " CCCC ")).
  - discriminate.
  - vm_compute. discriminate.
  - discriminate.
Defined.

Example overlap_example :
  add_paragraph 12 4 (u "ch") ([], demo_buffer) (u " CCCC ")
  = ([mkChunk (u "AAAA BBBB") (u "ch") 0], u "BB" ++ nn ++ u "CCCC" ++ nn).
Proof. reflexivity. Qed.

(** Every chunk carries its position in the list as its index. *)
Definition indexed (l : list TextChunk) : Prop :=
  forall i c, nth_error l i = Some c -> index c = Z.of_nat i.

Lemma indexed_snoc l t ch : indexed l -> indexed (l ++ [mkChunk t ch (len l)]).
Proof.
  intros H i c Hn. destruct (Nat.lt_ge_cases i (length l)) as [Hi | Hi].
  - rewrite nth_error_app1 in Hn by assumption. now apply H.
  - rewrite nth_error_app2 in Hn by assumption.
    destruct (i - length l)%nat as [| n] eqn:E; simpl in Hn.
    + injection Hn as <-. simpl. unfold len. lia.
    + destruct n; discriminate Hn.
Qed.

Lemma add_paragraph_indexed size ov ch st para :
  indexed (fst st) -> indexed (fst (add_paragraph size ov ch st para)).
Proof.
  destruct st as [cs cur]. unfold add_paragraph. cbn [fst]. intros H.
  destruct (negb (truthy (strip para))); [exact H |].
  destruct (len cur + len (strip para) <? size); [exact H |].
  destruct (truthy cur);
    destruct ((0 <? ov) && (ov <? len cur)); cbn [fst];
    try exact H; now apply indexed_snoc.
Qed.

Lemma split_section_indexed size ov ch acc section :
  indexed acc -> indexed (split_section size ov ch acc section).
Proof.
  intros H. unfold split_section.
  destruct (len (strip section) <? 50); [exact H |].
  assert (Hf : forall paras st,
             indexed (fst st) ->
             indexed (fst (fold_left (add_paragraph size ov ch) paras st))).
  { induction paras as [| p paras IH]; intros st Hst; simpl; [exact Hst |].
    now apply IH, add_paragraph_indexed. }
  specialize (Hf (split_nn (strip section)) (acc, []) H).
  destruct (fold_left (add_paragraph size ov ch) (split_nn (strip section))
                      (acc, [])) as [cs cur].
  cbn [fst] in Hf.
  destruct (truthy (strip cur)); [now apply indexed_snoc | exact Hf].
Qed.

Lemma split_text_indexed sections size ov : indexed (_split_text sections size ov).
Proof.
  unfold _split_text.
  assert (H : forall i ch acc,
             indexed acc -> indexed (split_sections size ov sections i ch acc)).
  { induction sections as [| s rest IH]; intros i ch acc Hacc; simpl.
    - exact Hacc.
    - destruct (Nat.odd i); apply IH; [exact Hacc |].
      now apply split_section_indexed. }
  apply H. intros [| i] c Hn; discriminate Hn.
Qed.

(** A text of two chapters: the title sits between the two sections. *)
Definition long_a : str := repeat 97%N 60.
Definition long_b : str := repeat 98%N 60.

Example two_chapters :
  _split_text [long_a; u "One"; long_b] 500 100
  = [mkChunk long_a (u "未知章节") 0; mkChunk long_b (u "One") 1].
Proof. reflexivity. Qed.

(** A section shorter than 50 characters gives no chunk. *)
Example short_section_dropped :
  _split_text [u "AAAA BBBB

CCCC DDDD

EEEE FFFF"] 40 10 = [].
Proof. reflexivity. Qed.

End ChunkerFacts.

(** ** Paths of the knowledge graph *)

Module PathFacts.
Import Dict Graph DictFacts.

Section Paths.

Variable G : DiGraph.

Definition edge (a b : str) : Prop := In b (successors G a).

(** [path_to t a p]: [p] is a directed path of [G] that starts at [a] and
    ends at [t]. *)
Inductive path_to (t : str) : str -> list str -> Prop :=
| path_here : path_to t t [t]
| path_step (a b : str) (p : list str) :
    edge a b -> path_to t b p -> path_to t a (a :: p).

Lemma path_to_head t a p : path_to t a p -> exists p', p = a :: p'.
Proof. destruct 1; eauto. Qed.

Lemma path_to_last t a p : path_to t a p -> In t p.
Proof. induction 1; simpl; auto. Qed.

Lemma path_to_single t a : path_to t a [a] -> a = t.
Proof.
  intros H. inversion H as [| ? b p He Hp]; subst; [reflexivity |].
  destruct (path_to_head _ _ _ Hp) as [p' Hp']. discriminate Hp'.
Qed.

(** The paths the search is still to produce from [node], reached along
    [path_rev]: simple, off the nodes already on the path, within the bound. *)
Definition extends (t : str) (r : nat) (path_rev : list str) (node : str)
    (p : list str) : Prop :=
  exists q, p = rev path_rev ++ q /\ path_to t node q /\ NoDup q
            /\ (forall x, In x q -> ~ In x path_rev)
            /\ (length q <= S r)%nat.

Lemma str_in_one (a t : str) : str_in a [t] = str_eqb a t.
Proof. unfold str_in. simpl. apply orb_false_r. Qed.

Lemma pending_one (t : str) (l : list str) :
  existsb (fun x => negb (str_in x l)) [t] = negb (str_in t l).
Proof. simpl. apply orb_false_r. Qed.

Lemma dfs_extends (t : str) (r : nat) : forall path_rev node p,
  ~ In node path_rev ->
  (In p (dfs G [t] r path_rev node) <-> extends t r path_rev node p).
Proof.
  induction r as [| r IH]; intros path_rev node p Hnode.
  - cbn [dfs]. rewrite app_nil_r, str_in_one. split.
    + destruct (str_eqb node t) eqn:E; [| intros []].
      apply str_eqb_eq in E. subst node. intros [<- | []].
      exists [t]. repeat split.
      * constructor.
      * repeat constructor. intros [].
      * intros x [<- | []]. assumption.
      * simpl. lia.
    + intros (q & -> & Hq & Hnd & Hoff & Hlen).
      destruct (path_to_head _ _ _ Hq) as [q' ->].
      destruct q' as [| b q']; [| simpl in Hlen; lia].
      apply path_to_single in Hq. subst node.
      rewrite str_eqb_refl. now left.
  - cbn [dfs]. rewrite str_in_one, pending_one, in_app_iff. split.
    + intros [H | H].
      * destruct (str_eqb node t) eqn:E; [| destruct H].
        apply str_eqb_eq in E. subst node. destruct H as [<- | []].
        exists [t]. repeat split.
        -- constructor.
        -- repeat constructor. intros [].
        -- intros x [<- | []]. assumption.
        -- simpl. lia.
      * destruct (negb (str_in t (node :: path_rev))) eqn:Et; [| destruct H].
        apply in_flat_map in H. destruct H as (s & Hs & Hp).
        destruct (str_in s (node :: path_rev)) eqn:Es; [destruct Hp |].
        assert (Hs' : ~ In s (node :: path_rev)).
        { intros Hin. apply str_in_In in Hin. congruence. }
        apply (IH (node :: path_rev) s p Hs') in Hp.
        destruct Hp as (q & -> & Hq & Hnd & Hoff & Hlen).
        exists (node :: q). repeat split.
        -- simpl. now rewrite <- app_assoc.
        -- now apply path_step with s.
        -- constructor; [| assumption]. intros Hin.
           apply (Hoff node Hin). now left.
        -- intros x [<- | Hx]; [assumption |]. intros Hin.
           apply (Hoff x Hx). now right.
        -- simpl. lia.
    + intros (q & -> & Hq & Hnd & Hoff & Hlen).
      inversion Hq as [| a s q' He Hq']; subst.
      * left. rewrite str_eqb_refl. now left.
      * right. inversion Hnd as [| ? ? Hnq Hnd']; subst.
        assert (Ht : str_in t (node :: path_rev) = false).
        { destruct (str_in t (node :: path_rev)) eqn:E; [| reflexivity].
          apply str_in_In in E. pose proof (path_to_last _ _ _ Hq') as Hl.
          destruct E as [<- | E]; [contradiction |].
          exfalso. apply (Hoff t); [now right | assumption]. }
        rewrite Ht. cbn [negb]. apply in_flat_map. exists s.
        split; [exact He |].
        destruct (path_to_head _ _ _ Hq') as [q'' ->].
        assert (Hs : ~ In s (node :: path_rev)).
        { intros [<- | Hin]; [apply Hnq; now left |].
          apply (Hoff s); [right; now left | assumption]. }
        destruct (str_in s (node :: path_rev)) eqn:Es;
          [apply str_in_In in Es; contradiction |].
        apply (IH (node :: path_rev) s _ Hs).
        exists (s :: q''). repeat split.
        -- simpl. now rewrite <- app_assoc.
        -- assumption.
        -- assumption.
        -- intros x Hx [<- | Hin]; [contradiction |].
           apply (Hoff x); [now right | assumption].
        -- simpl in *. lia.
Qed.

End Paths.

(** A simple directed path from [s] to [t] with at most [k] edges. *)
Definition simple_path_within (G : DiGraph) (s t : str) (k : Z) (p : list str)
    : Prop :=
  path_to G t s p /\ NoDup p /\ Z.of_nat (length p) - 1 <= k.

(** When both end points are nodes, [find_paths] returns exactly the simple
    directed paths from [source] to [target] with at most [max_length]
    edges. *)
Lemma find_paths_between_nodes (kg : KnowledgeGraph) (source target : str)
    (max_length : Z) :
  has_node (graph kg) source = true ->
  has_node (graph kg) target = true ->
  exists paths,
    find_paths kg source target max_length = Ok paths
    /\ forall p, In p paths
                 <-> simple_path_within (graph kg) source target max_length p.
Proof.
  intros Hs Ht. unfold find_paths, all_simple_paths, targets_of.
  rewrite Hs, Ht. cbn [negb length Nat.eqb andb].
  destruct (0 <=? max_length) eqn:E; cbn [andb].
  - apply Z.leb_le in E. eexists. split; [reflexivity |]. intros p.
    rewrite dfs_extends by (intros []). unfold extends, simple_path_within.
    split.
    + intros (q & -> & Hq & Hnd & _ & Hlen). simpl. repeat split; try assumption.
      lia.
    + intros (Hq & Hnd & Hlen). exists p. simpl. repeat split; try assumption.
      * intros x _ [].
      * lia.
  - apply Z.leb_gt in E. exists []. split; [reflexivity |]. intros p.
    split; [intros [] |]. intros (Hq & _ & Hlen).
    destruct (path_to_head _ _ _ _ Hq) as [p' ->]. cbn [length] in Hlen. lia.
Qed.

(** An absent source gives the empty list. *)
Lemma find_paths_absent_source (kg : KnowledgeGraph) (source target : str)
    (max_length : Z) :
  has_node (graph kg) source = false ->
  find_paths kg source target max_length = Ok [].
Proof.
  intros Hs. unfold find_paths, all_simple_paths. rewrite Hs. reflexivity.
Qed.

(** Between two distinct nodes there is no path of length 0. *)
Lemma find_paths_zero_distinct (kg : KnowledgeGraph) (a b : str) :
  has_node (graph kg) a = true -> has_node (graph kg) b = true -> a <> b ->
  find_paths kg a b 0 = Ok [].
Proof.
  intros Ha Hb Hab.
  destruct (find_paths_between_nodes kg a b 0 Ha Hb) as (paths & -> & Hp).
  destruct paths as [| p paths]; [reflexivity |].
  destruct (proj1 (Hp p) (or_introl eq_refl)) as (Hq & _ & Hlen).
  destruct (path_to_head _ _ _ _ Hq) as [p' ->].
  destruct p' as [| c p']; [| cbn [length] in Hlen; lia].
  apply path_to_single in Hq. contradiction.
Qed.

(** A graph with the single edge A -> B. *)
Definition one_edge : KnowledgeGraph :=
  run [AddEntity (mkEntity (u "A") CONCEPT [] [] []);
       AddEntity (mkEntity (u "B") CONCEPT [] [] []);
       AddRelationship (mkRel (u "A") (u "B") RELATED_TO [] 1%Q [])].

(** C2 at a target that is not a node: the string ["BC"] is taken for the
    set of targets B and C, and the path to the node B is returned where
    the empty list is promised. *)
Theorem find_paths_absent_target_returns_path :
  has_node (graph one_edge) (u "BC") = false
  /\ find_paths one_edge (u "A") (u "BC") 4 = Ok [[u "A"; u "B"]].
Proof. split; reflexivity. Qed.

(** The scenario of three entities in a row. *)
Definition chain_xyz : KnowledgeGraph :=
  run [AddEntity (mkEntity (u "X") CONCEPT [] [] []);
       AddEntity (mkEntity (u "Y") CONCEPT [] [] []);
       AddEntity (mkEntity (u "Z") CONCEPT [] [] []);
       AddRelationship (mkRel (u "X") (u "Y") RELATED_TO [] 1%Q []);
       AddRelationship (mkRel (u "Y") (u "Z") RELATED_TO [] 1%Q [])].

Example find_paths_chain :
  find_paths chain_xyz (u "X") (u "Z") 4 = Ok [[u "X"; u "Y"; u "Z"]]
  /\ find_paths chain_xyz (u "X") (u "Z") 1 = Ok []
  /\ find_paths chain_xyz (u "X") (u "X") 0 = Ok [[u "X"]]
  /\ find_paths chain_xyz (u "W") (u "Z") 4 = Ok []
  /\ find_paths chain_xyz (u "X") (u "W") 4 = Ok [].
Proof. repeat split. Qed.

End PathFacts.

(** * Further properties of the modelled code *)

(** ** Path queries *)

Module PathExtra.
Import Dict Graph DictFacts PathFacts.

(** X1: between two nodes of the graph, [find_paths] raises nothing and
    returns exactly the simple directed paths from the source to the target
    that have at most [max_length] edges. *)
Theorem find_paths_exactly_simple_paths (kg : KnowledgeGraph)
    (source target : str) (max_length : Z)
    (Hs : has_node (graph kg) source = true)
    (Ht : has_node (graph kg) target = true) :
  exists paths,
    find_paths kg source target max_length = Ok paths
    /\ forall p, In p paths
                 <-> simple_path_within (graph kg) source target max_length p.
Proof. now apply find_paths_between_nodes. Qed.

Lemma find_paths_exactly_simple_paths_witness :
  exists paths,
    find_paths chain_xyz (u "X") (u "Z") 4 = Ok paths
    /\ forall p, In p paths
                 <-> simple_path_within (graph chain_xyz) (u "X") (u "Z") 4 p.
Proof.
  apply (find_paths_exactly_simple_paths chain_xyz (u "X") (u "Z") 4);
    reflexivity.
Defined.

(** X2: a source that is not a node, or a negative bound, gives the empty
    list of paths and no exception, whatever the target is. *)
Theorem find_paths_nothing_to_search (kg : KnowledgeGraph)
    (source target : str) (max_length : Z)
    (H : has_node (graph kg) source = false \/ max_length < 0) :
  find_paths kg source target max_length = Ok [].
Proof.
  unfold find_paths, all_simple_paths.
  destruct (has_node (graph kg) source) eqn:Es; cbn [negb].
  - destruct H as [H | H]; [discriminate H |].
    replace (0 <=? max_length) with false by (symmetry; apply Z.leb_gt; lia).
    reflexivity.
  - reflexivity.
Qed.

Lemma find_paths_nothing_to_search_witness :
  find_paths chain_xyz (u "W") (u "Z") 4 = Ok []
  /\ find_paths chain_xyz (u "X") (u "Z") (-1) = Ok [].
Proof.
  split.
  - apply (find_paths_nothing_to_search chain_xyz (u "W") (u "Z") 4).
    left. reflexivity.
  - apply (find_paths_nothing_to_search chain_xyz (u "X") (u "Z") (-1)).
    right. lia.
Defined.

(** X3: from a node to itself, with a bound that is not negative, the only
    path returned is the path of that single node. *)
Theorem find_paths_to_itself (kg : KnowledgeGraph) (a : str) (max_length : Z)
    (Ha : has_node (graph kg) a = true) (Hk : 0 <= max_length) :
  find_paths kg a a max_length = Ok [[a]].
Proof.
  unfold find_paths, all_simple_paths, targets_of. rewrite Ha.
  cbn [negb length Nat.eqb andb].
  replace (0 <=? max_length) with true by (symmetry; now apply Z.leb_le).
  cbn [andb]. f_equal.
  destruct (Z.to_nat max_length) as [| r]; cbn [dfs];
    rewrite ?pending_one, !str_in_one; cbn [str_in existsb];
    rewrite !str_eqb_refl; reflexivity.
Qed.

Lemma find_paths_to_itself_witness :
  find_paths chain_xyz (u "Y") (u "Y") 3 = Ok [[u "Y"]].
Proof.
  apply (find_paths_to_itself chain_xyz (u "Y") 3); [reflexivity | lia].
Defined.

End PathExtra.

(** ** The digraph behind the knowledge graph *)

Module GraphExtra.
Import Dict Graph DictFacts GraphFacts.

Lemma adj_set (a : dict (dict EdgeData)) (k x : str) (v : dict EdgeData) :
  adj (set k v a) x = if str_eqb x k then v else adj a x.
Proof. unfold adj. rewrite get_set. destruct (str_eqb x k); reflexivity. Qed.

Lemma keys_set_NoDup {V} (k : str) (v : V) (d : dict V) :
  NoDup (keys d) -> NoDup (keys (set k v d)).
Proof.
  intros H. rewrite keys_set. destruct (mem k d) eqn:E; [assumption |].
  apply NoDup_app; [assumption | repeat constructor; intros [] |].
  intros x Hx [<- | []]. apply mem_keys in Hx. congruence.
Qed.

Lemma get_In_keys {V} (k : str) (d : dict V) :
  In k (keys d) <-> exists v, get k d = Some v.
Proof.
  rewrite <- mem_keys. unfold mem. destruct (get k d) as [v |]; split.
  - eauto.
  - reflexivity.
  - discriminate.
  - intros [v H]. discriminate H.
Qed.

(** The shape networkx keeps: the three dictionaries have the same keys,
    without repetition, every adjacency dictionary has distinct keys, and
    the predecessor dictionaries mirror the successor ones. *)
Record well_formed (G : DiGraph) : Prop := mkWF {
  wf_succ : forall n, mem n (_succ G) = mem n (_node G);
  wf_pred : forall n, mem n (_pred G) = mem n (_node G);
  wf_mirror : forall a b, get b (adj (_succ G) a) = get a (adj (_pred G) b);
  wf_nodes : NoDup (keys (_node G));
  wf_distinct : forall a, NoDup (keys (adj (_succ G) a));
  wf_ends : forall a b, In b (keys (adj (_succ G) a)) ->
                        has_node G a = true /\ has_node G b = true
}.

Lemma well_formed_empty : well_formed empty_digraph.
Proof.
  constructor; try reflexivity.
  - constructor.
  - intros a. constructor.
  - intros a b [].
Qed.

Lemma adj_touch (G : DiGraph) (n x : str) :
  well_formed G ->
  adj (_succ (touch_node G n)) x = adj (_succ G) x
  /\ adj (_pred (touch_node G n)) x = adj (_pred G) x.
Proof.
  intros W. unfold touch_node. destruct (mem n (_succ G)) eqn:E.
  - split; reflexivity.
  - assert (Ep : mem n (_pred G) = false)
      by (rewrite (wf_pred G W), <- (wf_succ G W); exact E).
    cbn [_succ _pred]. rewrite !adj_set.
    destruct (str_eqb x n) eqn:Ex; [| split; reflexivity].
    apply str_eqb_eq in Ex. subst x. unfold adj, mem in *.
    destruct (get n (_succ G)); [discriminate |].
    destruct (get n (_pred G)); [discriminate |]. split; reflexivity.
Qed.

Lemma touch_node_well_formed (G : DiGraph) (n : str) :
  well_formed G -> well_formed (touch_node G n).
Proof.
  intros W. pose proof (adj_touch G n) as Hadj.
  constructor.
  - intros k. unfold touch_node. destruct (mem n (_succ G)); cbn.
    + apply (wf_succ G W).
    + rewrite !mem_set. now rewrite (wf_succ G W).
  - intros k. unfold touch_node. destruct (mem n (_succ G)); cbn.
    + apply (wf_pred G W).
    + rewrite !mem_set. now rewrite (wf_pred G W).
  - intros a b. destruct (Hadj a W) as [-> _]. destruct (Hadj b W) as [_ ->].
    apply (wf_mirror G W).
  - unfold touch_node. destruct (mem n (_succ G)); cbn.
    + apply (wf_nodes G W).
    + apply keys_set_NoDup, (wf_nodes G W).
  - intros a. destruct (Hadj a W) as [-> _]. apply (wf_distinct G W).
  - intros a b. destruct (Hadj a W) as [-> _]. intros H.
    destruct (wf_ends G W a b H). split; now apply touch_node_keeps.
Qed.

Lemma touch_node_has_wf (G : DiGraph) (n : str) :
  well_formed G -> has_node (touch_node G n) n = true.
Proof.
  intros W. apply touch_node_has. intros k. apply (wf_succ G W).
Qed.

Lemma add_node_well_formed (G : DiGraph) (n : str) (d : NodeData) :
  well_formed G -> well_formed (add_node G n d).
Proof.
  intros W. pose proof (touch_node_has_wf G n W) as Hn.
  apply (touch_node_well_formed G n) in W.
  unfold add_node. set (G1 := touch_node G n) in *. unfold has_node in Hn.
  assert (Hmem : forall k, mem k (set n d (_node G1)) = mem k (_node G1)).
  { intros k. rewrite mem_set. destruct (str_eqb k n) eqn:E; [| reflexivity].
    apply str_eqb_eq in E. subst k. simpl. symmetry. exact Hn. }
  constructor; cbn [_node _succ _pred].
  - intros k. rewrite Hmem. apply (wf_succ G1 W).
  - intros k. rewrite Hmem. apply (wf_pred G1 W).
  - apply (wf_mirror G1 W).
  - apply keys_set_NoDup, (wf_nodes G1 W).
  - apply (wf_distinct G1 W).
  - intros a b H. destruct (wf_ends G1 W a b H) as [Ha Hb].
    unfold has_node in *. cbn [_node]. rewrite !Hmem. now split.
Qed.

Lemma add_edge_well_formed (G : DiGraph) (a b : str) (d : EdgeData) :
  well_formed G -> well_formed (add_edge G a b d).
Proof.
  intros W.
  assert (Ha : has_node (touch_node (touch_node G a) b) a = true)
    by (apply touch_node_keeps; now apply touch_node_has_wf).
  assert (Hb : has_node (touch_node (touch_node G a) b) b = true)
    by (apply touch_node_has_wf; now apply touch_node_well_formed).
  apply (touch_node_well_formed G a), (touch_node_well_formed _ b) in W.
  unfold add_edge. set (G2 := touch_node (touch_node G a) b) in *.
  unfold has_node in Ha, Hb.
  constructor; cbn [_node _succ _pred].
  - intros k. rewrite mem_set, (wf_succ G2 W).
    destruct (str_eqb k a) eqn:E; [| reflexivity].
    apply str_eqb_eq in E. subst k. now rewrite Ha.
  - intros k. rewrite mem_set, (wf_pred G2 W).
    destruct (str_eqb k b) eqn:E; [| reflexivity].
    apply str_eqb_eq in E. subst k. now rewrite Hb.
  - intros x y. rewrite !adj_set.
    destruct (str_eqb x a) eqn:Ex, (str_eqb y b) eqn:Ey;
      rewrite ?get_set, ?Ex, ?Ey; try apply (wf_mirror G2 W).
    + reflexivity.
    + apply str_eqb_eq in Ex. subst x. apply (wf_mirror G2 W).
    + apply str_eqb_eq in Ey. subst y. apply (wf_mirror G2 W).
  - apply (wf_nodes G2 W).
  - intros x. rewrite adj_set. destruct (str_eqb x a).
    + apply keys_set_NoDup, (wf_distinct G2 W).
    + apply (wf_distinct G2 W).
  - intros x y. unfold has_node. cbn [_node]. rewrite adj_set.
    destruct (str_eqb x a) eqn:Ex.
    + apply str_eqb_eq in Ex. subst x. intros H.
      split; [exact Ha |]. apply mem_keys in H. rewrite mem_set in H.
      destruct (str_eqb y b) eqn:Ey.
      * apply str_eqb_eq in Ey. subst y. exact Hb.
      * simpl in H. apply mem_keys in H. apply (wf_ends G2 W a y H).
    + apply (wf_ends G2 W).
Qed.

Lemma apply_op_well_formed (kg : KnowledgeGraph) (o : op) :
  well_formed (graph kg) -> well_formed (graph (apply_op kg o)).
Proof.
  intros W. destruct o as [e | r]; cbn [apply_op add_entity add_relationship graph].
  - now apply add_node_well_formed.
  - now apply add_edge_well_formed.
Qed.

Lemma fold_well_formed (ops : list op) : forall kg,
  well_formed (graph kg) -> well_formed (graph (fold_left apply_op ops kg)).
Proof.
  induction ops as [| o ops IH]; intros kg W; simpl; [exact W |].
  now apply IH, apply_op_well_formed.
Qed.

Lemma run_well_formed (ops : list op) : well_formed (graph (run ops)).
Proof. apply fold_well_formed, well_formed_empty. Qed.

End GraphExtra.

(** ** Neighbours and edges of a graph built by the two operations *)

Module NeighborExtra.
Import Dict Graph DictFacts GraphFacts GraphExtra.

(** The label [get_neighbors] reads on an edge. *)
Definition label_of (d : EdgeData) : str :=
  match e_relation_type d with Some r => r | None => [] end.

Lemma neighbors_of_list (f : str -> result str) (l : list str)
    (bs : list Neighbor) :
  mapM (fun x => bind (f x) (fun r => Ok (mkNeighbor x r))) l = Ok bs ->
  map entity bs = l
  /\ forall x r, In (mkNeighbor x r) bs <-> In x l /\ f x = Ok r.
Proof.
  revert bs. induction l as [| a l IH]; intros bs; simpl.
  - intros [= <-]. split; [reflexivity |]. intros x r. simpl. tauto.
  - destruct (f a) as [ra | e] eqn:Ea; simpl; [| discriminate].
    destruct (mapM _ l) as [bs' | e] eqn:Em; simpl; [| discriminate].
    intros [= <-]. destruct (IH bs' eq_refl) as [Hmap Hin]. split.
    + simpl. now rewrite Hmap.
    + intros x r. simpl. rewrite Hin. split.
      * intros [[= <- <-] | [Hx Hf]]; auto.
      * intros [[<- | Hx] Hf]; [left | right; auto]. congruence.
Qed.

Lemma neighbors_total (f : str -> result str) (l : list str) :
  (forall x, In x l -> exists r, f x = Ok r) ->
  exists bs, mapM (fun x => bind (f x) (fun r => Ok (mkNeighbor x r))) l = Ok bs.
Proof.
  induction l as [| a l IH]; intros H; simpl.
  - now exists [].
  - destruct (H a) as [ra Ha]; [now left |]. rewrite Ha. simpl.
    destruct IH as [bs Hbs]; [intros x Hx; apply H; now right |].
    rewrite Hbs. simpl. eauto.
Qed.

Lemma edge_relation_ok (G : DiGraph) (a b : str) (r : str) :
  edge_relation G a b = Ok r <->
  exists d, get b (adj (_succ G) a) = Some d /\ r = label_of d.
Proof.
  unfold edge_relation, get_edge_data, label_of.
  destruct (get b (adj (_succ G) a)) as [d |]; split.
  - intros [= <-]. now exists d.
  - intros (d' & [= <-] & ->). reflexivity.
  - discriminate.
  - intros (d' & H & _). discriminate H.
Qed.

(** X4: on a graph built by [add_entity] and [add_relationship],
    [get_neighbors] of a node raises nothing and returns a dictionary with
    the two keys, whose lists name the predecessors and the successors of
    the node, in their order. *)
Theorem get_neighbors_of_node (ops : list op) (n : str)
    (Hn : has_node (graph (run ops)) n = true) :
  exists ins outs,
    get_neighbors (run ops) n = Ok [(u "in", ins); (u "out", outs)]
    /\ map entity ins = predecessors (graph (run ops)) n
    /\ map entity outs = successors (graph (run ops)) n.
Proof.
  pose proof (run_well_formed ops) as W. unfold get_neighbors. rewrite Hn.
  cbn [negb]. set (G := graph (run ops)) in *.
  destruct (neighbors_total (fun p => edge_relation G p n) (predecessors G n))
    as [ins Hins].
  { intros p Hp. apply get_In_keys in Hp. destruct Hp as [d Hd].
    exists (label_of d). apply edge_relation_ok. exists d.
    split; [| reflexivity]. now rewrite (wf_mirror G W). }
  destruct (neighbors_total (fun s => edge_relation G n s) (successors G n))
    as [outs Houts].
  { intros s Hs. apply get_In_keys in Hs. destruct Hs as [d Hd].
    exists (label_of d). apply edge_relation_ok. now exists d. }
  exists ins, outs. rewrite Hins. cbn [bind]. rewrite Houts. cbn [bind].
  split; [reflexivity |].
  split; [apply (neighbors_of_list _ _ _ Hins)
         | apply (neighbors_of_list _ _ _ Houts)].
Qed.

Lemma get_neighbors_of_node_witness :
  exists ins outs,
    get_neighbors (run [AddRelationship dangling]) (u "A")
    = Ok [(u "in", ins); (u "out", outs)]
    /\ map entity ins = predecessors (graph (run [AddRelationship dangling])) (u "A")
    /\ map entity outs = successors (graph (run [AddRelationship dangling])) (u "A").
Proof.
  apply (get_neighbors_of_node [AddRelationship dangling] (u "A")).
  reflexivity.
Defined.

Lemma get_neighbors_inv (kg : KnowledgeGraph) (n : str)
    (d : dict (list Neighbor)) :
  get_neighbors kg n = Ok d ->
  (has_node (graph kg) n = false /\ d = [])
  \/ exists ins outs,
       has_node (graph kg) n = true
       /\ d = [(u "in", ins); (u "out", outs)]
       /\ mapM (fun p => bind (edge_relation (graph kg) p n)
                              (fun r => Ok (mkNeighbor p r)))
               (predecessors (graph kg) n) = Ok ins
       /\ mapM (fun s => bind (edge_relation (graph kg) n s)
                              (fun r => Ok (mkNeighbor s r)))
               (successors (graph kg) n) = Ok outs.
Proof.
  unfold get_neighbors. destruct (has_node (graph kg) n); cbn [negb].
  - destruct (mapM _ (predecessors (graph kg) n)) as [ins | e] eqn:Ei;
      cbn [bind]; [| discriminate].
    destruct (mapM _ (successors (graph kg) n)) as [outs | e] eqn:Eo;
      cbn [bind]; [| discriminate].
    intros [= <-]. right. exists ins, outs. auto.
  - intros [= <-]. now left.
Qed.

Lemma out_entries (kg : KnowledgeGraph) (n b r : str) (d : dict (list Neighbor)) :
  well_formed (graph kg) -> get_neighbors kg n = Ok d ->
  ((exists outs, get (u "out") d = Some outs /\ In (mkNeighbor b r) outs)
   <-> exists e, get b (adj (_succ (graph kg)) n) = Some e /\ r = label_of e).
Proof.
  intros W H. apply get_neighbors_inv in H.
  destruct H as [[Hn ->] | (ins & outs & Hn & -> & _ & Ho)].
  - split.
    + intros (outs & Hg & _). discriminate Hg.
    + intros (e & He & _).
      assert (Hin : In b (keys (adj (_succ (graph kg)) n)))
        by (apply get_In_keys; eauto).
      destruct (wf_ends _ W n b Hin). congruence.
  - destruct (neighbors_of_list _ _ _ Ho) as [_ Hin]. split.
    + intros (outs' & Hg & Hb). injection Hg as <-.
      apply Hin in Hb. now apply edge_relation_ok.
    + intros He. exists outs. split; [reflexivity |]. apply Hin.
      split; [| now apply edge_relation_ok].
      destruct He as (e & He & _). apply get_In_keys. eauto.
Qed.

Lemma in_entries (kg : KnowledgeGraph) (n a r : str) (d : dict (list Neighbor)) :
  well_formed (graph kg) -> get_neighbors kg n = Ok d ->
  ((exists ins, get (u "in") d = Some ins /\ In (mkNeighbor a r) ins)
   <-> exists e, get n (adj (_succ (graph kg)) a) = Some e /\ r = label_of e).
Proof.
  intros W H. apply get_neighbors_inv in H.
  destruct H as [[Hn ->] | (ins & outs & Hn & -> & Hi & _)].
  - split.
    + intros (ins & Hg & _). discriminate Hg.
    + intros (e & He & _).
      assert (Hin : In n (keys (adj (_succ (graph kg)) a)))
        by (apply get_In_keys; eauto).
      destruct (wf_ends _ W a n Hin). congruence.
  - destruct (neighbors_of_list _ _ _ Hi) as [_ Hin]. split.
    + intros (ins' & Hg & Ha). injection Hg as <-.
      apply Hin in Ha. now apply edge_relation_ok.
    + intros He. exists ins. split; [reflexivity |]. apply Hin.
      split; [| now apply edge_relation_ok].
      destruct He as (e & He & _). apply get_In_keys. exists e.
      now rewrite <- (wf_mirror _ W).
Qed.

(** X5: on a graph built by the two operations, an edge is reported from
    both of its ends with the same label: [b] is in the outgoing list of [a]
    with a relation exactly when [a] is in the incoming list of [b] with that
    relation. *)
Theorem edge_seen_from_both_ends (ops : list op) (a b r : str)
    (da db : dict (list Neighbor))
    (Ha : get_neighbors (run ops) a = Ok da)
    (Hb : get_neighbors (run ops) b = Ok db) :
  (exists outs, get (u "out") da = Some outs /\ In (mkNeighbor b r) outs)
  <-> (exists ins, get (u "in") db = Some ins /\ In (mkNeighbor a r) ins).
Proof.
  pose proof (run_well_formed ops) as W.
  rewrite (out_entries _ a b r da W Ha), (in_entries _ b a r db W Hb).
  reflexivity.
Qed.

Lemma edge_seen_from_both_ends_witness :
  (exists outs,
      get (u "out") [(u "in", []); (u "out", [mkNeighbor (u "B") (u "相关")])]
      = Some outs /\ In (mkNeighbor (u "B") (u "相关")) outs)
  <-> (exists ins,
      get (u "in") [(u "in", [mkNeighbor (u "A") (u "相关")]); (u "out", [])]
      = Some ins /\ In (mkNeighbor (u "A") (u "相关")) ins).
Proof.
  apply (edge_seen_from_both_ends [AddRelationship dangling]
           (u "A") (u "B") (u "相关")); reflexivity.
Defined.

(** The attributes [add_relationship] puts on the edge. *)
Definition edge_data_of (rel : Relationship) : EdgeData :=
  mkEdgeData (Some (relation_type_value (relation_type rel)))
             (Some (rel_description rel)) (Some (weight rel)).

(** X6: the digraph holds no parallel edge, the list of relationships holds
    them all. After [add_relationship] on a built graph, the edge from the
    source to the target carries the attributes of the relationship just
    added, the successors of the source are without repetition and are the
    same as before when the target was already one of them, and the list of
    relationships is one longer. *)
Theorem add_relationship_one_edge_per_pair (ops : list op) (rel : Relationship) :
  let kg := run ops in
  let kg' := add_relationship kg rel in
  get_edge_data (graph kg') (source rel) (target rel) = Some (edge_data_of rel)
  /\ NoDup (successors (graph kg') (source rel))
  /\ (In (target rel) (successors (graph kg) (source rel)) ->
      successors (graph kg') (source rel) = successors (graph kg) (source rel))
  /\ length (relationships kg') = S (length (relationships kg)).
Proof.
  cbn zeta. pose proof (run_well_formed ops) as W.
  set (kg := run ops) in *.
  assert (W' : well_formed (graph (add_relationship kg rel)))
    by now apply add_edge_well_formed.
  repeat split.
  - unfold get_edge_data, add_relationship, add_edge. cbn [graph _succ].
    rewrite adj_set, str_eqb_refl, get_set, str_eqb_refl. reflexivity.
  - apply (wf_distinct _ W').
  - intros Hin. unfold successors, add_relationship, add_edge in *.
    cbn [graph _succ]. rewrite adj_set, str_eqb_refl, keys_set.
    pose proof (touch_node_well_formed _ (source rel) W) as W1.
    destruct (adj_touch _ (target rel) (source rel) W1) as [-> _].
    destruct (adj_touch _ (source rel) (source rel) W) as [-> _].
    apply mem_keys in Hin. now rewrite Hin.
  - unfold add_relationship. cbn [relationships].
    rewrite length_app. simpl. lia.
Qed.

(** X7: [add_entity] registers the entity under its name: the lookup of the
    name gives the entity, the other names are untouched, a name already
    registered keeps its place in the order of registration and a new one
    goes last; the name is a node of the digraph afterwards and the
    relationships are as before. *)
Theorem add_entity_registers (kg : KnowledgeGraph) (e : Entity) :
  let kg' := add_entity kg e in
  get (name e) (entities kg') = Some e
  /\ (forall k, k <> name e -> get k (entities kg') = get k (entities kg))
  /\ keys (entities kg')
     = (if mem (name e) (entities kg) then keys (entities kg)
        else keys (entities kg) ++ [name e])
  /\ has_node (graph kg') (name e) = true
  /\ relationships kg' = relationships kg.
Proof.
  cbn zeta. unfold add_entity. cbn [entities graph relationships].
  repeat split.
  - now rewrite get_set, str_eqb_refl.
  - intros k Hk. rewrite get_set. apply str_eqb_neq in Hk. now rewrite Hk.
  - apply keys_set.
  - apply add_node_has.
Qed.

End NeighborExtra.

(** ** More of [graph_builder.py]: type maps, statistics, persistence *)

Module GraphMore.
Import Dict Graph.

(** [EntityExtractor._map_entity_type] and [_map_relation_type]:
    [type_map.get(type_str, default)]. *)
Definition entity_type_map : dict EntityType :=
  [(u "概念", CONCEPT); (u "思维模型", MENTAL_MODEL); (u "原则", PRINCIPLE);
   (u "人物", PERSON); (u "公司", COMPANY); (u "案例", CASE_STUDY);
   (u "书籍", BOOK); (u "学科", DISCIPLINE); (u "认知偏误", COGNITIVE_BIAS)].

Definition _map_entity_type (type_str : str) : EntityType :=
  match get type_str entity_type_map with Some t => t | None => CONCEPT end.

Definition relation_type_map : dict RelationType :=
  [(u "解释", EXPLAINS); (u "应用于", APPLIES_TO); (u "源自", DERIVED_FROM);
   (u "相关", RELATED_TO); (u "受影响于", INFLUENCED_BY);
   (u "合作", COLLABORATED_WITH); (u "提及", MENTIONED); (u "支持", SUPPORTS);
   (u "反对", OPPOSES); (u "警告", WARNS_AGAINST); (u "是一种", IS_A);
   (u "属于", PART_OF); (u "导致", LEADS_TO)].

Definition _map_relation_type (type_str : str) : RelationType :=
  match get type_str relation_type_map with Some t => t | None => RELATED_TO end.

(** [dist[t] = dist.get(t, 0) + 1] *)
Definition bump (t : str) (dist : dict Z) : dict Z :=
  set t ((match get t dist with Some n => n | None => 0 end) + 1) dist.

Definition _get_entity_type_distribution (kg : KnowledgeGraph) : dict Z :=
  fold_left (fun dist ne => bump (entity_type_value (entity_type (snd ne))) dist)
            (entities kg) [].

Definition _get_relation_type_distribution (kg : KnowledgeGraph) : dict Z :=
  fold_left (fun dist rel => bump (relation_type_value (relation_type rel)) dist)
            (relationships kg) [].

(** [G.number_of_nodes()], and [G.number_of_edges()], which networkx
    computes as half the sum of the degrees (in plus out) of the nodes. *)
Definition number_of_nodes (G : DiGraph) : Z := len (_node G).

Definition degree_sum (a : dict (dict EdgeData)) : Z :=
  fold_right Z.add 0 (map (fun kv => len (snd kv)) a).

Definition number_of_edges (G : DiGraph) : Z :=
  (degree_sum (_succ G) + degree_sum (_pred G)) / 2.

Record Stats := mkStats {
  stat_nodes : Z;
  stat_edges : Z;
  stat_entity_types : dict Z;
  stat_relation_types : dict Z
}.

Definition get_stats (kg : KnowledgeGraph) : Stats :=
  mkStats (number_of_nodes (graph kg)) (number_of_edges (graph kg))
          (_get_entity_type_distribution kg)
          (_get_relation_type_distribution kg).

(** *** [KnowledgeGraph.save] and [KnowledgeGraph.load] *)

(** A row of [entities.json] and of [relationships.json], read with
    [e["name"]], [e["type"]], [e.get("description", "")],
    [e.get("chapter", "")]. *)
Record EntityRow := mkEntityRow {
  row_name : option str;
  row_type : option str;
  row_description : option str;
  row_chapter : option str
}.

Record RelationRow := mkRelationRow {
  row_source : str; row_target : str; row_rel_type : str; row_rel_description : str
}.

(** The output directory, with the three files as their readers see them
    ([nx.read_graphml] for the first, [json.load] for the others): absent,
    present but rejected by the reader, or present with the data read. *)
Record GraphDir := mkGraphDir {
  graphml : Store.file DiGraph;
  entities_json : Store.file (list EntityRow);
  relationships_json : Store.file (list RelationRow)
}.

Definition KeyError (key : str) : exn := Exn (u "KeyError") key.
Definition NotAnEntityType (value : str) : exn := Exn (u "ValueError") value.

Definition all_entity_types : list EntityType :=
  [CONCEPT; MENTAL_MODEL; PRINCIPLE; PERSON; COMPANY; CASE_STUDY; BOOK;
   DISCIPLINE; COGNITIVE_BIAS].

(** [EntityType(value)]: the member with that value, or [ValueError]. *)
Definition entity_type_of_value (value : str) : result EntityType :=
  match find (fun t => str_eqb value (entity_type_value t)) all_entity_types with
  | Some t => Ok t
  | None => Raise (NotAnEntityType value)
  end.

Definition values {V} (d : dict V) : list V := map snd d.

Definition entity_row (e : Entity) : EntityRow :=
  mkEntityRow (Some (name e)) (Some (entity_type_value (entity_type e)))
              (Some (description e)) (Some (source_chapter e)).

Definition relation_row (r : Relationship) : RelationRow :=
  mkRelationRow (source r) (target r) (relation_type_value (relation_type r))
                (rel_description r).

Definition or_empty (o : option str) : str :=
  match o with Some s => s | None => [] end.

Definition entity_of_row (e : EntityRow) : result Entity :=
  match row_name e with
  | None => Raise (KeyError (u "name"))
  | Some n =>
      match row_type e with
      | None => Raise (KeyError (u "type"))
      | Some t =>
          bind (entity_type_of_value t) (fun ty =>
          Ok (mkEntity n ty (or_empty (row_description e))
                       (or_empty (row_chapter e)) []))
      end
  end.

(** The loop [for e in entities_data: ... self.entities[entity.name] = entity]:
    the outcome and the dictionary as the loop leaves it, with the rows
    before a bad one already in. *)
Fixpoint load_entities (rows : list EntityRow) (ents : dict Entity)
    : result unit * dict Entity :=
  match rows with
  | [] => (Ok tt, ents)
  | e :: rest =>
      match entity_of_row e with
      | Ok entity => load_entities rest (set (name entity) entity ents)
      | Raise x => (Raise x, ents)
      end
  end.

(** The last message of [save] and of [load]: the path is put into the
    markup as it is. *)
Definition saved_markup (output_dir : str) : str :=
  u "[green]图谱已保存到 " ++ output_dir ++ u "[/green]".

Definition loaded_markup (input_dir : str) : str :=
  u "[green]图谱已从 " ++ input_dir ++ u " 加载[/green]".

Section Persist.

(** [nx.write_graphml] on a digraph: its outcome, and the file it leaves as
    [nx.read_graphml] will see it. Neither is sure: the writer rejects some
    values, and text that XML cannot carry is written by some writers and
    then rejected by the parser. *)
Variable write_graphml : DiGraph -> result unit * Store.file DiGraph.

(** [console.print] of the [rich] library, which raises on markup it cannot
    render. *)
Variable console_print : str -> result unit.

(** [save]: the outcome and the directory afterwards. The graph file is
    written first; the two lists follow when that raised nothing, and
    [json.load] reads from each file the list [json.dump] was given. *)
Definition save (kg : KnowledgeGraph) (output_dir : str) (d : GraphDir)
    : result unit * GraphDir :=
  let '(written, graphml_file) := write_graphml (graph kg) in
  match written with
  | Raise e =>
      (Raise e, mkGraphDir graphml_file (entities_json d) (relationships_json d))
  | Ok _ =>
      (console_print (saved_markup output_dir),
       mkGraphDir graphml_file
                  (Store.Contents (map entity_row (values (entities kg))))
                  (Store.Contents (map relation_row (relationships kg))))
  end.

(** [load]: the outcome and the graph object afterwards. The graph file and
    the entity file are read when they exist; the relationship file is not
    read. *)
Definition load (kg : KnowledgeGraph) (input_dir : str) (d : GraphDir)
    : result unit * KnowledgeGraph :=
  match graphml d with
  | Store.Unreadable e => (Raise e, kg)
  | graphml_file =>
      let g := match graphml_file with
               | Store.Contents G => G
               | _ => graph kg
               end in
      match entities_json d with
      | Store.Missing =>
          (console_print (loaded_markup input_dir),
           mkKG g (entities kg) (relationships kg))
      | Store.Unreadable e => (Raise e, mkKG g (entities kg) (relationships kg))
      | Store.Contents rows =>
          let '(outcome, ents) := load_entities rows (entities kg) in
          match outcome with
          | Raise e => (Raise e, mkKG g ents (relationships kg))
          | Ok _ =>
              (console_print (loaded_markup input_dir),
               mkKG g ents (relationships kg))
          end
      end
  end.

End Persist.

End GraphMore.

Module GraphMoreFacts.
Import Dict Graph DictFacts GraphFacts GraphExtra GraphMore.

Lemma get_absent {V} (s : str) (d : dict V) :
  (forall k v, In (k, v) d -> s <> k) -> get s d = None.
Proof.
  induction d as [| [k v] d IH]; intros H; simpl; [reflexivity |].
  destruct (str_eqb s k) eqn:E.
  - apply str_eqb_eq in E. exfalso. apply (H k v); [now left | exact E].
  - apply IH. intros k' v' Hin. apply (H k' v'). now right.
Qed.

(** X8: the two type maps of the extractor invert the [.value] of the
    enumerations: the value of a member is mapped back to that member, and a
    string that is the value of no member is mapped to the default, [CONCEPT]
    for entities and [RELATED_TO] for relations. *)
Theorem type_maps_invert_values :
  (forall t, _map_entity_type (entity_type_value t) = t)
  /\ (forall t, _map_relation_type (relation_type_value t) = t)
  /\ (forall s, (forall t, s <> entity_type_value t) ->
                _map_entity_type s = CONCEPT)
  /\ (forall s, (forall t, s <> relation_type_value t) ->
                _map_relation_type s = RELATED_TO).
Proof.
  repeat split.
  - intros t. destruct t; reflexivity.
  - intros t. destruct t; reflexivity.
  - intros s H. unfold _map_entity_type. rewrite get_absent; [reflexivity |].
    intros k v Hin.
    assert (Hk : Forall (fun kv => fst kv = entity_type_value (snd kv))
                        entity_type_map) by (repeat constructor).
    rewrite Forall_forall in Hk. specialize (Hk _ Hin). simpl in Hk.
    rewrite Hk. apply H.
  - intros s H. unfold _map_relation_type. rewrite get_absent; [reflexivity |].
    intros k v Hin.
    assert (Hk : Forall (fun kv => fst kv = relation_type_value (snd kv))
                        relation_type_map) by (repeat constructor).
    rewrite Forall_forall in Hk. specialize (Hk _ Hin). simpl in Hk.
    rewrite Hk. apply H.
Qed.

Definition total (dist : dict Z) : Z := fold_right Z.add 0 (map snd dist).

Lemma total_set (k : str) (v : Z) (d : dict Z) :
  total (set k v d)
  = total d - (match get k d with Some n => n | None => 0 end) + v.
Proof.
  unfold total. induction d as [| [k0 v0] d IH]; simpl.
  - lia.
  - destruct (str_eqb k k0); simpl; lia.
Qed.

Lemma total_bump (k : str) (d : dict Z) : total (bump k d) = total d + 1.
Proof. unfold bump. rewrite total_set. lia. Qed.

Lemma total_fold {A} (f : A -> str) (l : list A) : forall d,
  total (fold_left (fun dist a => bump (f a) dist) l d) = total d + len l.
Proof.
  induction l as [| a l IH]; intros d; simpl.
  - unfold len. simpl. lia.
  - rewrite IH, total_bump. unfold len. simpl length. lia.
Qed.

(** X9: the counts of the two distributions of [get_stats] add up to the
    number of entities and to the number of stored relationships. *)
Theorem distributions_count_everything (kg : KnowledgeGraph) :
  total (stat_entity_types (get_stats kg)) = len (entities kg)
  /\ total (stat_relation_types (get_stats kg)) = len (relationships kg).
Proof.
  unfold get_stats, _get_entity_type_distribution,
    _get_relation_type_distribution. cbn [stat_entity_types stat_relation_types].
  split.
  - rewrite (total_fold (fun ne => entity_type_value (entity_type (snd ne)))).
    reflexivity.
  - rewrite (total_fold (fun rel => relation_type_value (relation_type rel))).
    reflexivity.
Qed.

Lemma degree_sum_set (k : str) (v : dict EdgeData) (a : dict (dict EdgeData)) :
  degree_sum (set k v a) = degree_sum a - len (adj a k) + len v.
Proof.
  unfold degree_sum, adj. induction a as [| [k0 v0] a IH]; simpl.
  - unfold len. simpl. lia.
  - destruct (str_eqb k k0); cbn [map fold_right snd]; lia.
Qed.

Lemma len_set_le {V} (k : str) (v : V) (d : dict V) :
  len d <= len (set k v d) <= len d + 1.
Proof.
  unfold len. rewrite <- (length_map fst (set k v d)), <- (length_map fst d).
  fold (keys (set k v d)). fold (keys d). rewrite keys_set.
  destruct (mem k d); [lia |]. rewrite length_app. simpl. lia.
Qed.

Lemma degree_sum_touch (G : DiGraph) (n : str) :
  well_formed G ->
  degree_sum (_succ (touch_node G n)) = degree_sum (_succ G)
  /\ degree_sum (_pred (touch_node G n)) = degree_sum (_pred G).
Proof.
  intros W. unfold touch_node. destruct (mem n (_succ G)) eqn:E;
    [split; reflexivity |].
  assert (Ep : mem n (_pred G) = false)
    by (rewrite (wf_pred G W), <- (wf_succ G W); exact E).
  cbn [_succ _pred]. rewrite !degree_sum_set. unfold adj, mem in *.
  destruct (get n (_succ G)); [discriminate |].
  destruct (get n (_pred G)); [discriminate |].
  unfold len. simpl. lia.
Qed.

(** The entity dictionary of a built graph: distinct keys, each the name of
    its entity. *)
Definition entities_keyed (kg : KnowledgeGraph) : Prop :=
  NoDup (keys (entities kg))
  /\ Forall (fun ke => fst ke = name (snd ke)) (entities kg).

Lemma Forall_set {V} (P : str * V -> Prop) (k : str) (v : V) (d : dict V) :
  P (k, v) -> Forall P d -> Forall P (set k v d).
Proof.
  intros Hk. induction 1 as [| [k0 v0] d H0 Hd IH]; simpl.
  - now repeat constructor.
  - destruct (str_eqb k k0) eqn:E.
    + apply str_eqb_eq in E. subst k0. now constructor.
    + now constructor.
Qed.

(** Half the degree sum stays within the number of relationships. *)
Definition edges_bounded (kg : KnowledgeGraph) : Prop :=
  0 <= degree_sum (_succ (graph kg)) <= len (relationships kg)
  /\ 0 <= degree_sum (_pred (graph kg)) <= len (relationships kg).

Lemma degree_sum_nonneg (a : dict (dict EdgeData)) : 0 <= degree_sum a.
Proof.
  unfold degree_sum. induction a as [| kv a IH]; cbn [map fold_right]; [lia |].
  apply Z.add_nonneg_nonneg; [apply Nat2Z.is_nonneg | exact IH].
Qed.

Lemma apply_op_counts (kg : KnowledgeGraph) (o : op) :
  well_formed (graph kg) -> entities_keyed kg /\ edges_bounded kg ->
  entities_keyed (apply_op kg o) /\ edges_bounded (apply_op kg o).
Proof.
  intros W [[Hnd Hk] [Hs Hp]]. destruct o as [e | r].
  - cbn [apply_op]. unfold add_entity, entities_keyed, edges_bounded.
    cbn [entities graph relationships]. repeat split.
    + now apply keys_set_NoDup.
    + now apply Forall_set.
    + apply degree_sum_nonneg.
    + unfold add_node. cbn [_succ].
      destruct (degree_sum_touch _ (name e) W) as [-> _]. apply Hs.
    + apply degree_sum_nonneg.
    + unfold add_node. cbn [_pred].
      destruct (degree_sum_touch _ (name e) W) as [_ ->]. apply Hp.
  - cbn [apply_op]. unfold add_relationship, entities_keyed, edges_bounded.
    cbn [entities graph relationships].
    pose proof (touch_node_well_formed _ (source r) W) as W1.
    destruct (degree_sum_touch _ (source r) W) as [Es1 Ep1].
    destruct (degree_sum_touch _ (target r) W1) as [Es2 Ep2].
    unfold add_edge. cbn [_succ _pred]. rewrite !degree_sum_set, Es2, Ep2, Es1, Ep1.
    rewrite ChunkerFacts.len_app.
    change (len [r]) with 1.
    match goal with
    | |- context [len (set (target r) ?d ?l)] =>
        pose proof (len_set_le (target r) d l) as L1
    end.
    match goal with
    | |- context [len (set (source r) ?d ?l)] =>
        pose proof (len_set_le (source r) d l) as L2
    end.
    pose proof (degree_sum_nonneg (_succ (graph kg))).
    pose proof (degree_sum_nonneg (_pred (graph kg))).
    repeat split; try assumption; lia.
Qed.

Lemma run_counts_from (ops : list op) : forall kg,
  well_formed (graph kg) -> entities_keyed kg /\ edges_bounded kg ->
  entities_keyed (fold_left apply_op ops kg)
  /\ edges_bounded (fold_left apply_op ops kg).
Proof.
  induction ops as [| o ops IH]; intros kg W H; simpl; [exact H |].
  apply IH; [now apply apply_op_well_formed | now apply apply_op_counts].
Qed.

Lemma run_counts (ops : list op) :
  entities_keyed (run ops) /\ edges_bounded (run ops).
Proof.
  apply run_counts_from; [apply well_formed_empty |].
  split; [split; constructor |]. unfold edges_bounded. simpl.
  unfold degree_sum, len. simpl. lia.
Qed.

(** X10: in the statistics of a graph built by the two operations, the
    number of nodes is at least the number of entities, and the number of
    edges is at most the number of stored relationships (and not
    negative). *)
Theorem get_stats_bounds (ops : list op) :
  let kg := run ops in
  len (entities kg) <= stat_nodes (get_stats kg)
  /\ 0 <= stat_edges (get_stats kg) <= len (relationships kg).
Proof.
  cbn zeta. destruct (run_counts ops) as [[Hnd _] [Hs Hp]].
  unfold get_stats. cbn [stat_nodes stat_edges]. split.
  - unfold number_of_nodes, len. apply inj_le.
    rewrite <- (length_map fst (entities (run ops))).
    rewrite <- (length_map fst (_node (graph (run ops)))).
    apply NoDup_incl_length; [exact Hnd |]. intros k Hk.
    destruct (run_invariant_from ops empty_kg) as [_ [_ Hin]].
    { split; [intros n; reflexivity |].
      split; [intros r [] | intros n H; discriminate H]. }
    apply mem_keys. apply Hin. now apply mem_keys.
  - unfold number_of_edges. split.
    + apply Z.div_pos; lia.
    + apply Z.div_le_upper_bound; lia.
Qed.

Definition without_attributes (e : Entity) : Entity :=
  mkEntity (name e) (entity_type e) (description e) (source_chapter e) [].

Lemma entity_type_of_value_value (t : EntityType) :
  entity_type_of_value (entity_type_value t) = Ok t.
Proof. destruct t; reflexivity. Qed.

Lemma entity_of_row_entity_row (e : Entity) :
  entity_of_row (entity_row e) = Ok (without_attributes e).
Proof.
  unfold entity_of_row, entity_row. cbn [row_name row_type row_description
    row_chapter or_empty]. now rewrite entity_type_of_value_value.
Qed.

Lemma set_absent {V} (k : str) (v : V) (d : dict V) :
  mem k d = false -> set k v d = d ++ [(k, v)].
Proof.
  unfold mem. induction d as [| [k0 v0] d IH]; simpl; [reflexivity |].
  destruct (str_eqb k k0); [discriminate |]. intros H. now rewrite IH.
Qed.

Lemma mem_app {V} (k : str) (a b : dict V) : mem k (a ++ b) = mem k a || mem k b.
Proof.
  unfold mem. induction a as [| [k0 v0] a IH]; simpl; [reflexivity |].
  destruct (str_eqb k k0); [reflexivity | exact IH].
Qed.

Lemma load_entities_fresh (l : dict Entity) : forall acc,
  NoDup (keys l) ->
  Forall (fun ke => fst ke = name (snd ke)) l ->
  (forall k, In k (keys l) -> mem k acc = false) ->
  load_entities (map entity_row (values l)) acc
  = (Ok tt, acc ++ map (fun ke => (fst ke, without_attributes (snd ke))) l).
Proof.
  induction l as [| [k e] l IH]; intros acc Hnd Hk Hfresh; simpl.
  - now rewrite app_nil_r.
  - rewrite entity_of_row_entity_row. cbn [without_attributes name].
    inversion Hnd as [| ? ? Hnotin Hnd']; subst.
    inversion Hk as [| ? ? Hke Hk']; subst. simpl in Hke. subst k.
    rewrite set_absent by (apply Hfresh; now left).
    unfold values in IH. rewrite IH; try assumption.
    + now rewrite <- app_assoc.
    + intros k' Hk'in. rewrite mem_app, (Hfresh k') by now right.
      simpl. unfold mem. simpl.
      destruct (str_eqb k' (name e)) eqn:E; [| reflexivity].
      apply str_eqb_eq in E. subst k'. contradiction.
Qed.

(** X11: [save] of a graph built by the two operations, when it raises
    nothing, leaves the three files: the graph file as the GraphML writer
    left it, and the two lists. [load] of that directory into a new graph
    then raises what [nx.read_graphml] raises on the graph file, with
    nothing loaded; when the file can be read, [load] takes the digraph
    read, brings back the entities, under their names and in their order,
    with their type, description and chapter but without their attributes,
    and ends with its message, whose outcome is its own. The relationships,
    although saved, are not read back: the list of the loaded graph is
    empty. *)
Theorem save_load_entities_only
    (write_graphml : DiGraph -> result unit * Store.file DiGraph)
    (console_print : str -> result unit)
    (ops : list op) (output_dir input_dir : str) (d d' : GraphDir)
    (Hsave : save write_graphml console_print (run ops) output_dir d
             = (Ok tt, d')) :
  let restored :=
    map (fun ke => (fst ke, without_attributes (snd ke))) (entities (run ops)) in
  d' = mkGraphDir (snd (write_graphml (graph (run ops))))
                  (Store.Contents (map entity_row (values (entities (run ops)))))
                  (Store.Contents (map relation_row (relationships (run ops))))
  /\ (forall e, graphml d' = Store.Unreadable e ->
        load console_print empty_kg input_dir d' = (Raise e, empty_kg))
  /\ (forall G, graphml d' = Store.Contents G ->
        load console_print empty_kg input_dir d'
        = (console_print (loaded_markup input_dir), mkKG G restored []))
  /\ (graphml d' = Store.Missing ->
      load console_print empty_kg input_dir d'
      = (console_print (loaded_markup input_dir),
         mkKG (graph empty_kg) restored [])).
Proof.
  cbv zeta. destruct (run_counts ops) as [[Hnd Hk] _].
  assert (Hd : d' = mkGraphDir (snd (write_graphml (graph (run ops))))
                 (Store.Contents (map entity_row (values (entities (run ops)))))
                 (Store.Contents (map relation_row (relationships (run ops))))).
  { unfold save in Hsave.
    destruct (write_graphml (graph (run ops))) as [[[] | e] f];
      [| discriminate Hsave].
    injection Hsave as _ <-. reflexivity. }
  split; [exact Hd |].
  assert (Hrows : load_entities (map entity_row (values (entities (run ops))))
                                (entities empty_kg)
                  = (Ok tt, map (fun ke => (fst ke, without_attributes (snd ke)))
                                (entities (run ops)))).
  { rewrite load_entities_fresh; try assumption; [reflexivity |].
    intros k _. reflexivity. }
  rewrite Hd. cbn [graphml]. unfold load. cbn [graphml entities_json].
  split; [| split].
  - intros e ->. reflexivity.
  - intros G ->. rewrite Hrows. reflexivity.
  - intros ->. rewrite Hrows. reflexivity.
Qed.

(** A GraphML library that writes every digraph and reads it back as it
    was. *)
Definition faithful_graphml (G : DiGraph) : result unit * Store.file DiGraph :=
  (Ok tt, Store.Contents G).

Definition silent_console (markup : str) : result unit := Ok tt.

Definition empty_dir : GraphDir :=
  mkGraphDir Store.Missing Store.Missing Store.Missing.

(** An entity with an attribute and a relationship between two names that
    are not entities. *)
Definition saved_ops : list op :=
  [AddEntity (mkEntity (u "能力圈") CONCEPT (u "desc") (u "ch")
                       [(u "rank", 1%Q)]);
   AddRelationship dangling].

Lemma save_load_entities_only_witness :
  load silent_console empty_kg (u "out")
       (snd (save faithful_graphml silent_console (run saved_ops) (u "out")
                  empty_dir))
  = (Ok tt,
     mkKG (graph (run saved_ops))
          [(u "能力圈", mkEntity (u "能力圈") CONCEPT (u "desc") (u "ch") [])]
          []).
Proof.
  destruct (save_load_entities_only faithful_graphml silent_console
              saved_ops (u "out") (u "out") empty_dir
              (snd (save faithful_graphml silent_console
                         (run saved_ops) (u "out") empty_dir))
              eq_refl) as (_ & _ & Hread & _).
  exact (Hread (graph (run saved_ops)) eq_refl).
Defined.

(** A description with a character XML cannot carry: a writer that lets it
    through leaves a file the parser rejects, and [load] raises. *)
Definition ParseError : exn := Exn (u "ParseError") (u "not well-formed").

Definition lenient_graphml (G : DiGraph) : result unit * Store.file DiGraph :=
  (Ok tt, Store.Unreadable ParseError).

Example load_raises_on_unreadable_graphml :
  let kg := run [AddEntity (mkEntity (u "A") CONCEPT [1%N] (u "ch") [])] in
  let saved := save lenient_graphml silent_console kg (u "out") empty_dir in
  fst saved = Ok tt
  /\ load silent_console empty_kg (u "out") (snd saved) = (Raise ParseError, empty_kg).
Proof. split; reflexivity. Qed.

End GraphMoreFacts.

(** ** More on the vector store *)

Module StoreExtra.
Import Chunker Store SearchFacts.

(** X12: a store that has a matrix is restored by [load] from what [save]
    wrote, whatever the directory held before and whatever the loading store
    held; a store without a matrix saved into an empty directory leaves it
    unloadable: [load] answers false and keeps the loading store. *)
Theorem save_then_load (vs vs0 : VectorStore) (d : directory) (m : list vec)
    (Hm : embeddings vs = Some m) :
  load vs0 (save vs d) = (Ok true, vs)
  /\ (forall cs c0, load vs0 (save (mkStore cs None) (mkDir c0 Missing))
                    = (Ok false, vs0)).
Proof.
  destruct vs as [cs em]. simpl in Hm. subst em. split; reflexivity.
Qed.

Lemma save_then_load_witness :
  load (mkStore [] None) (save tied_store (mkDir Missing Missing))
  = (Ok true, tied_store).
Proof.
  apply (save_then_load tied_store (mkStore [] None) (mkDir Missing Missing)
           [[1%Q; 0%Q]; [1%Q; 0%Q]]).
  reflexivity.
Defined.

Definition backend_down : exn := Exn (u "ConnectionError") (u "backend down").

(** X13: before an index is built or loaded, and on an index without
    chunks, [search] returns the empty list without calling the embedding
    backend: the answer is the same for a backend that raises. *)
Theorem search_without_index_is_empty
    (_embed_texts : list str -> result (list vec)) (norm : vec -> Q)
    (argsort : list Q -> list nat)
    (vs : VectorStore) (query : str) (top_k : Z)
    (H : embeddings vs = None \/ chunks vs = []) :
  search _embed_texts norm argsort vs query top_k = Ok [].
Proof.
  unfold search. destruct H as [-> | ->]; [reflexivity |].
  destruct (embeddings vs); reflexivity.
Qed.

Lemma search_without_index_is_empty_witness :
  search (fun _ => Raise backend_down) sum_norm insertion_argsort
         (mkStore [] (Some [])) (u "q") 5 = Ok [].
Proof.
  apply (search_without_index_is_empty (fun _ => Raise backend_down) sum_norm
           insertion_argsort (mkStore [] (Some [])) (u "q") 5).
  right. reflexivity.
Defined.

Lemma mapM_firstn {A B} (f : A -> result B) (n : nat) : forall l bs,
  mapM f l = Ok bs -> mapM f (firstn n l) = Ok (firstn n bs).
Proof.
  induction n as [| n IH]; intros l bs H; [reflexivity |].
  destruct l as [| a l]; simpl in *.
  - injection H as <-. reflexivity.
  - destruct (f a) as [b | e]; simpl in *; [| discriminate].
    destruct (mapM f l) as [bs' | e] eqn:Em; simpl in *; [| discriminate].
    injection H as <-. rewrite (IH l bs' Em). reflexivity.
Qed.

(** X14: asking for fewer results gives a prefix: for
    [0 <= top_k <= top_k'], the results of [search] with [top_k] are the
    first [top_k] results of [search] with [top_k']. *)
Theorem search_smaller_top_k_is_prefix
    (_embed_texts : list str -> result (list vec)) (norm : vec -> Q)
    (argsort : list Q -> list nat)
    (vs : VectorStore) (query : str) (top_k top_k' : Z)
    (results' : list (TextChunk * Q))
    (Hk : 0 <= top_k <= top_k')
    (Hres : search _embed_texts norm argsort vs query top_k' = Ok results') :
  search _embed_texts norm argsort vs query top_k
  = Ok (firstn (Z.to_nat top_k) results').
Proof.
  unfold search in *. destruct (embeddings vs) as [m |].
  2:{ injection Hres as <-. now rewrite firstn_nil. }
  destruct (len (chunks vs) =? 0).
  { injection Hres as <-. now rewrite firstn_nil. }
  destruct (_embed_texts [query]) as [[| qe rest] | e]; simpl in *;
    try discriminate.
  destruct (similarities_of norm m qe) as [sims | e]; simpl in *;
    [| discriminate].
  unfold top_indices_of, slice_to in *.
  replace (0 <=? top_k) with true by (symmetry; apply Z.leb_le; lia).
  replace (0 <=? top_k') with true in Hres by (symmetry; apply Z.leb_le; lia).
  replace (firstn (Z.to_nat top_k) (rev (argsort sims)))
    with (firstn (Z.to_nat top_k)
                 (firstn (Z.to_nat top_k') (rev (argsort sims)))).
  - now apply mapM_firstn.
  - rewrite firstn_firstn. f_equal. lia.
Qed.

Lemma search_smaller_top_k_is_prefix_witness :
  exists results',
    search unit_embed sum_norm insertion_argsort three_units (u "q") 3
    = Ok results'
    /\ search unit_embed sum_norm insertion_argsort three_units (u "q") 1
       = Ok (firstn 1 results').
Proof.
  eexists. split; [reflexivity |].
  apply (search_smaller_top_k_is_prefix unit_embed sum_norm insertion_argsort
           three_units (u "q") 1 3); [lia | reflexivity].
Defined.

Lemma slice_to_length {A} (k : Z) (l : list A) :
  len (slice_to k l)
  = if 0 <=? k then Z.min k (len l) else Z.max 0 (len l + k).
Proof.
  unfold slice_to, len. destruct (0 <=? k) eqn:E.
  - apply Z.leb_le in E. rewrite length_firstn. lia.
  - apply Z.leb_gt in E. rewrite length_firstn. lia.
Qed.

Section Built.

Variable _embed_texts : list str -> result (list vec).
Variable norm : vec -> Q.
Variable argsort : list Q -> list nat.

(** X15: on a built index, [search] returns as many results as
    [chunks[:top_k]] has elements: [min(top_k, n)] for [top_k >= 0] and
    [max(0, n + top_k)] for a negative [top_k], where [n] is the number of
    chunks. *)
Theorem search_result_count
    (Hsort : sorts argsort)
    (vs : VectorStore) (query : str) (top_k : Z)
    (m : list vec) (query_embedding : vec) (others : list vec)
    (Hm : embeddings vs = Some m)
    (Hne : chunks vs <> [])
    (Hrows : length m = length (chunks vs))
    (Hq : _embed_texts [query] = Ok (query_embedding :: others))
    (Hdim : Forall (fun row => length row = length query_embedding) m) :
  exists results,
    search _embed_texts norm argsort vs query top_k = Ok results
    /\ len results
       = if 0 <=? top_k then Z.min top_k (len (chunks vs))
         else Z.max 0 (len (chunks vs) + top_k).
Proof.
  unfold search. rewrite Hm.
  destruct (len (chunks vs) =? 0) eqn:E.
  { apply Z.eqb_eq in E. unfold len in E. destruct (chunks vs); [easy |].
    simpl in E. lia. }
  rewrite Hq. cbn [bind]. unfold similarities_of.
  destruct (np_dot_ok (map (normalize norm) m)
                      (normalize norm query_embedding)) as (sims & Hs & Hl).
  { rewrite Forall_map. eapply Forall_impl; [| exact Hdim].
    intros row Hrow. unfold normalize. rewrite !length_map. exact Hrow. }
  rewrite Hs. cbn [bind]. rewrite length_map in Hl.
  destruct (Hsort sims) as [Hp _].
  destruct (mapM_total
              (fun idx => match nth_error (chunks vs) idx with
                          | Some c => Ok (c, nth idx sims 0%Q)
                          | None => Raise IndexError
                          end)
              (top_indices_of argsort sims top_k)) as [results Hres].
  { intros idx Hidx. apply In_slice_to, in_rev in Hidx.
    apply (Permutation_in _ Hp), in_seq in Hidx.
    destruct (nth_error (chunks vs) idx) as [c |] eqn:En; [eauto |].
    apply nth_error_None in En. lia. }
  exists results. split; [exact Hres |].
  apply mapM_Forall2, Forall2_length in Hres.
  unfold len at 1. rewrite <- Hres. fold (len (top_indices_of argsort sims top_k)).
  unfold top_indices_of. rewrite slice_to_length.
  replace (len (rev (argsort sims))) with (len (chunks vs)); [reflexivity |].
  unfold len. rewrite length_rev, (Permutation_length Hp), length_seq. lia.
Qed.

(** X16: every result of [search] is a chunk of the store, and when the
    chunks carry their position as index (as the chunks of [_split_text]
    do) no chunk is returned twice. *)
Theorem search_results_are_distinct_chunks
    (Hsort : sorts argsort)
    (vs : VectorStore) (query : str) (top_k : Z)
    (results : list (TextChunk * Q))
    (Hpos : forall i c, nth_error (chunks vs) i = Some c -> index c = Z.of_nat i)
    (Hres : search _embed_texts norm argsort vs query top_k = Ok results) :
  Forall (fun r => In (fst r) (chunks vs)) results
  /\ NoDup (map (fun r => index (fst r)) results).
Proof.
  destruct (search_results _ _ _ _ _ _ _ Hres) as [-> | [sims HF]];
    [split; constructor |].
  assert (Hnd : NoDup (top_indices_of argsort sims top_k)).
  { unfold top_indices_of.
    destruct (slice_to_firstn top_k (rev (argsort sims))) as (n & -> & _).
    destruct (Hsort sims) as [Hp _].
    assert (Hr : NoDup (rev (argsort sims))).
    { apply NoDup_rev. eapply Permutation_NoDup; [symmetry; exact Hp |].
      apply seq_NoDup. }
    rewrite <- (firstn_skipn n (rev (argsort sims))) in Hr.
    now apply NoDup_app_remove_r in Hr. }
  assert (Hgen : forall l rs,
             Forall2 (fun idx r =>
                        exists c, nth_error (chunks vs) idx = Some c
                                  /\ r = (c, key sims idx)) l rs ->
             map (fun r => index (fst r)) rs = map Z.of_nat l
             /\ Forall (fun r => In (fst r) (chunks vs)) rs).
  { induction 1 as [| idx r l rs (c & Hc & ->) HF' [IH1 IH2]].
    - split; constructor.
    - split.
      + cbn [map fst]. rewrite IH1, (Hpos _ _ Hc). reflexivity.
      + constructor; [| exact IH2]. cbn [fst]. eapply nth_error_In, Hc. }
  destruct (Hgen _ _ HF) as [Hmap Hall]. split; [exact Hall |].
  rewrite Hmap. apply Finite.Injective_map_NoDup; [| exact Hnd].
  intros a b Hab. now apply Nat2Z.inj.
Qed.

End Built.

Lemma search_result_count_witness :
  exists results,
    search unit_embed sum_norm insertion_argsort three_units (u "q") 7
    = Ok results
    /\ len results = 3.
Proof.
  apply (search_result_count unit_embed sum_norm insertion_argsort
           (sorts_stably_sorts _ insertion_argsort_stable)
           three_units (u "q") 7 [[1; 0]; [0; 1]; [9 # 10; 1 # 10]]%Q
           [1; 0]%Q []).
  - reflexivity.
  - discriminate.
  - reflexivity.
  - reflexivity.
  - repeat constructor.
Defined.

Lemma search_results_are_distinct_chunks_witness :
  exists results,
    search unit_embed sum_norm insertion_argsort three_units (u "q") 2
    = Ok results
    /\ Forall (fun r => In (fst r) (chunks three_units)) results
    /\ NoDup (map (fun r => index (fst r)) results).
Proof.
  destruct search_three_units as (s0 & s2 & Hs). eexists.
  split; [exact Hs |].
  apply (search_results_are_distinct_chunks unit_embed sum_norm
           insertion_argsort (sorts_stably_sorts _ insertion_argsort_stable)
           three_units (u "q") 2).
  - intros [| [| [| i]]] c H; simpl in H;
      try (injection H as <-; reflexivity).
    destruct i; discriminate H.
  - exact Hs.
Defined.

End StoreExtra.

(** ** More on the chunker of the vector store *)

Module ChunkerExtra.
Import Chunker ChunkerFacts MatcherFacts.

(** A string with a character that is not white space. *)
Definition has_ink (s : str) : bool := existsb (fun c => negb (is_space c)) s.

Lemma has_ink_app (a b : str) : has_ink (a ++ b) = has_ink a || has_ink b.
Proof. apply existsb_app. Qed.

Lemma has_ink_rev (s : str) : has_ink (rev s) = has_ink s.
Proof.
  unfold has_ink. induction s as [| c s IH]; simpl; [reflexivity |].
  rewrite existsb_app, IH. simpl. rewrite orb_false_r. apply orb_comm.
Qed.

Lemma lstrip_spec (s : str) :
  exists spaces, s = spaces ++ lstrip s /\ has_ink spaces = false
                 /\ match lstrip s with
                    | [] => True
                    | c :: _ => is_space c = false
                    end.
Proof.
  induction s as [| c s (spaces & Hs & Hsp & Hhd)]; simpl.
  - exists []. repeat split.
  - destruct (is_space c) eqn:E.
    + exists (c :: spaces). repeat split.
      * simpl. now rewrite <- Hs.
      * simpl. now rewrite E.
      * exact Hhd.
    + exists []. repeat split. exact E.
Qed.

Lemma has_ink_lstrip (s : str) : has_ink (lstrip s) = has_ink s.
Proof.
  destruct (lstrip_spec s) as (spaces & Hs & Hsp & _).
  rewrite Hs at 2. now rewrite has_ink_app, Hsp.
Qed.

Lemma lstrip_nil (s : str) : lstrip s = [] <-> has_ink s = false.
Proof.
  rewrite <- has_ink_lstrip. destruct (lstrip_spec s) as (spaces & _ & _ & Hhd).
  destruct (lstrip s) as [| c r]; split; try reflexivity; try discriminate.
  simpl. now rewrite Hhd.
Qed.

Lemma has_ink_strip (s : str) : has_ink (strip s) = has_ink s.
Proof.
  unfold strip, rstrip.
  now rewrite has_ink_rev, has_ink_lstrip, has_ink_rev, has_ink_lstrip.
Qed.

Lemma strip_nil (s : str) : strip s = [] <-> has_ink s = false.
Proof.
  rewrite <- has_ink_strip. split.
  - intros ->. reflexivity.
  - unfold strip, rstrip. rewrite has_ink_rev, has_ink_lstrip. intros H.
    apply lstrip_nil in H. now rewrite H.
Qed.

Lemma truthy_true (s : str) : truthy s = true <-> s <> [].
Proof. destruct s; simpl; split; congruence. Qed.

Lemma strip_ink (p : str) : truthy (strip p) = true -> has_ink (strip p) = true.
Proof.
  intros H. apply truthy_true in H.
  destruct (has_ink (strip p)) eqn:E; [reflexivity |].
  rewrite has_ink_strip in E. apply strip_nil in E. contradiction.
Qed.

(** The state of the paragraph loop: no chunk with an empty text so far, and
    a buffer that is empty or holds more than white space. *)
Definition inked (st : list TextChunk * str) : Prop :=
  Forall (fun c => text c <> []) (fst st)
  /\ (snd st = [] \/ has_ink (snd st) = true).

Lemma inked_emit (cs : list TextChunk) (cur ch : str) (i : Z) :
  Forall (fun c => text c <> []) cs -> has_ink cur = true ->
  Forall (fun c => text c <> []) (cs ++ [mkChunk (strip cur) ch i]).
Proof.
  intros H Hi. apply Forall_app. split; [exact H |].
  constructor; [| constructor]. simpl. intros E. apply strip_nil in E.
  congruence.
Qed.

Lemma add_paragraph_inked size ov ch st para :
  inked st -> inked (add_paragraph size ov ch st para).
Proof.
  destruct st as [cs cur]. intros [Hcs Hcur]. simpl in Hcs, Hcur.
  unfold add_paragraph.
  destruct (truthy (strip para)) eqn:Ep; cbn [negb]; [| now split].
  apply strip_ink in Ep.
  assert (Hnew : forall x, has_ink (x ++ strip para ++ nn) = true)
    by (intros x; rewrite !has_ink_app, Ep; apply orb_true_r).
  destruct (len cur + len (strip para) <? size).
  { split; [exact Hcs | right; apply Hnew]. }
  assert (Hcs' : Forall (fun c => text c <> [])
                   (if truthy cur
                    then cs ++ [mkChunk (strip cur) ch (len cs)] else cs)).
  { destruct cur as [| b cur']; [exact Hcs |]. cbn [truthy].
    apply inked_emit; [exact Hcs |]. destruct Hcur as [H | H]; [discriminate | exact H]. }
  destruct ((0 <? ov) && (ov <? len cur)); split; cbn [fst snd];
    try exact Hcs'; right; [apply Hnew | apply (Hnew [])].
Qed.

Lemma split_section_inked size ov ch acc section :
  Forall (fun c => text c <> []) acc ->
  Forall (fun c => text c <> []) (split_section size ov ch acc section).
Proof.
  intros H. unfold split_section.
  destruct (len (strip section) <? 50); [exact H |].
  assert (Hf : forall paras st,
             inked st -> inked (fold_left (add_paragraph size ov ch) paras st)).
  { induction paras as [| p paras IH]; intros st Hst; simpl; [exact Hst |].
    now apply IH, add_paragraph_inked. }
  specialize (Hf (split_nn (strip section)) (acc, [])).
  destruct (fold_left (add_paragraph size ov ch) (split_nn (strip section))
                      (acc, [])) as [cs cur].
  destruct Hf as [Hcs _]; [split; [exact H | now left] |]. cbn [fst] in Hcs.
  destruct (truthy (strip cur)) eqn:E; [| exact Hcs].
  apply Forall_app. split; [exact Hcs |]. constructor; [| constructor].
  simpl. now apply truthy_true.
Qed.

(** X17: the chunks [_split_text] returns are numbered by their position in
    the list, and none of them has an empty text. *)
Theorem split_text_chunks_numbered_and_not_empty
    (sections : list str) (chunk_size chunk_overlap : Z) :
  indexed (_split_text sections chunk_size chunk_overlap)
  /\ Forall (fun c => text c <> [])
            (_split_text sections chunk_size chunk_overlap).
Proof.
  split; [apply split_text_indexed |]. unfold _split_text.
  assert (H : forall i ch acc,
             Forall (fun c => text c <> []) acc ->
             Forall (fun c => text c <> [])
                    (split_sections chunk_size chunk_overlap sections i ch acc)).
  { induction sections as [| s rest IH]; intros i ch acc Hacc; simpl.
    - exact Hacc.
    - destruct (Nat.odd i); apply IH; [exact Hacc |].
      now apply split_section_inked. }
  apply H. constructor.
Qed.

(** A string that starts and ends with a character that is not white
    space. *)
Definition starts_inked (p : str) : Prop :=
  match p with [] => False | c :: _ => is_space c = false end.

Definition trimmed (p : str) : Prop := starts_inked p /\ starts_inked (rev p).

Lemma lstrip_starts_inked (s : str) : lstrip s <> [] -> starts_inked (lstrip s).
Proof.
  destruct (lstrip_spec s) as (spaces & _ & _ & Hhd).
  destruct (lstrip s); [congruence | intros _; exact Hhd].
Qed.

Lemma strip_trimmed (q : str) : strip q <> [] -> trimmed (strip q).
Proof.
  unfold strip, rstrip. intros H.
  set (y := lstrip q) in *. set (x := lstrip (rev y)) in *.
  assert (Hx : x <> []) by (intros E; apply H; now rewrite E).
  split.
  - destruct (lstrip_spec (rev y)) as (spaces & Hs & _ & _). fold x in Hs.
    assert (Hy : y = rev x ++ rev spaces).
    { rewrite <- (rev_involutive y), Hs, rev_app_distr. reflexivity. }
    assert (Hyne : y <> []).
    { intros E. rewrite E in Hy. destruct (rev x); [now apply H | discriminate]. }
    pose proof (lstrip_starts_inked q Hyne) as Hh. fold y in Hh.
    rewrite Hy in Hh. destruct (rev x); [now contradiction H | exact Hh].
  - rewrite rev_involutive. now apply lstrip_starts_inked.
Qed.

Lemma occurs_lstrip (p s : str) :
  starts_inked p -> occurs_in p s -> occurs_in p (lstrip s).
Proof.
  intros Hp (before & after & ->). destruct p as [| c p]; [destruct Hp |].
  simpl in Hp. induction before as [| b before IH]; simpl.
  - rewrite Hp. now exists [], after.
  - destruct (is_space b); [exact IH |].
    now exists (b :: before), after.
Qed.

Lemma occurs_rev (p s : str) : occurs_in p s -> occurs_in (rev p) (rev s).
Proof.
  intros (before & after & ->). exists (rev after), (rev before).
  now rewrite !rev_app_distr, app_assoc.
Qed.

Lemma occurs_strip (p s : str) : trimmed p -> occurs_in p s -> occurs_in p (strip s).
Proof.
  intros [Hf Hl] H. unfold strip, rstrip.
  rewrite <- (rev_involutive p). apply occurs_rev, occurs_lstrip; [exact Hl |].
  now apply occurs_rev, occurs_lstrip.
Qed.

Lemma occurs_nil (p : str) : occurs_in p [] -> p = [].
Proof.
  intros (before & after & H). symmetry in H.
  apply app_eq_nil in H. destruct H as [_ H]. now apply app_eq_nil in H.
Qed.

(** [p] is in the text of a chunk already made, or in the buffer. *)
Definition kept (p : str) (st : list TextChunk * str) : Prop :=
  (exists c, In c (fst st) /\ occurs_in p (text c)) \/ occurs_in p (snd st).

Lemma add_paragraph_keeps size ov ch st para p :
  trimmed p -> kept p st -> kept p (add_paragraph size ov ch st para).
Proof.
  destruct st as [cs cur]. intros Hp Hk. unfold add_paragraph.
  destruct (negb (truthy (strip para))); [exact Hk |].
  destruct (len cur + len (strip para) <? size).
  { destruct Hk as [Hk | (before & after & Hc)]; [now left | right].
    simpl in Hc. simpl. rewrite Hc. exists before, (after ++ strip para ++ nn).
    now rewrite <- !app_assoc. }
  assert (Hin : exists c, In c (if truthy cur
                                then cs ++ [mkChunk (strip cur) ch (len cs)]
                                else cs) /\ occurs_in p (text c)).
  { destruct Hk as [(c & Hc & Ho) | Ho]; simpl in *.
    - exists c. split; [| exact Ho].
      destruct (truthy cur); [apply in_or_app; now left | exact Hc].
    - destruct cur as [| b cur'].
      + apply occurs_nil in Ho. subst p. destruct Hp as [[] _].
      + cbn [truthy]. eexists. split; [apply in_or_app; right; now left |].
        simpl. now apply occurs_strip. }
  destruct ((0 <? ov) && (ov <? len cur)); left; exact Hin.
Qed.

Lemma add_paragraph_takes size ov ch st para :
  strip para <> [] -> kept (strip para) (add_paragraph size ov ch st para).
Proof.
  destruct st as [cs cur]. intros Hp. unfold add_paragraph.
  apply truthy_true in Hp. rewrite Hp. cbn [negb].
  destruct (len cur + len (strip para) <? size).
  { right. simpl. now exists cur, nn. }
  destruct ((0 <? ov) && (ov <? len cur)); right; simpl.
  - now exists (slice_from (- ov) cur), nn.
  - now exists [], nn.
Qed.

Lemma fold_keeps size ov ch paras : forall st p,
  trimmed p ->
  kept p st \/ (exists para, In para paras /\ strip para = p) ->
  kept p (fold_left (add_paragraph size ov ch) paras st).
Proof.
  induction paras as [| q paras IH]; intros st p Hp H; simpl.
  - destruct H as [H | (para & [] & _)]. exact H.
  - apply IH; [exact Hp |].
    destruct H as [H | (para & [<- | Hin] & Hs)].
    + left. now apply add_paragraph_keeps.
    + left. subst p. apply add_paragraph_takes. destruct Hp as [Hp _].
      destruct (strip q); [destruct Hp | discriminate].
    + right. now exists para.
Qed.

Lemma split_section_keeps_paragraph size ov ch acc section para :
  (len (strip section) <? 50) = false ->
  In para (split_nn (strip section)) -> strip para <> [] ->
  exists c, In c (split_section size ov ch acc section)
            /\ occurs_in (strip para) (text c).
Proof.
  intros Hlen Hin Hp. unfold split_section. rewrite Hlen.
  pose proof (fold_keeps size ov ch (split_nn (strip section)) (acc, [])
                (strip para) (strip_trimmed para Hp)) as Hk.
  destruct (fold_left (add_paragraph size ov ch) (split_nn (strip section))
                      (acc, [])) as [cs cur].
  destruct Hk as [(c & Hc & Ho) | Ho]; [right; now exists para | |].
  - exists c. split; [| exact Ho]. simpl in Hc.
    destruct (truthy (strip cur)); [apply in_or_app; now left | exact Hc].
  - simpl in Ho. apply (occurs_strip _ _ (strip_trimmed para Hp)) in Ho.
    destruct (strip cur) as [| b r] eqn:E.
    + apply occurs_nil in Ho. contradiction.
    + cbn [truthy]. eexists. split; [apply in_or_app; right; now left |].
      exact Ho.
Qed.

Lemma split_sections_keeps size ov sections i ch acc c :
  In c acc -> In c (split_sections size ov sections i ch acc).
Proof.
  intros H. rewrite split_sections_after. apply in_or_app. now left.
Qed.

Lemma split_sections_keeps_paragraph size ov sections : forall i ch acc k section para,
  nth_error sections k = Some section -> Nat.odd (k + i) = false ->
  (len (strip section) <? 50) = false ->
  In para (split_nn (strip section)) -> strip para <> [] ->
  exists c, In c (split_sections size ov sections i ch acc)
            /\ occurs_in (strip para) (text c).
Proof.
  induction sections as [| s rest IH]; intros i ch acc k section para Hn Hodd Hl Hin Hp.
  - destruct k; discriminate Hn.
  - destruct k as [| k]; simpl in Hn |- *.
    + injection Hn as ->. simpl in Hodd. rewrite Hodd.
      destruct (split_section_keeps_paragraph size ov ch acc section para Hl Hin Hp)
        as (c & Hc & Ho).
      exists c. split; [now apply split_sections_keeps | exact Ho].
    + replace (S k + i)%nat with (k + S i)%nat in Hodd by lia.
      destruct (Nat.odd i); eapply IH; eassumption.
Qed.

(** X18: paragraphs are kept whole. Every paragraph that is not blank, of
    a text section (an even position of the split) of at least 50
    characters, is found, stripped, inside the text of one of the chunks of
    [_split_text], whatever the chunk size and the overlap are. *)
Theorem split_text_keeps_every_paragraph
    (sections : list str) (chunk_size chunk_overlap : Z)
    (k : nat) (section para : str)
    (Hk : nth_error sections k = Some section)
    (Heven : Nat.even k = true)
    (Hlen : 50 <= len (strip section))
    (Hin : In para (split_nn (strip section)))
    (Hpara : strip para <> []) :
  exists c, In c (_split_text sections chunk_size chunk_overlap)
            /\ occurs_in (strip para) (text c).
Proof.
  unfold _split_text.
  apply (split_sections_keeps_paragraph chunk_size chunk_overlap sections
           0 (u "未知章节") [] k section para); try assumption.
  - rewrite Nat.add_0_r, <- Nat.negb_even, Heven. reflexivity.
  - apply Z.ltb_ge. exact Hlen.
Qed.

Lemma split_text_keeps_every_paragraph_witness :
  exists c, In c (_split_text [long_a; u "One"; long_b] 500 100)
            /\ occurs_in (strip long_b) (text c).
Proof.
  apply (split_text_keeps_every_paragraph [long_a; u "One"; long_b] 500 100
           2 long_b long_b).
  - reflexivity.
  - reflexivity.
  - vm_compute. discriminate.
  - left. reflexivity.
  - discriminate.
Defined.

End ChunkerExtra.

(** ** More on the hybrid query engine *)

Module HybridExtra.
Import Dict Chunker Store Graph Hybrid DictFacts.

Lemma enumerate_from_In {A} (l : list A) : forall s i a,
  In (i, a) (enumerate_from s l) ->
  s <= i < s + len l /\ nth_error l (Z.to_nat (i - s)) = Some a.
Proof.
  induction l as [| x l IH]; intros s i a H; simpl in H; [destruct H |].
  unfold len. cbn [length]. destruct H as [[= <- <-] | H].
  - rewrite Z.sub_diag. simpl. split; [lia | reflexivity].
  - apply IH in H. destruct H as [Hr Hn]. unfold len in Hr. split; [lia |].
    replace (Z.to_nat (i - s)) with (S (Z.to_nat (i - (s + 1)))) by lia.
    exact Hn.
Qed.

Lemma enumerate_from_sorted {A} (l : list A) : forall s,
  StronglySorted Z.lt (map fst (enumerate_from s l)).
Proof.
  induction l as [| x l IH]; intros s; simpl; constructor; [apply IH |].
  apply Forall_forall. intros i Hi. apply in_map_iff in Hi.
  destruct Hi as ([i' a] & <- & Hin). apply enumerate_from_In in Hin.
  simpl. lia.
Qed.

Lemma enumerate_from_length {A} (l : list A) : forall s,
  length (enumerate_from s l) = length l.
Proof. induction l as [| x l IH]; intros s; simpl; [| rewrite IH]; reflexivity. Qed.

Lemma StronglySorted_filter_map {A B} (R : B -> B -> Prop) (g : A -> B)
    (f : A -> bool) (l : list A) :
  StronglySorted R (map g l) -> StronglySorted R (map g (filter f l)).
Proof.
  induction l as [| a l IH]; simpl; intros H; [constructor |].
  inversion H as [| ? ? Hs Hf]; subst. destruct (f a); simpl; [| now apply IH].
  constructor; [now apply IH |]. rewrite Forall_forall in *.
  intros b Hb. apply Hf. apply in_map_iff in Hb.
  destruct Hb as (x & <- & Hx). apply filter_In in Hx.
  apply in_map. tauto.
Qed.

Lemma len_slice_to_le {A} (k : Z) (l : list A) : 0 <= k -> len (slice_to k l) <= k.
Proof.
  intros Hk. unfold slice_to, len.
  replace (0 <=? k) with true by (symmetry; now apply Z.leb_le).
  rewrite length_firstn. lia.
Qed.

(** X19: the citations keep the rank of the passage they quote. Each
    citation has the id [i + 1] of a retrieval result at position [i] whose
    score is above 0.3, with the chapter of its chunk, its score rounded,
    and a text of at most 303 characters; the ids are strictly increasing,
    so there are at most as many citations as results. *)
Theorem citations_keep_rank (vector_results : list (TextChunk * Q)) :
  let cs := _extract_citations vector_results in
  Forall (fun c =>
            exists chunk score,
              nth_error vector_results (Z.to_nat (c_id c - 1)) = Some (chunk, score)
              /\ 1 <= c_id c <= len vector_results
              /\ relevant score = true
              /\ c_chapter c = chapter chunk
              /\ c_score c = round3 score
              /\ len (c_text c) <= 303) cs
  /\ StronglySorted Z.lt (map c_id cs)
  /\ (length cs <= length vector_results)%nat.
Proof.
  cbn zeta. unfold _extract_citations. repeat split.
  - apply Forall_forall. intros c Hc. apply in_map_iff in Hc.
    destruct Hc as ([i [chunk score]] & <- & Hin). apply filter_In in Hin.
    destruct Hin as [Hin Hrel]. apply enumerate_from_In in Hin.
    destruct Hin as [Hr Hn]. exists chunk, score. cbn [c_id c_chapter c_score c_text].
    replace (i + 1 - 1) with (i - 0) by lia.
    repeat split; try assumption; try lia.
    destruct (300 <? len (text chunk)) eqn:E.
    + rewrite ChunkerFacts.len_app.
      pose proof (len_slice_to_le 300 (text chunk)). change (len (u "...")) with 3.
      lia.
    + apply Z.ltb_ge in E. lia.
  - rewrite map_map.
    set (g := fun ir : Z * (TextChunk * Q) => fst ir + 1).
    assert (Hg : forall l : list (Z * (TextChunk * Q)),
               map (fun x => c_id (let '(i, (chunk, score)) := x in
                                   mkCitation (i + 1) (chapter chunk)
                                     (if 300 <? len (text chunk)
                                      then slice_to 300 (text chunk) ++ u "..."
                                      else text chunk) (round3 score))) l
               = map g l).
    { intros l. apply map_ext. intros [i [chunk score]]. reflexivity. }
    rewrite Hg. apply StronglySorted_filter_map.
    pose proof (enumerate_from_sorted vector_results 0) as Hs.
    unfold g. rewrite <- (map_map fst (fun i => i + 1)).
    remember (map fst (enumerate_from 0 vector_results)) as ids. clear Heqids.
    induction Hs as [| i ids Hs IH Hf]; simpl; constructor; [exact IH |].
    rewrite Forall_map. eapply Forall_impl; [| exact Hf]. simpl. lia.
  - rewrite length_map. etransitivity; [apply filter_length_le |].
    now rewrite enumerate_from_length.
Qed.

(** X20: the matched entities are at most five, and each of them is an
    entity registered in the graph, given with the value of its type and its
    description, whose name shares with the question a character that is not
    one of the stop characters; without a graph there is none. *)
Theorem matched_entities_are_registered (kg : KnowledgeGraph) (question : str) :
  let ms := _get_matched_entities (Some kg) question in
  (length ms <= 5)%nat
  /\ Forall (fun m =>
              exists e, In (m_name m, e) (entities kg)
                        /\ m_type m = entity_type_value (entity_type e)
                        /\ m_description m = description e
                        /\ mentions question (m_name m) = true) ms
  /\ _get_matched_entities None question = [].
Proof.
  cbn zeta. unfold _get_matched_entities. repeat split.
  - pose proof (len_slice_to_le 5
                 (map (fun ne : str * Entity =>
                         mkMatched (fst ne)
                           (entity_type_value (entity_type (snd ne)))
                           (description (snd ne)))
                      (filter (fun ne => mentions question (fst ne))
                              (entities kg)))) as H.
    unfold len in H. lia.
  - apply Forall_forall. intros m Hm. apply SearchFacts.In_slice_to in Hm.
    apply in_map_iff in Hm. destruct Hm as ([k e] & <- & Hin).
    apply filter_In in Hin. destruct Hin as [Hin Hment]. exists e.
    cbn [m_name m_type m_description fst snd] in *. auto.
Qed.

Lemma join_space_length (parts : list str) :
  Forall (fun part => len part <= 100) parts -> parts <> [] ->
  len (join (u " ") parts) + 1 <= 101 * len parts.
Proof.
  induction 1 as [| part parts Hp Hf IH]; intros Hne; [contradiction |].
  destruct parts as [| q parts].
  - unfold len in *. simpl. simpl in Hp. lia.
  - change (join (u " ") (part :: q :: parts))
      with (part ++ u " " ++ join (u " ") (q :: parts)).
    rewrite !ChunkerFacts.len_app. change (len (u " ")) with 1.
    specialize (IH ltac:(discriminate)).
    unfold len in *. cbn [length] in *. lia.
Qed.

(** X21: the history cannot make the search query grow without bound: the
    query is never more than 404 characters longer than the question. *)
Theorem search_query_length_bounded (question : str)
    (history : option (list Message)) :
  len (_build_search_query question history) <= len question + 404.
Proof.
  unfold _build_search_query.
  destruct history as [[| m h] |]; try lia.
  set (window := slice_from (-4) (m :: h)).
  assert (Hw : (length window <= 4)%nat).
  { unfold window. rewrite QueryFacts.slice_from_m4, length_skipn. lia. }
  set (recent := map (fun msg => slice_to 100 (content_of msg))
                     (filter is_user window)).
  assert (Hlen : (length recent <= 4)%nat).
  { unfold recent. rewrite length_map.
    etransitivity; [apply filter_length_le | exact Hw]. }
  assert (Hall : Forall (fun part => len part <= 100) recent).
  { unfold recent. rewrite Forall_map. apply Forall_forall. intros msg _.
    apply len_slice_to_le. lia. }
  destruct recent as [| r recent'] eqn:E; [lia |].
  rewrite !ChunkerFacts.len_app. change (len (u " ")) with 1.
  pose proof (join_space_length (r :: recent') Hall ltac:(discriminate)) as Hj.
  unfold len, str in *. cbn [length] in *. lia.
Qed.

Lemma remove_tags_length (s : str) : forall skip,
  (length (remove_tags s skip) <= length s)%nat.
Proof.
  induction s as [| c s IH]; intros skip; simpl; [lia |].
  destruct skip as [| k]; [| specialize (IH k); lia].
  destruct (c =? 60)%N.
  - destruct s as [| d s'].
    + simpl. lia.
    + destruct (d =? 62)%N.
      * specialize (IH 0%nat). simpl in *. lia.
      * destruct (index_gt s') as [n |].
        -- specialize (IH (n + 2)%nat). lia.
        -- specialize (IH 0%nat). simpl in *. lia.
  - specialize (IH 0%nat). simpl. lia.
Qed.

Lemma history_line_length (msg : Message) : len (history_line msg) <= 310.
Proof.
  unfold history_line. cbv zeta. rewrite !ChunkerFacts.len_app.
  change (len (u "**")) with 2. change (len (u "**: ")) with 4.
  change (len nn) with 2.
  assert (Hrole : len (u "用户") = 2 /\ len (u "助手") = 2)
    by (split; reflexivity).
  destruct Hrole as [Hu Ha]. destruct (is_user msg); rewrite ?Hu, ?Ha;
  pose proof (remove_tags_length (slice_to 300 (content_of msg)) 0) as Hr;
  pose proof (len_slice_to_le 300 (content_of msg)) as Hs;
  unfold len, str in *; lia.
Qed.

Lemma concat_lines_length (lines : list str) :
  Forall (fun l => len l <= 310) lines -> len (concat lines) <= 310 * len lines.
Proof.
  induction 1 as [| l lines Hl Hf IH]; simpl.
  - unfold len. simpl. lia.
  - rewrite ChunkerFacts.len_app. unfold len, str in *. cbn [length]. lia.
Qed.

(** X22: the part of the prompt that quotes the conversation is bounded:
    whatever the length of the history and of its messages, it holds at most
    the last six messages, each cut to 300 characters, and is at most 1871
    characters long; without history it is empty. *)
Theorem history_text_bounded (history : option (list Message)) :
  len (history_text_of history) <= 1871
  /\ history_text_of None = [] /\ history_text_of (Some []) = [].
Proof.
  split; [| split; reflexivity].
  unfold history_text_of. destruct history as [[| m h] |];
    try (unfold len; simpl; lia).
  rewrite ChunkerFacts.len_app.
  set (window := slice_from (-6) (m :: h)).
  assert (Hw : (length window <= 6)%nat).
  { unfold window.
    change (slice_from (-6) (m :: h))
      with (skipn (length (m :: h) - 6) (m :: h)).
    rewrite length_skipn. lia. }
  pose proof (concat_lines_length (map history_line window)) as Hc.
  rewrite ChunkerFacts.len_map in Hc.
  assert (Hall : Forall (fun l => len l <= 310) (map history_line window)).
  { rewrite Forall_map. apply Forall_forall. intros msg _.
    apply history_line_length. }
  specialize (Hc Hall).
  match goal with |- len ?hdr + _ <= _ => change (len hdr) with 11 end.
  unfold len, str in *. lia.
Qed.

End HybridExtra.

(** ** What can make a query fail *)

Module PipelineExtra.
Import Dict Chunker Store Graph Hybrid DictFacts GraphExtra NeighborExtra.
Import PipelineFacts.

Lemma get_neighbors_ok (kg : KnowledgeGraph) (n : str) :
  well_formed (graph kg) -> exists d, get_neighbors kg n = Ok d.
Proof.
  intros W. unfold get_neighbors.
  destruct (has_node (graph kg) n); cbn [negb]; [| eauto].
  destruct (neighbors_total (fun p => edge_relation (graph kg) p n)
                            (predecessors (graph kg) n)) as [ins Hins].
  { intros p Hp. apply get_In_keys in Hp. destruct Hp as [d Hd].
    exists (label_of d). apply edge_relation_ok. exists d.
    split; [| reflexivity]. now rewrite (wf_mirror _ W). }
  destruct (neighbors_total (fun s => edge_relation (graph kg) n s)
                            (successors (graph kg) n)) as [outs Houts].
  { intros s Hs. apply get_In_keys in Hs. destruct Hs as [d Hd].
    exists (label_of d). apply edge_relation_ok. now exists d. }
  rewrite Hins. cbn [bind]. rewrite Houts. cbn [bind]. eauto.
Qed.

(** The label of the edge from [a] to [b], empty when the edge has none. *)
Definition edge_label (G : DiGraph) (a b : str) : str :=
  match get_edge_data G a b with Some d => label_of d | None => [] end.

(** The line of an entity and the line of one of its outgoing relations. *)
Definition header (ne : str * Entity) : str :=
  u "- **" ++ fst ne ++ u "**（"
    ++ entity_type_value (entity_type (snd ne)) ++ u "）："
    ++ description (snd ne).

Definition arrow (relation target : str) : str :=
  u "  → " ++ relation ++ u " → " ++ target.

(** What an entity contributes: its line, then its first three successors
    in the digraph, each with the label of the edge. *)
Definition entity_part (G : DiGraph) (ne : str * Entity) : list str :=
  header ne
  :: map (fun s => arrow (edge_label G (fst ne) s) s)
         (slice_to 3 (successors G (fst ne))).

Lemma neighbors_labelled (G : DiGraph) (n : str) (l : list str)
    (bs : list Neighbor) :
  mapM (fun s => bind (edge_relation G n s) (fun r => Ok (mkNeighbor s r))) l
  = Ok bs ->
  bs = map (fun s => mkNeighbor s (edge_label G n s)) l.
Proof.
  revert bs. induction l as [| a l IH]; intros bs; simpl.
  - now intros [= <-].
  - unfold edge_relation at 1, edge_label at 1.
    destruct (get_edge_data G n a) as [d |]; cbn [bind]; [| discriminate].
    destruct (mapM _ l) as [bs' | e] eqn:Em; cbn [bind]; [| discriminate].
    intros [= <-]. now rewrite (IH bs' eq_refl).
Qed.

Lemma slice_to_map {A B} (f : A -> B) (k : Z) (l : list A) :
  slice_to k (map f l) = map f (slice_to k l).
Proof.
  unfold slice_to. rewrite length_map.
  destruct (0 <=? k)%Z; apply firstn_map.
Qed.

Lemma mapM_pure {A B} (f : A -> result B) (g : A -> B) (l : list A) :
  (forall a, In a l -> f a = Ok (g a)) -> mapM f l = Ok (map g l).
Proof.
  induction l as [| a l IH]; intros H; simpl; [reflexivity |].
  rewrite (H a) by now left. cbn [bind].
  rewrite IH by (intros a' Ha'; apply H; now right). reflexivity.
Qed.

Lemma entity_lines_well_formed (kg : KnowledgeGraph) (ne : str * Entity) :
  well_formed (graph kg) ->
  entity_lines kg ne = Ok (entity_part (graph kg) ne).
Proof.
  intros W. unfold entity_lines, entity_part.
  destruct (get_neighbors_ok kg (fst ne) W) as [d Hd]. rewrite Hd. cbn [bind].
  apply get_neighbors_inv in Hd.
  destruct Hd as [[Hn ->] | (ins & outs & Hn & -> & _ & Ho)].
  - assert (Hs : successors (graph kg) (fst ne) = []).
    { unfold successors, adj. unfold has_node in Hn.
      rewrite <- (wf_succ _ W) in Hn. unfold mem in Hn.
      destruct (get (fst ne) (_succ (graph kg))); [discriminate | reflexivity]. }
    rewrite Hs. reflexivity.
  - apply neighbors_labelled in Ho. subst outs.
    change (get (u "out") [(u "in", ins);
                           (u "out", map (fun s => mkNeighbor s
                                            (edge_label (graph kg) (fst ne) s))
                                         (successors (graph kg) (fst ne)))])
      with (Some (map (fun s => mkNeighbor s (edge_label (graph kg) (fst ne) s))
                      (successors (graph kg) (fst ne)))).
    cbv beta iota.
    rewrite slice_to_map, map_map. cbn [relation entity].
    destruct (successors (graph kg) (fst ne)); reflexivity.
Qed.

(** X23: the graph part of the context. Without a graph it is the empty
    string. On a graph built by [add_entity] and [add_relationship],
    [_get_graph_context] raises nothing and returns, joined by line breaks,
    the first ten lines of: for each registered entity that shares a
    character outside the stop characters with the question, in
    registration order, its own line followed by one line for each of its
    first three successors in the digraph, with the label of the edge. *)
Theorem graph_context_total_and_bounded (ops : list op) (question : str) :
  let kg := run ops in
  let parts :=
    slice_to 10
      (concat (map (entity_part (graph kg))
                   (filter (fun ne => mentions question (fst ne))
                           (entities kg)))) in
  _get_graph_context None question = Ok []
  /\ _get_graph_context (Some kg) question = Ok (join (u "
") parts)
  /\ (length parts <= 10)%nat.
Proof.
  cbv zeta. split; [reflexivity |]. split.
  - unfold _get_graph_context.
    rewrite (mapM_pure (entity_lines (run ops))
                       (entity_part (graph (run ops)))).
    + reflexivity.
    + intros ne _. apply entity_lines_well_formed, run_well_formed.
  - match goal with |- (length (slice_to 10 ?l) <= 10)%nat =>
      pose proof (HybridExtra.len_slice_to_le 10 l) as H end.
    unfold len in H. lia.
Qed.




End PipelineExtra.

(** ** More on the entity matcher *)

Module MatcherExtra.
Import Dict Graph Matcher DictFacts MatcherFacts.

(** X25: whatever the matcher returns is the name of a registered entity:
    the candidate itself only when it is registered, a partial match only
    among the registered names. *)
Theorem fuzzy_match_returns_registered (lower : str -> str)
    (kg : KnowledgeGraph) (candidate name : str)
    (H : _fuzzy_match_entity lower kg candidate = Some name) :
  In name (keys (entities kg)).
Proof.
  unfold _fuzzy_match_entity in H.
  destruct (mem candidate (entities kg)) eqn:E.
  - injection H as <-. now apply mem_keys.
  - apply find_some in H. tauto.
Qed.

Lemma fuzzy_match_returns_registered_witness :
  In (u "能力圈") (keys (entities two_entities)).
Proof.
  apply (fuzzy_match_returns_registered ascii_lower two_entities (u "能力")).
  reflexivity.
Defined.

(** X26: an empty candidate matches everything: when the empty string is not
    itself a registered name (and its lower case is empty), the matcher
    returns the first registered entity. *)
Theorem fuzzy_match_empty_candidate (lower : str -> str)
    (kg : KnowledgeGraph) (first : str) (e : Entity) (others : dict Entity)
    (Hlower : lower [] = [])
    (Hents : entities kg = (first, e) :: others)
    (Hnot : mem [] (entities kg) = false) :
  _fuzzy_match_entity lower kg [] = Some first.
Proof.
  unfold _fuzzy_match_entity. rewrite Hnot, Hents, Hlower. simpl.
  unfold partial_match. destruct (lower first); reflexivity.
Qed.

Lemma fuzzy_match_empty_candidate_witness :
  _fuzzy_match_entity ascii_lower two_entities [] = Some (u "安全边际").
Proof.
  apply (fuzzy_match_empty_candidate ascii_lower two_entities (u "安全边际")
           (mkEntity (u "安全边际") PRINCIPLE [] [] [])
           [(u "能力圈", mkEntity (u "能力圈") CONCEPT [] [] [])]);
    reflexivity.
Defined.

End MatcherExtra.

(** ** Graph retrieval: [GraphQueryEngine._retrieve_context] *)

Module Retrieval.
Import Dict Graph Matcher.

Record EntityInfo := mkInfo { i_name : str; i_type : str; i_description : str }.

Record ContextRel := mkCRel { rel_from : str; rel_to : str; rel_relation : str }.

Record Context := mkContext {
  ctx_entities : list EntityInfo;
  ctx_relationships : list ContextRel;
  ctx_paths : list (list str)
}.

Fixpoint foldM {A S} (f : S -> A -> result S) (l : list A) (acc : S) : result S :=
  match l with
  | [] => Ok acc
  | a :: l' => bind (f acc a) (foldM f l')
  end.

(** [if matched:] holds for a name that is found and is not empty. *)
Definition found (m : option str) : option str :=
  match m with
  | Some (c :: s) => Some (c :: s)
  | _ => None
  end.

(** The loop over [neighbors.items()]: the matched entity is the origin of
    its outgoing relations and the end of the others. *)
Definition neighbor_rels (matched : str) (neighbors : dict (list Neighbor))
    : list ContextRel :=
  flat_map (fun dr =>
              map (fun rel =>
                     if str_eqb (fst dr) (u "out")
                     then mkCRel matched (entity rel) (relation rel)
                     else mkCRel (entity rel) matched (relation rel))
                  (snd dr))
           neighbors.

Section Retrieve.

Variable lower : str -> str.
Variable kg : KnowledgeGraph.

Definition retrieve_entity (ctx : Context) (entity_name : str) : result Context :=
  match found (_fuzzy_match_entity lower kg entity_name) with
  | None => Ok ctx
  | Some matched =>
      let ents :=
        match get matched (entities kg) with
        | Some e =>
            ctx_entities ctx
              ++ [mkInfo (name e) (entity_type_value (entity_type e))
                         (description e)]
        | None => ctx_entities ctx
        end in
      bind (get_neighbors kg matched) (fun neighbors =>
      Ok (mkContext ents
                    (ctx_relationships ctx ++ neighbor_rels matched neighbors)
                    (ctx_paths ctx)))
  end.

(** One step of the loop over consecutive entities: at most three paths,
    found with the default bound of four edges. *)
Definition retrieve_paths (paths : list (list str)) (pair : str * str)
    : result (list (list str)) :=
  match found (_fuzzy_match_entity lower kg (fst pair)),
        found (_fuzzy_match_entity lower kg (snd pair)) with
  | Some source, Some target =>
      bind (find_paths kg source target 4) (fun found_paths =>
      Ok (paths ++ slice_to 3 found_paths))
  | _, _ => Ok paths
  end.

Definition _retrieve_context (entities : list str) : result Context :=
  bind (foldM retrieve_entity entities (mkContext [] [] [])) (fun ctx =>
  if 2 <=? len entities
  then bind (foldM retrieve_paths (combine entities (tl entities)) [])
            (fun paths =>
       Ok (mkContext (ctx_entities ctx) (ctx_relationships ctx) paths))
  else Ok ctx).

End Retrieve.

End Retrieval.

Module RetrievalFacts.
Import Dict Graph Matcher Retrieval DictFacts GraphExtra NeighborExtra.

Lemma foldM_count {A T} (f : T -> A -> result T) (P : nat -> T -> Prop)
    (l : list A) :
  (forall n acc a, P n acc -> exists acc', f acc a = Ok acc' /\ P (S n) acc') ->
  forall n acc, P n acc ->
  exists r, foldM f l acc = Ok r /\ P (n + length l)%nat r.
Proof.
  intros Hstep. induction l as [| a l IH]; intros n acc HP; simpl.
  - exists acc. now rewrite Nat.add_0_r.
  - destruct (Hstep n acc a HP) as (acc' & -> & HP'). cbn [bind].
    destruct (IH (S n) acc' HP') as (r & Hr & HPr). exists r.
    split; [exact Hr |]. now rewrite <- Nat.add_succ_comm.
Qed.

Lemma find_paths_ok (kg : KnowledgeGraph) (source target : str) (k : Z) :
  exists paths, find_paths kg source target k = Ok paths.
Proof.
  unfold find_paths, all_simple_paths.
  destruct (negb (has_node (graph kg) source)).
  - simpl. eauto.
  - destruct ((0 <=? k) && negb (Nat.eqb (length (targets_of (graph kg) target)) 0));
      eauto.
Qed.

(** A reported relationship that is an edge of the digraph, with its
    label. *)
Definition is_edge (G : DiGraph) (r : ContextRel) : Prop :=
  exists d, get (rel_to r) (adj (_succ G) (rel_from r)) = Some d
            /\ rel_relation r = label_of d.

Lemma neighbor_rels_are_edges (kg : KnowledgeGraph) (matched : str)
    (neighbors : dict (list Neighbor)) :
  get_neighbors kg matched = Ok neighbors ->
  Forall (is_edge (graph kg)) (neighbor_rels matched neighbors).
Proof.
  intros H. apply get_neighbors_inv in H.
  destruct H as [[_ ->] | (ins & outs & _ & -> & Hi & Ho)]; [constructor |].
  destruct (neighbors_of_list _ _ _ Hi) as [_ Hin].
  destruct (neighbors_of_list _ _ _ Ho) as [_ Hout].
  unfold neighbor_rels. cbn [flat_map fst snd]. rewrite app_nil_r.
  apply Forall_app. split; apply Forall_forall; intros r Hr;
    apply in_map_iff in Hr; destruct Hr as ([x lbl] & <- & Hx).
  - apply Hin in Hx. destruct Hx as [_ Hx]. apply edge_relation_ok in Hx.
    exact Hx.
  - apply Hout in Hx. destruct Hx as [_ Hx]. apply edge_relation_ok in Hx.
    exact Hx.
Qed.

Section Spec.

Variable lower : str -> str.
Variable ops : list op.

Let kg := run ops.

Lemma retrieve_entity_step (n : nat) (ctx : Context) (entity_name : str) :
  Forall (is_edge (graph kg)) (ctx_relationships ctx)
  /\ (length (ctx_entities ctx) <= n)%nat /\ ctx_paths ctx = [] ->
  exists ctx',
    retrieve_entity lower kg ctx entity_name = Ok ctx'
    /\ Forall (is_edge (graph kg)) (ctx_relationships ctx')
    /\ (length (ctx_entities ctx') <= S n)%nat /\ ctx_paths ctx' = [].
Proof.
  intros (Hr & He & Hp). unfold retrieve_entity.
  destruct (found (_fuzzy_match_entity lower kg entity_name)) as [matched |].
  - destruct (PipelineExtra.get_neighbors_ok kg matched (run_well_formed ops))
      as [d Hd].
    rewrite Hd. cbn [bind]. eexists. split; [reflexivity |].
    cbn [ctx_relationships ctx_entities ctx_paths]. repeat split.
    + apply Forall_app. split; [exact Hr |].
      now apply neighbor_rels_are_edges.
    + destruct (get matched (entities kg)); [rewrite length_app; simpl |]; lia.
    + exact Hp.
  - exists ctx. repeat split; try assumption. lia.
Qed.

Lemma retrieve_paths_step (n : nat) (paths : list (list str)) (pair : str * str) :
  (length paths <= 3 * n)%nat ->
  exists paths',
    retrieve_paths lower kg paths pair = Ok paths'
    /\ (length paths' <= 3 * S n)%nat.
Proof.
  intros H. unfold retrieve_paths.
  destruct (found (_fuzzy_match_entity lower kg (fst pair))) as [source |];
    [| exists paths; split; [reflexivity | lia]].
  destruct (found (_fuzzy_match_entity lower kg (snd pair))) as [target |];
    [| exists paths; split; [reflexivity | lia]].
  destruct (find_paths_ok kg source target 4) as [ps ->]. cbn [bind].
  eexists. split; [reflexivity |]. rewrite length_app.
  pose proof (HybridExtra.len_slice_to_le 3 ps) as Hs. unfold len in Hs. lia.
Qed.

(** X27: on a graph built by [add_entity] and [add_relationship],
    [_retrieve_context] raises nothing; every relationship it reports is an
    edge of the digraph, from its origin to its end and with the label of
    that edge; it reports at most one entity per name given, and at most
    three paths for each pair of consecutive names. *)
Theorem retrieve_context_reports_edges (names : list str) :
  exists ctx,
    _retrieve_context lower kg names = Ok ctx
    /\ Forall (is_edge (graph kg)) (ctx_relationships ctx)
    /\ (length (ctx_entities ctx) <= length names)%nat
    /\ (length (ctx_paths ctx) <= 3 * (length names - 1))%nat.
Proof.
  unfold _retrieve_context.
  destruct (foldM_count (retrieve_entity lower kg)
              (fun n ctx =>
                 Forall (is_edge (graph kg)) (ctx_relationships ctx)
                 /\ (length (ctx_entities ctx) <= n)%nat /\ ctx_paths ctx = [])
              names retrieve_entity_step 0%nat (mkContext [] [] []))
    as (ctx & -> & Hr & He & Hp).
  { repeat split; [constructor | simpl; lia]. }
  cbn [bind]. simpl in He.
  destruct (2 <=? len names).
  - destruct (foldM_count (retrieve_paths lower kg)
                (fun n paths => (length paths <= 3 * n)%nat)
                (combine names (tl names)) retrieve_paths_step 0%nat [])
      as (paths & -> & Hl); [simpl; lia |].
    cbn [bind]. eexists. split; [reflexivity |].
    cbn [ctx_relationships ctx_entities ctx_paths]. repeat split; try assumption.
    rewrite length_combine in Hl.
    assert (Ht : (length (tl names) = length names - 1)%nat)
      by (destruct names; simpl; lia).
    unfold str in *. lia.
  - exists ctx. repeat split; try assumption. rewrite Hp. simpl. lia.
Qed.

End Spec.

End RetrievalFacts.

(** ** The chunker of the graph builder: [TextChunker.chunk_text] *)

Module TextChunker.
Import Chunker.

(** Body of the loop [for para in paragraphs]; the paragraphs are taken as
    they are, and nothing of the emitted buffer is repeated. *)
Definition add_para (chunk_size : Z) (chapter_name : str)
    (st : list TextChunk * str) (para : str) : list TextChunk * str :=
  let '(chunks, current_chunk) := st in
  if len current_chunk + len para <? chunk_size
  then (chunks, current_chunk ++ para ++ nn)
  else
    ((if truthy current_chunk
      then chunks ++ [mkChunk (strip current_chunk) chapter_name (len chunks)]
      else chunks),
     para ++ nn).

Definition chunk_text (chunk_size : Z) (text chapter_name : str)
    : list TextChunk :=
  let '(chunks, current_chunk) :=
    fold_left (add_para chunk_size chapter_name) (split_nn text) ([], []) in
  if truthy current_chunk
  then chunks ++ [mkChunk (strip current_chunk) chapter_name (len chunks)]
  else chunks.

End TextChunker.

Module TextChunkerFacts.
Import Chunker TextChunker.

(** The buffer made of a group of paragraphs, and the text of its chunk. *)
Definition raw (group : list str) : str :=
  concat (map (fun para => para ++ nn) group).

Definition render (group : list str) : str := strip (raw group).

Lemma raw_app (g h : list str) : raw (g ++ h) = raw g ++ raw h.
Proof. unfold raw. now rewrite map_app, concat_app. Qed.

Lemma raw_nil (g : list str) : raw g = [] -> g = [].
Proof.
  destruct g as [| p g]; [reflexivity |]. unfold raw. simpl. intros H.
  apply app_eq_nil in H. destruct H as [H _].
  apply app_eq_nil in H. destruct H as [_ H]. discriminate H.
Qed.

Lemma raw_one (p : str) : raw [p] = p ++ nn.
Proof. unfold raw. simpl. apply app_nil_r. Qed.

(** The state of the loop after the paragraphs [processed]: the chunks made
    so far are the groups of a cut of a prefix of [processed] into
    consecutive groups, and the buffer holds the rest. *)
Definition cut (chapter_name : str) (processed : list str)
    (st : list TextChunk * str) : Prop :=
  exists groups g,
    concat groups ++ g = processed
    /\ Forall (fun x => x <> []) groups
    /\ fst st = map (fun ig => mkChunk (render (snd ig)) chapter_name (fst ig))
                    (Hybrid.enumerate_from 0 groups)
    /\ snd st = raw g.

Lemma enumerate_from_app {A} (l l' : list A) : forall s,
  Hybrid.enumerate_from s (l ++ l')
  = Hybrid.enumerate_from s l ++ Hybrid.enumerate_from (s + len l) l'.
Proof.
  induction l as [| a l IH]; intros s; simpl.
  - unfold len. simpl. now rewrite Z.add_0_r.
  - rewrite IH. do 3 f_equal. unfold len. cbn [length]. lia.
Qed.

Lemma cut_emit (chapter_name : str) (groups : list (list str)) (g : list str) :
  map (fun ig => mkChunk (render (snd ig)) chapter_name (fst ig))
      (Hybrid.enumerate_from 0 groups)
    ++ [mkChunk (strip (raw g)) chapter_name
          (len (map (fun ig => mkChunk (render (snd ig)) chapter_name (fst ig))
                    (Hybrid.enumerate_from 0 groups)))]
  = map (fun ig => mkChunk (render (snd ig)) chapter_name (fst ig))
        (Hybrid.enumerate_from 0 (groups ++ [g])).
Proof.
  rewrite enumerate_from_app, map_app. f_equal. simpl. unfold render.
  do 2 f_equal. unfold len.
  now rewrite length_map, HybridExtra.enumerate_from_length.
Qed.

Lemma add_para_cut size ch processed st para :
  cut ch processed st -> cut ch (processed ++ [para]) (add_para size ch st para).
Proof.
  destruct st as [cs cur]. intros (groups & g & Hc & Hne & Hcs & Hcur).
  simpl in Hcs, Hcur. subst cs cur. unfold add_para.
  destruct (len (raw g) + len para <? size).
  - exists groups, (g ++ [para]). repeat split; try assumption.
    + now rewrite app_assoc, Hc.
    + cbn [snd]. now rewrite raw_app, raw_one.
  - destruct (raw g) as [| b r] eqn:Er; cbn [truthy].
    + apply raw_nil in Er. subst g. rewrite app_nil_r in Hc.
      exists groups, [para]. repeat split; try assumption.
      * now rewrite Hc.
      * cbn [snd]. now rewrite raw_one.
    + exists (groups ++ [g]), [para]. repeat split.
      * rewrite concat_app. simpl. rewrite app_nil_r. now rewrite Hc.
      * apply Forall_app. split; [assumption |]. constructor; [| constructor].
        intros ->. discriminate Er.
      * cbn [fst]. rewrite <- Er. apply cut_emit.
      * cbn [snd]. now rewrite raw_one.
Qed.

Lemma fold_add_para_cut size ch paras : forall processed st,
  cut ch processed st ->
  cut ch (processed ++ paras) (fold_left (add_para size ch) paras st).
Proof.
  induction paras as [| p paras IH]; intros processed st H; simpl.
  - now rewrite app_nil_r.
  - replace (processed ++ p :: paras) with ((processed ++ [p]) ++ paras)
      by now rewrite <- app_assoc.
    now apply IH, add_para_cut.
Qed.

(** X28: [chunk_text] cuts the sequence of paragraphs into consecutive
    groups that are not empty: the chunks are, in order, the groups of such
    a cut, each chunk holding the text of its paragraphs (each followed by
    the separator, the whole stripped), numbered by its position and
    labelled with the chapter name. No paragraph is lost, repeated or
    split. *)
Theorem chunk_text_cuts_paragraphs (chunk_size : Z) (text chapter_name : str) :
  exists groups,
    concat groups = split_nn text
    /\ Forall (fun g => g <> []) groups
    /\ chunk_text chunk_size text chapter_name
       = map (fun ig => mkChunk (render (snd ig)) chapter_name (fst ig))
             (Hybrid.enumerate_from 0 groups).
Proof.
  unfold chunk_text.
  pose proof (fold_add_para_cut chunk_size chapter_name (split_nn text) []
                ([], [])) as H.
  destruct (fold_left (add_para chunk_size chapter_name) (split_nn text)
                      ([], [])) as [cs cur].
  destruct H as (groups & g & Hc & Hne & Hcs & Hcur).
  { exists [], []. repeat split. constructor. }
  simpl in Hc, Hcs, Hcur. subst cs cur.
  destruct (raw g) as [| b r] eqn:Er; cbn [truthy].
  - apply raw_nil in Er. subst g. rewrite app_nil_r in Hc.
    exists groups. auto.
  - exists (groups ++ [g]). repeat split.
    + rewrite concat_app. simpl. now rewrite app_nil_r.
    + apply Forall_app. split; [assumption |]. constructor; [| constructor].
      intros ->. discriminate Er.
    + rewrite <- Er. apply cut_emit.
Qed.

End TextChunkerFacts.
